(** * bun_redis_wrapper: namespace layer, rate limiter, job queue and cache

    A shallow embedding of [index.ts] (createNamespacedRedis) and of the
    controllers [QueueController], [RateLimiterController] and
    [CacheController], over a functional model of the key-value store
    they talk to.  Every asynchronous method becomes a function that
    takes the clock reading ([Date.now()], in milliseconds) and the
    store, and returns its result together with the new store. *)

From Stdlib Require Import ZArith Floats String Ascii List Lia DecimalString.
From stdpp Require Import gmap strings list fin_maps.

Local Open Scope Z_scope.
#[local] Set Warnings "-inexact-float".

(** ** Numbers *)

(** A JavaScript number is a binary64 float.  The counts, scores and
    clock readings that the code only adds, subtracts, compares and
    multiplies as integers are kept as integers ([Z]), and turned into
    the float they are where they enter a division or a result record;
    what the code computes with fractions is computed in binary64. *)
Module JS.

(** The float nearest to an integer (ties to even). *)
Definition of_Z (z : Z) : float := SF2Prim (binary_normalize prec emax z 0 false).

(** The integer [n] as a float, with the sign [neg] when it is zero. *)
Definition signed (neg : bool) (n : Z) : float :=
  if n =? 0 then (if neg then neg_zero else PrimFloat.zero) else of_Z n.

(** [Math.floor], [Math.ceil] and [Math.round] (halves go up).  A
    finite float is [m * 2^e] with the sign [s]; with [e >= 0] it is
    an integer already. *)
Definition Math_floor (x : float) : float :=
  match Prim2SF x with
  | S754_finite s m e =>
      if 0 <=? e then x
      else signed s ((if s then Z.neg m else Z.pos m) / 2 ^ (- e))
  | _ => x
  end.

Definition Math_ceil (x : float) : float :=
  match Prim2SF x with
  | S754_finite s m e =>
      if 0 <=? e then x
      else signed s (- ((if s then Z.pos m else Z.neg m) / 2 ^ (- e)))
  | _ => x
  end.

Definition Math_round (x : float) : float :=
  match Prim2SF x with
  | S754_finite s m e =>
      if 0 <=? e then x
      else signed s ((2 * (if s then Z.neg m else Z.pos m) + 2 ^ (- e))
                     / 2 ^ (- e + 1))
  | _ => x
  end.

(** [Math.min]: NaN when either is NaN, and [-0] below [+0]. *)
Definition Math_min (a b : float) : float :=
  if is_nan a || is_nan b then nan
  else if (a <? b)%float then a
  else if (b <? a)%float then b
  else if get_sign a then a else b.

(** Truthiness of a number: all but zero and NaN. *)
Definition truthy (x : float) : bool := negb (is_zero x || is_nan x).

(** What [JSON.stringify] followed by [JSON.parse] leaves of a number:
    [None] is [null], which is what NaN and the infinities are written
    as; [-0] is written as [0]. *)
Definition JSON_number (x : float) : option float :=
  if is_nan x || is_infinity x then None
  else if is_zero x then Some PrimFloat.zero
  else Some x.

(** [null + y]: null counts as zero. *)
Definition or_zero (x : option float) : float := default PrimFloat.zero x.

End JS.

Arguments JS.of_Z : simpl never.
Coercion JS.of_Z : Z >-> float.

(** ** Documents *)

(** [Job<T>] of QueueController.ts.  The payload [data] is opaque to the
    queue and kept as a string; JavaScript numbers are integers here. *)
Record Job := mkJob {
  id : string;
  type : string;
  data : string;
  priority : Z;
  createdAt : Z;
  attempts : Z;
  maxRetries : Z;
  lastError : option string;
  scheduledFor : option Z
}.

(** The token bucket record [{tokens, lastRefill}] as it is read back
    from its JSON text: [tokens] is a binary64 number or [None] for
    [null]; [lastRefill] is a clock reading. *)
Record Bucket := mkBucket { tokens : option float; lastRefill : Z }.

(** The JSON documents this code base writes. *)
Inductive json : Type :=
| JNull
| JBool (b : bool)
| JNum (n : Z)
| JStr (s : string)
| JJob (j : Job)
| JBucket (b : Bucket).

(** JavaScript truthiness of a parsed document ([if (!job)]). *)
Definition truthy (d : json) : bool :=
  match d with
  | JNull => false
  | JBool b => b
  | JNum n => negb (n =? 0)
  | JStr s => negb (String.eqb s "")
  | JJob _ | JBucket _ => true
  end.

(** A string that travels to or from the store.  [Json d] is the text
    [JSON.stringify(d)], kept by the document it denotes; a number sent
    as a value is [Json (JNum n)], its decimal text. *)
Inductive text : Type :=
| Plain (s : string)
| Json (d : json).

Definition JSON_stringify (d : json) : text := Json d.

(** Results of calls that the store may reject. *)
Inductive result (A : Type) : Type :=
| Ok (a : A)
| Err (msg : string).
Arguments Ok {A} a.
Arguments Err {A} msg.

Definition rbind {A B} (r : result A) (f : A -> result B) : result B :=
  match r with
  | Ok a => f a
  | Err m => Err m
  end.

Notation "'let*' x ':=' r 'in' k" := (rbind r (fun x => k))
  (at level 10, x pattern, r at level 100, k at level 200).

(** ** Reading integers from plain text *)

Definition digit_of (c : ascii) : option Z :=
  let n := Z.of_nat (nat_of_ascii c) in
  if (48 <=? n) && (n <=? 57) then Some (n - 48) else None.

(** Reads the longest run of digits at the head of [s]; [acc] is the
    value read so far, [None] before the first digit. *)
Fixpoint read_digits (s : string) (acc : option Z) : option Z * string :=
  match s with
  | EmptyString => (acc, s)
  | String c s' =>
      match digit_of c with
      | Some d => read_digits s' (Some (10 * default 0 acc + d))
      | None => (acc, s)
      end
  end.

Definition read_int (s : string) : option Z * string :=
  match s with
  | String "-" s' =>
      match read_digits s' None with
      | (Some n, r) => (Some (- n), r)
      | (None, _) => (None, s)
      end
  | _ => read_digits s None
  end.

(** The whole of [s] is a decimal integer. *)
Definition int_of_string (s : string) : option Z :=
  match read_int s with
  | (Some n, EmptyString) => Some n
  | _ => None
  end.

Fixpoint skip_spaces (s : string) : string :=
  match s with
  | String c s' => if Ascii.is_space c then skip_spaces s' else s
  | EmptyString => s
  end.

(** [parseInt(s)] in base ten: leading blanks, an optional sign, then
    digits; [None] is NaN. *)
Definition parseInt_string (s : string) : option Z :=
  match skip_spaces s with
  | String "+" s' => fst (read_digits s' None)
  | s' => fst (read_int s')
  end.

Definition int_of_text (t : text) : option Z :=
  match t with
  | Json (JNum n) => Some n
  | Json _ => None
  | Plain s => int_of_string s
  end.

Definition parseInt (t : text) : option Z :=
  match t with
  | Json (JNum n) => Some n
  | Json _ => None
  | Plain s => parseInt_string s
  end.

(** [JSON.parse]; [None] is a thrown SyntaxError.  Plain text is
    recognised when it is an integer or one of the three literals. *)
Definition JSON_parse (t : text) : option json :=
  match t with
  | Json d => Some d
  | Plain s =>
      match int_of_string s with
      | Some n => Some (JNum n)
      | None =>
          if String.eqb s "null" then Some JNull
          else if String.eqb s "true" then Some (JBool true)
          else if String.eqb s "false" then Some (JBool false)
          else None
      end
  end.

(** Truthiness of a string: only the empty string is falsy. *)
Definition text_truthy (t : text) : bool :=
  match t with
  | Plain s => negb (String.eqb s "")
  | Json _ => true
  end.

(** ** Glob patterns of the key enumeration *)

(** [*] matches any run of characters, [?] exactly one; every other
    character stands for itself. *)
Fixpoint glob (p s : list ascii) : bool :=
  match p with
  | [] => match s with [] => true | _ => false end
  | c :: p' =>
      if Ascii.eqb c "*" then
        (fix star (s : list ascii) : bool :=
           glob p' s || match s with [] => false | _ :: s' => star s' end) s
      else
        match s with
        | [] => false
        | d :: s' => (Ascii.eqb c "?" || Ascii.eqb c d) && glob p' s'
        end
  end.

Definition glob_match (pattern key : string) : bool :=
  glob (list_ascii_of_string pattern) (list_ascii_of_string key).

(** ** Sorted containers *)

(** Order of a sorted container: by score, ties by member. *)
Definition zle (a b : string * Z) : bool :=
  (a.2 <? b.2) || ((a.2 =? b.2) && String.leb a.1 b.1).

Fixpoint zinsert (a : string * Z) (l : list (string * Z)) : list (string * Z) :=
  match l with
  | [] => [a]
  | b :: l' => if zle a b then a :: l else b :: zinsert a l'
  end.

Definition zsort (l : list (string * Z)) : list (string * Z) :=
  foldr zinsert [] l.

(** ** The key-value store *)

Module Store.

(** Modelled from the spec: the Keyspace Store (redis-wrapper.ts is an
    external collaborator): string get/set/delete, atomic increment,
    expiring keys with a remaining-TTL query, sorted containers with
    integer scores, unordered sets and pattern enumeration.  Each kind
    of value has its own keyspace.  String entries carry an optional
    absolute expiry time in milliseconds; the expiry times that
    [expire] gives to sorted containers and sets are kept in [zexp] and
    [sexp].  A string entry is read through [entry], which sees it only
    while it is alive.  The operations on containers do not read the
    clock and act on the container as it is stored: [touch] is the
    store dropping a container whose expiry time has passed, at the
    moment a caller addresses it. *)
Record store := mkStore {
  strs : gmap string (text * option Z);
  zsets : gmap string (gmap string Z);
  sets : gmap string (gset string);
  zexp : gmap string Z;
  sexp : gmap string Z
}.

Definition empty : store := mkStore ∅ ∅ ∅ ∅ ∅.

(** Whether a container with expiry time [e] is alive at [now]. *)
Definition alive (now : Z) (e : option Z) : bool :=
  match e with
  | None => true
  | Some t => now <? t
  end.

Definition live (now : Z) (e : text * option Z) : bool :=
  match e.2 with
  | None => true
  | Some t => now <? t
  end.

Definition entry (now : Z) (key : string) (st : store) : option (text * option Z) :=
  match strs st !! key with
  | Some e => if live now e then Some e else None
  | None => None
  end.

Definition put (key : string) (e : text * option Z) (st : store) : store :=
  mkStore (<[key := e]> (strs st)) (zsets st) (sets st) (zexp st) (sexp st).

Definition get (now : Z) (key : string) (st : store) : option text :=
  fst <$> entry now key st.

(** [set(key, value, {EX})]: [ex] is the EX option, in seconds; a plain
    set clears any expiry. *)
Definition set (now : Z) (key : string) (value : text) (ex : option Z)
    (st : store) : store :=
  put key (value, (fun s => now + s * 1000) <$> ex) st.

Definition zget (key : string) (st : store) : gmap string Z :=
  default ∅ (zsets st !! key).

Definition sget (key : string) (st : store) : gset string :=
  default ∅ (sets st !! key).

(** A container that becomes empty is removed from the keyspace, with
    its expiry time; a container that is created has none. *)
Definition zput (key : string) (z : gmap string Z) (st : store) : store :=
  mkStore (strs st)
          (if decide (z = ∅) then delete key (zsets st) else <[key := z]> (zsets st))
          (sets st)
          (if decide (z = ∅) then delete key (zexp st)
           else if zsets st !! key is Some _ then zexp st else delete key (zexp st))
          (sexp st).

Definition sput (key : string) (s : gset string) (st : store) : store :=
  mkStore (strs st) (zsets st)
          (if decide (s = ∅) then delete key (sets st) else <[key := s]> (sets st))
          (zexp st)
          (if decide (s = ∅) then delete key (sexp st)
           else if sets st !! key is Some _ then sexp st else delete key (sexp st)).

(** Whether [key] holds a sorted container, or a set, that is alive. *)
Definition zlive (now : Z) (key : string) (st : store) : bool :=
  bool_decide (is_Some (zsets st !! key)) && alive now (zexp st !! key).

Definition slive (now : Z) (key : string) (st : store) : bool :=
  bool_decide (is_Some (sets st !! key)) && alive now (sexp st !! key).

(** The store drops the containers under [key] whose expiry time has
    passed. *)
Definition touch (now : Z) (key : string) (st : store) : store :=
  let zdead := negb (alive now (zexp st !! key)) in
  let sdead := negb (alive now (sexp st !! key)) in
  mkStore (strs st)
          (if zdead then delete key (zsets st) else zsets st)
          (if sdead then delete key (sets st) else sets st)
          (if zdead then delete key (zexp st) else zexp st)
          (if sdead then delete key (sexp st) else sexp st).

Definition has_key (now : Z) (key : string) (st : store) : bool :=
  bool_decide (is_Some (entry now key st)) || zlive now key st || slive now key st.

Definition del1 (now : Z) (key : string) (st : store) : Z * store :=
  ((if has_key now key st then 1 else 0),
   mkStore (delete key (strs st)) (delete key (zsets st)) (delete key (sets st))
           (delete key (zexp st)) (delete key (sexp st))).

(** [del(...keys)] returns the number of keys removed. *)
Fixpoint del (now : Z) (keys : list string) (st : store) : Z * store :=
  match keys with
  | [] => (0, st)
  | k :: ks =>
      let '(n, st1) := del1 now k st in
      let '(m, st2) := del now ks st1 in
      (n + m, st2)
  end.

(** [incr(key)]: a missing key counts from zero, the expiry is kept. *)
Definition incr (now : Z) (key : string) (st : store) : result (Z * store) :=
  match entry now key st with
  | None => Ok (1, put key (Json (JNum 1), None) st)
  | Some (v, e) =>
      match int_of_text v with
      | Some n => Ok (n + 1, put key (Json (JNum (n + 1)), e) st)
      | None => Err "ERR value is not an integer or out of range"
      end
  end.

(** [expire(key, seconds)]: 1 when the timeout was set, 0 when the key
    does not exist; a timeout that is not positive removes the key.  It
    acts on whatever is alive under the key: the string entry, the
    sorted container, the set. *)
Definition expire (now : Z) (key : string) (seconds : Z) (st : store) : Z * store :=
  let str := entry now key st in
  let zl := zlive now key st in
  let sl := slive now key st in
  if bool_decide (is_Some str) || zl || sl then
    if seconds <=? 0
    then (1, mkStore (if str is Some _ then delete key (strs st) else strs st)
               (if zl then delete key (zsets st) else zsets st)
               (if sl then delete key (sets st) else sets st)
               (if zl then delete key (zexp st) else zexp st)
               (if sl then delete key (sexp st) else sexp st))
    else (1, mkStore (if str is Some (v, _)
                      then <[key := (v, Some (now + seconds * 1000))]> (strs st)
                      else strs st)
               (zsets st) (sets st)
               (if zl then <[key := now + seconds * 1000]> (zexp st) else zexp st)
               (if sl then <[key := now + seconds * 1000]> (sexp st) else sexp st))
  else (0, st).

(** [ttl(key)]: -2 for a missing key, -1 for a key without expiry, else
    the remaining time in seconds.  [secs] turns the remaining
    milliseconds into the seconds the store reports. *)
Definition ttl (secs : Z -> Z) (now : Z) (key : string) (st : store) : Z :=
  match entry now key st with
  | Some (_, None) => -1
  | Some (_, Some t) => secs (t - now)
  | None =>
      let e := if zlive now key st then Some (zexp st !! key)
               else if slive now key st then Some (sexp st !! key)
               else None in
      match e with
      | None => -2
      | Some None => -1
      | Some (Some t) => secs (t - now)
      end
  end.

(** [getJSON(key)]: the parsed document, [JNull] when the key is missing
    or its text does not parse. *)
Definition getJSON (now : Z) (key : string) (st : store) : json :=
  match get now key st with
  | None => JNull
  | Some t => default JNull (JSON_parse t)
  end.

Definition setJSON (now : Z) (key : string) (d : json) (ex : option Z)
    (st : store) : store :=
  set now key (JSON_stringify d) ex st.

(** [zadd(key, [score, member]...)] returns the number of new members. *)
Definition zadd1 (key : string) (sm : Z * string) (st : store) : Z * store :=
  let z := zget key st in
  ((if z !! sm.2 is Some _ then 0 else 1), zput key (<[sm.2 := sm.1]> z) st).

Fixpoint zadd (key : string) (members : list (Z * string)) (st : store) : Z * store :=
  match members with
  | [] => (0, st)
  | sm :: ms =>
      let '(n, st1) := zadd1 key sm st in
      let '(m, st2) := zadd key ms st1 in
      (n + m, st2)
  end.

(** [zrem(key, member...)] returns the number of members removed. *)
Definition zrem1 (key member : string) (st : store) : Z * store :=
  let z := zget key st in
  match z !! member with
  | None => (0, st)
  | Some _ => (1, zput key (delete member z) st)
  end.

Fixpoint zrem (key : string) (members : list string) (st : store) : Z * store :=
  match members with
  | [] => (0, st)
  | m :: ms =>
      let '(n, st1) := zrem1 key m st in
      let '(k, st2) := zrem key ms st1 in
      (n + k, st2)
  end.

Definition zcard (key : string) (st : store) : Z :=
  Z.of_nat (size (zget key st)).

Definition zscore (key member : string) (st : store) : option Z :=
  zget key st !! member.

(** Members with [lo <= score <= hi], in container order, then
    [LIMIT offset count]. *)
Definition zrangebyscore (key : string) (lo hi : Z) (offset count : Z)
    (st : store) : list string :=
  let inrange := List.filter (fun e : string * Z => (lo <=? e.2) && (e.2 <=? hi))
                             (map_to_list (zget key st)) in
  fst <$> take (Z.to_nat count) (drop (Z.to_nat offset) (zsort inrange)).

(** Removes the members with [lo <= score <= hi]; returns how many. *)
Definition zremrangebyscore (key : string) (lo hi : Z) (st : store) : Z * store :=
  let z := zget key st in
  let keep := filter (fun e : string * Z => ¬ (lo ≤ e.2 ∧ e.2 ≤ hi)) z in
  (Z.of_nat (size z) - Z.of_nat (size keep), zput key keep st).

Definition sadd (key : string) (members : list string) (st : store) : Z * store :=
  let s := sget key st in
  (Z.of_nat (size (list_to_set members ∖ s : gset string)),
   sput key (s ∪ list_to_set members) st).

Definition srem (key : string) (members : list string) (st : store) : Z * store :=
  let s := sget key st in
  (Z.of_nat (size (list_to_set members ∩ s : gset string)),
   sput key (s ∖ list_to_set members) st).

Definition sismember (key member : string) (st : store) : Z :=
  if decide (member ∈ sget key st) then 1 else 0.

Definition scard (key : string) (st : store) : Z :=
  Z.of_nat (size (sget key st)).

Definition smembers (key : string) (st : store) : list string :=
  elements (sget key st).

(** [scanAll(pattern)]: every live key that matches the pattern. *)
Definition scanAll (now : Z) (pattern : string) (st : store) : list string :=
  let live_strs :=
    dom (filter (fun kv : string * (text * option Z) => live now kv.2 = true)
                (strs st)) in
  let live_zsets :=
    dom (filter (fun kv : string * gmap string Z => alive now (zexp st !! kv.1) = true)
                (zsets st)) in
  let live_sets :=
    dom (filter (fun kv : string * gset string => alive now (sexp st !! kv.1) = true)
                (sets st)) in
  List.filter (glob_match pattern)
              (elements (live_strs ∪ live_zsets ∪ live_sets)).

(** Arguments and replies of the raw [command] passthrough. *)
Inductive arg : Type :=
| AStr (s : string)
| ANum (n : Z).

Inductive reply : Type :=
| RNull
| RInt (n : Z)
| RList (l : list string)
| RError (msg : string).

(** [command(cmd, ...args)] for the commands the controllers send. *)
Definition command (now : Z) (cmd : string) (args : list arg) (st : store)
    : reply * store :=
  if String.eqb cmd "ZRANGEBYSCORE" then
    match args with
    | [AStr key; ANum lo; ANum hi; AStr "LIMIT"; ANum offset; ANum count] =>
        (RList (zrangebyscore key lo hi offset count st), st)
    | _ => (RError "ERR syntax error", st)
    end
  else if String.eqb cmd "ZSCORE" then
    match args with
    | [AStr key; AStr member] =>
        (match zscore key member st with Some s => RInt s | None => RNull end, st)
    | _ => (RError "ERR syntax error", st)
    end
  else if String.eqb cmd "SADD" then
    match args with
    | [AStr key; AStr member] =>
        let '(n, st') := sadd key [member] st in (RInt n, st')
    | _ => (RError "ERR syntax error", st)
    end
  else if String.eqb cmd "SREM" then
    match args with
    | [AStr key; AStr member] =>
        let '(n, st') := srem key [member] st in (RInt n, st')
    | _ => (RError "ERR syntax error", st)
    end
  else if String.eqb cmd "SISMEMBER" then
    match args with
    | [AStr key; AStr member] => (RInt (sismember key member st), st)
    | _ => (RError "ERR syntax error", st)
    end
  else if String.eqb cmd "SCARD" then
    match args with
    | [AStr key] => (RInt (scard key st), st)
    | _ => (RError "ERR syntax error", st)
    end
  else if String.eqb cmd "ZREMRANGEBYSCORE" then
    match args with
    | [AStr key; ANum lo; ANum hi] =>
        let '(n, st') := zremrangebyscore key lo hi st in (RInt n, st')
    | _ => (RError "ERR syntax error", st)
    end
  else (RError "ERR unknown command", st).

(** [exists(...keys)]: whether all the keys exist. *)
Definition exists_ (now : Z) (keys : list string) (st : store) : bool :=
  forallb (fun k => has_key now k st) keys.

End Store.

(** ** The namespace layer (index.ts) *)

Fixpoint endsWith (s suffix : string) : bool :=
  String.eqb s suffix
  || match s with
     | EmptyString => false
     | String _ s' => endsWith s' suffix
     end.

Fixpoint slice (n : nat) (s : string) : string :=
  match n, s with
  | O, _ => s
  | S n', String _ s' => slice n' s'
  | S _, EmptyString => EmptyString
  end.

Module Namespaced.

(** [const prefix = namespace.endsWith(":") ? namespace : `${namespace}:`] *)
Definition prefix (namespace : string) : string :=
  if endsWith namespace ":" then namespace else namespace +:+ ":".

Definition addPrefix (namespace key : string) : string :=
  prefix namespace +:+ key.

Definition removePrefix (namespace key : string) : string :=
  if String.prefix (prefix namespace) key
  then slice (String.length (prefix namespace)) key
  else key.

(** The methods of the object that [createNamespacedRedis(redis,
    namespace)] returns; [ns] is the namespace it closes over. *)
Section Methods.
Variable ns : string.

Definition get (now : Z) (key : string) (st : Store.store) : option text :=
  Store.get now (addPrefix ns key) st.

Definition set (now : Z) (key : string) (value : text) (ex : option Z)
    (st : Store.store) : Store.store :=
  Store.set now (addPrefix ns key) value ex st.

(** The first argument is prefixed when it is a string. *)
Definition command (now : Z) (cmd : string) (args : list Store.arg)
    (st : Store.store) : Store.reply * Store.store :=
  Store.command now cmd
    (match args with
     | Store.AStr a :: rest => Store.AStr (addPrefix ns a) :: rest
     | _ => args
     end) st.

Definition del (now : Z) (keys : list string) (st : Store.store) : Z * Store.store :=
  Store.del now (addPrefix ns <$> keys) st.

Definition getJSON (now : Z) (key : string) (st : Store.store) : json :=
  Store.getJSON now (addPrefix ns key) st.

Definition setJSON (now : Z) (key : string) (d : json) (ex : option Z)
    (st : Store.store) : Store.store :=
  Store.setJSON now (addPrefix ns key) d ex st.

Definition incr (now : Z) (key : string) (st : Store.store)
    : result (Z * Store.store) :=
  Store.incr now (addPrefix ns key) st.

Definition ttl (secs : Z -> Z) (now : Z) (key : string) (st : Store.store) : Z :=
  Store.ttl secs now (addPrefix ns key) st.

Definition expire (now : Z) (key : string) (seconds : Z) (st : Store.store)
    : Z * Store.store :=
  Store.expire now (addPrefix ns key) seconds st.

Definition scanAll (now : Z) (pattern : string) (st : Store.store) : list string :=
  removePrefix ns <$> Store.scanAll now (addPrefix ns pattern) st.

Definition zadd (key : string) (members : list (Z * string)) (st : Store.store)
    : Z * Store.store :=
  Store.zadd (addPrefix ns key) members st.

Definition zrem (key : string) (members : list string) (st : Store.store)
    : Z * Store.store :=
  Store.zrem (addPrefix ns key) members st.

Definition zcard (key : string) (st : Store.store) : Z :=
  Store.zcard (addPrefix ns key) st.
End Methods.

End Namespaced.

(** [clearNamespace(redis, namespace)]: the number of keys deleted. *)
Definition clearNamespace (now : Z) (namespace : string) (st : Store.store)
    : Z * Store.store :=
  let prefix := if endsWith namespace ":" then namespace else namespace +:+ ":" in
  let pattern := prefix +:+ "*" in
  let keys := Store.scanAll now pattern st in
  if (0 <? length keys)%nat then Store.del now keys st else (0, st).

(** ** QueueController *)

Module QueueController.

(** [this.redis = createNamespacedRedis(redis, "queue")] *)
Definition ns : string := "queue".

Record JobOptions := mkJobOptions {
  opt_priority : option Z;
  opt_maxRetries : option Z;
  opt_delay : option Z;
  opt_scheduledFor : option Z
}.

Definition no_options : JobOptions := mkJobOptions None None None None.

(** [a || b] on an optional number: zero and undefined are falsy. *)
Definition or_else (a : option Z) (b : Z) : Z :=
  match a with
  | Some n => if n =? 0 then b else n
  | None => b
  end.

(** [`${Date.now()}-${Math.random().toString(36).substring(2, 11)}`];
    [rnd] is the random suffix. *)
Definition generateJobId (now : Z) (rnd : string) : string :=
  NilZero.string_of_int (Z.to_int now) +:+ "-" +:+ rnd.

Definition job_key (jobId : string) : string := "job:" +:+ jobId.

(** [getJob(jobId)], that is [getJSON<Job>(`job:${jobId}`)]: the stored
    document, [JNull] when there is none.  A job record is a [JJob]. *)
Definition getJob (now : Z) (jobId : string) (st : Store.store) : json :=
  Namespaced.getJSON ns now (job_key jobId) st.

Definition add (now : Z) (rnd : string) (type : string) (data : string)
    (options : JobOptions) (st : Store.store) : string * Store.store :=
  let jobId := generateJobId now rnd in
  let job := {|
    id := jobId;
    type := type;
    data := data;
    priority := or_else (opt_priority options) 5;
    createdAt := now;
    attempts := 0;
    maxRetries := default 3 (opt_maxRetries options);
    lastError := None;
    scheduledFor :=
      Some (or_else (opt_scheduledFor options)
                    (match opt_delay options with
                     | Some d => if d =? 0 then now else now + d * 1000
                     | None => now
                     end))
  |} in
  let st := Namespaced.setJSON ns now (job_key jobId) (JJob job) None st in
  let score := default 0 (scheduledFor job) + (10 - priority job) in
  let '(_, st) := Namespaced.zadd ns "pending" [(score, jobId)] st in
  (jobId, st).

(** First half of [next]: the ZRANGEBYSCORE query that picks a job id. *)
Definition select (now : Z) (st : Store.store) : option string :=
  match Namespaced.command ns now "ZRANGEBYSCORE"
          [Store.AStr "pending"; Store.ANum 0; Store.ANum now;
           Store.AStr "LIMIT"; Store.ANum 0; Store.ANum 1] st with
  | (Store.RList (jobId :: _), _) => Some jobId
  | _ => None
  end.

(** Second half of [next], from "Move to processing" on.  The count that
    [zrem("pending", jobId)] reports is dropped, as in the source. *)
Definition claim (now : Z) (jobId : string) (st : Store.store)
    : json * Store.store :=
  let '(_, st) := Namespaced.zrem ns "pending" [jobId] st in
  let '(_, st) := Namespaced.zadd ns "processing" [(now, jobId)] st in
  let job := Namespaced.getJSON ns now (job_key jobId) st in
  if truthy job then (job, st)
  else
    let '(_, st) := Namespaced.zrem ns "processing" [jobId] st in
    (JNull, st).

(** [next()]: the claimed job, [JNull] for null. *)
Definition next (now : Z) (st : Store.store) : json * Store.store :=
  match select now st with
  | None => (JNull, st)
  | Some jobId => claim now jobId st
  end.

Definition complete (now : Z) (jobId : string) (st : Store.store) : Store.store :=
  let '(_, st) := Namespaced.zrem ns "processing" [jobId] st in
  let '(_, st) := Namespaced.command ns now "SADD"
                    [Store.AStr "completed"; Store.AStr jobId] st in
  let job := Namespaced.getJSON ns now (job_key jobId) st in
  if truthy job
  then Namespaced.setJSON ns now (job_key jobId) job (Some 86400) st
  else st.

(** The document read by [getJSON<Job>] is taken to be a job record;
    any other document is outside that type and leaves the store as it
    is. *)
Definition fail (now : Z) (jobId : string) (error : string) (st : Store.store)
    : Store.store :=
  match Namespaced.getJSON ns now (job_key jobId) st with
  | JJob job =>
      let job := {|
        id := id job; type := type job; data := data job;
        priority := priority job; createdAt := createdAt job;
        attempts := attempts job + 1;
        maxRetries := maxRetries job;
        lastError := Some error;
        scheduledFor := scheduledFor job
      |} in
      let '(_, st) := Namespaced.zrem ns "processing" [jobId] st in
      if attempts job <? maxRetries job then
        let delay := 2 ^ attempts job in
        let retryAt := now + delay * 1000 in
        let st := Namespaced.setJSON ns now (job_key jobId) (JJob job) None st in
        let '(_, st) := Namespaced.zadd ns "pending" [(retryAt, jobId)] st in
        st
      else
        let '(_, st) := Namespaced.command ns now "SADD"
                          [Store.AStr "failed"; Store.AStr jobId] st in
        Namespaced.setJSON ns now (job_key jobId) (JJob job) (Some 86400) st
  | _ => st
  end.

Inductive status := pending | processing | completed | failed | unknown.

Definition getStatus (now : Z) (jobId : string) (st : Store.store) : status :=
  match Namespaced.command ns now "ZSCORE"
          [Store.AStr "pending"; Store.AStr jobId] st with
  | (Store.RNull, _) =>
      match Namespaced.command ns now "ZSCORE"
              [Store.AStr "processing"; Store.AStr jobId] st with
      | (Store.RNull, _) =>
          match Namespaced.command ns now "SISMEMBER"
                  [Store.AStr "completed"; Store.AStr jobId] st with
          | (Store.RInt 1, _) => completed
          | _ =>
              match Namespaced.command ns now "SISMEMBER"
                      [Store.AStr "failed"; Store.AStr jobId] st with
              | (Store.RInt 1, _) => failed
              | _ => unknown
              end
          end
      | _ => processing
      end
  | _ => pending
  end.

Definition cancel (now : Z) (jobId : string) (st : Store.store) : bool * Store.store :=
  let '(removed, st) := Namespaced.zrem ns "pending" [jobId] st in
  if 0 <? removed then
    let '(_, st) := Namespaced.del ns now [job_key jobId] st in
    (true, st)
  else (false, st).

(** The pending and processing containers as the queue sees them. *)
Definition pending_of (st : Store.store) : gmap string Z :=
  Store.zget (Namespaced.addPrefix ns "pending") st.

Definition processing_of (st : Store.store) : gmap string Z :=
  Store.zget (Namespaced.addPrefix ns "processing") st.

Definition failed_of (st : Store.store) : gset string :=
  Store.sget (Namespaced.addPrefix ns "failed") st.

Definition completed_of (st : Store.store) : gset string :=
  Store.sget (Namespaced.addPrefix ns "completed") st.

(** The number a reply carries; the replies read this way are always
    integers. *)
Definition reply_int (r : Store.reply) : Z :=
  match r with
  | Store.RInt n => n
  | _ => 0
  end.

Record QueueStats := mkQueueStats {
  pending_count : Z;
  processing_count : Z;
  completed_count : Z;
  failed_count : Z
}.

Definition getStats (now : Z) (st : Store.store) : QueueStats :=
  let pending := Namespaced.zcard ns "pending" st in
  let processing := Namespaced.zcard ns "processing" st in
  let completed :=
    reply_int (fst (Namespaced.command ns now "SCARD" [Store.AStr "completed"] st)) in
  let failed :=
    reply_int (fst (Namespaced.command ns now "SCARD" [Store.AStr "failed"] st)) in
  {| pending_count := pending;
     processing_count := processing;
     completed_count := completed;
     failed_count := failed |}.

(** [retry(jobId)].  As in [fail], a truthy document that is not a job
    record is outside the type [Job] and leaves the store as it is. *)
Definition retry (now : Z) (jobId : string) (st : Store.store) : bool * Store.store :=
  match Namespaced.command ns now "SISMEMBER"
          [Store.AStr "failed"; Store.AStr jobId] st with
  | (Store.RInt 1, _) =>
      match getJob now jobId st with
      | JJob job =>
          let job := {|
            id := id job; type := type job; data := data job;
            priority := priority job; createdAt := createdAt job;
            attempts := 0;
            maxRetries := maxRetries job;
            lastError := None;
            scheduledFor := scheduledFor job
          |} in
          let st := Namespaced.setJSON ns now (job_key jobId) (JJob job) None st in
          let '(_, st) := Namespaced.command ns now "SREM"
                            [Store.AStr "failed"; Store.AStr jobId] st in
          let '(_, st) := Namespaced.zadd ns "pending" [(now, jobId)] st in
          (true, st)
      | _ => (false, st)
      end
  | _ => (false, st)
  end.

End QueueController.

(** ** RateLimiterController *)

Module RateLimiterController.

(** [private namespace = "ratelimit"] *)
Definition namespace : string := "ratelimit".

Record RateLimitResult := mkResult {
  allowed : bool;
  remaining : float;
  limit : float;
  resetAt : float;
  retryAfter : option float
}.

Inductive RateLimitAlgorithm := fixed | sliding | token_bucket.

(** The string each member of the union type stands for. *)
Definition algorithm_name (a : RateLimitAlgorithm) : string :=
  match a with
  | fixed => "fixed"
  | sliding => "sliding"
  | token_bucket => "token-bucket"
  end.

Record RateLimitOptions := mkOptions {
  algorithm : option RateLimitAlgorithm;
  capacity : option float;
  refillRate : option float
}.

Definition no_options : RateLimitOptions := mkOptions None None None.

Section Limiter.
(** How the store rounds a remaining lifetime in milliseconds to the
    seconds that [ttl] reports. *)
Variable secs : Z -> Z.

Definition checkFixedWindow (now : Z) (identifier : string)
    (maxRequests windowSeconds : Z) (st : Store.store)
    : result (RateLimitResult * Store.store) :=
  let key := "fixed:" +:+ identifier in
  let* (count, st) := Namespaced.incr namespace now key st in
  let st := if count =? 1
            then snd (Namespaced.expire namespace now key windowSeconds st)
            else st in
  let ttl := Namespaced.ttl namespace secs now key st in
  let resetAt := now + ttl * 1000 in
  let allowed := count <=? maxRequests in
  let remaining := Z.max 0 (maxRequests - count) in
  Ok ({| allowed := allowed;
         remaining := JS.of_Z remaining;
         limit := JS.of_Z maxRequests;
         resetAt := JS.of_Z resetAt;
         retryAfter := if allowed then None else Some (JS.of_Z ttl) |}, st).

(** [rnd] is the text of [Math.random()] that makes the member unique.
    The container is the only one that this controller gives an expiry
    time, so the store's dropping it once that time has passed comes
    first. *)
Definition checkSlidingWindow (now : Z) (rnd : string) (identifier : string)
    (maxRequests windowSeconds : Z) (st : Store.store)
    : RateLimitResult * Store.store :=
  let key := "sliding:" +:+ identifier in
  let windowStart := now - windowSeconds * 1000 in
  let st := Store.touch now (Namespaced.addPrefix namespace key) st in
  let '(_, st) := Namespaced.command namespace now "ZREMRANGEBYSCORE"
                    [Store.AStr key; Store.ANum 0; Store.ANum windowStart] st in
  let count := Namespaced.zcard namespace key st in
  let allowed := count <? maxRequests in
  let st :=
    if allowed then
      let member := NilZero.string_of_int (Z.to_int now) +:+ "-" +:+ rnd in
      let '(_, st) := Namespaced.zadd namespace key [(now, member)] st in
      snd (Namespaced.expire namespace now key windowSeconds st)
    else st in
  let remaining := Z.max 0 (maxRequests - count - (if allowed then 1 else 0)) in
  ({| allowed := allowed;
      remaining := JS.of_Z remaining;
      limit := JS.of_Z maxRequests;
      resetAt := JS.of_Z (now + windowSeconds * 1000);
      retryAfter := if allowed then None else Some (JS.of_Z windowSeconds) |}, st).

(** The tokens that a check starts from.  [Ok None] is no bucket (no
    text, or the empty text), [Err] a thrown error; a document that is
    not a bucket record has neither field, which makes the tokens NaN.
    The arithmetic is that of the source, in binary64. *)
Definition read_bucket (now : Z) (key : string) (capacity refillRate : float)
    (st : Store.store) : result (option float) :=
  match Namespaced.get namespace now key st with
  | None => Ok None
  | Some bucketData =>
      if text_truthy bucketData then
        match JSON_parse bucketData with
        | None => Err "SyntaxError: JSON Parse error"
        | Some JNull => Err "TypeError: null is not an object"
        | Some (JBucket data) =>
            let elapsed := ((JS.of_Z now - JS.of_Z (lastRefill data)) / 1000)%float in
            let tokensToAdd := (elapsed * refillRate)%float in
            Ok (Some (JS.Math_min capacity
                        (JS.or_zero (tokens data) + tokensToAdd)%float))
        | Some _ => Ok (Some nan)
        end
      else Ok None
  end.

Definition checkTokenBucket (now : Z) (identifier : string)
    (capacity refillRate : float) (st : Store.store)
    : result (RateLimitResult * Store.store) :=
  let key := "bucket:" +:+ identifier in
  let* refilled := read_bucket now key capacity refillRate st in
  let tokens := default capacity refilled in
  let allowed := (1 <=? tokens)%float in
  let tokens := if allowed then (tokens - 1)%float else tokens in
  let st := Namespaced.set namespace now key
              (JSON_stringify (JBucket {| tokens := JS.JSON_number tokens;
                                          lastRefill := now |}))
              (Some 3600) st in
  Ok ({| allowed := allowed;
         remaining := JS.Math_floor tokens;
         limit := capacity;
         resetAt := (JS.of_Z now + (capacity - tokens) / refillRate * 1000)%float;
         retryAfter := if allowed then None
                       else Some (JS.Math_ceil ((1 - tokens) / refillRate)%float) |},
      st).

Definition check (now : Z) (rnd : string) (identifier : string)
    (maxRequests windowSeconds : Z) (options : RateLimitOptions)
    (st : Store.store) : result (RateLimitResult * Store.store) :=
  match default fixed (algorithm options) with
  | sliding =>
      Ok (checkSlidingWindow now rnd identifier maxRequests windowSeconds st)
  | token_bucket =>
      checkTokenBucket now identifier
        (match capacity options with
         | Some c => if JS.truthy c then c else JS.of_Z maxRequests
         | None => JS.of_Z maxRequests
         end)
        (match refillRate options with
         | Some r => if JS.truthy r then r
                     else (JS.of_Z maxRequests / JS.of_Z windowSeconds)%float
         | None => (JS.of_Z maxRequests / JS.of_Z windowSeconds)%float
         end) st
  | fixed => checkFixedWindow now identifier maxRequests windowSeconds st
  end.
End Limiter.

(** [reset(identifier, algorithm?)] *)
Definition reset (now : Z) (identifier : string)
    (algorithm : option RateLimitAlgorithm) (st : Store.store) : Store.store :=
  let patterns :=
    match algorithm with
    | Some a => [algorithm_name a +:+ ":" +:+ identifier]
    | None => ["fixed:" +:+ identifier; "sliding:" +:+ identifier;
               "bucket:" +:+ identifier]
    end in
  foldl (fun st pattern => snd (Namespaced.del namespace now [pattern] st)) st patterns.

(** A run of fixed-window checks for one identifier, one per clock
    reading in [times]. *)
Fixpoint checks (secs : Z -> Z) (times : list Z) (identifier : string)
    (maxRequests windowSeconds : Z) (st : Store.store)
    : result (list RateLimitResult * Store.store) :=
  match times with
  | [] => Ok ([], st)
  | now :: rest =>
      let* (r, st) := check secs now "" identifier maxRequests windowSeconds
                         no_options st in
      let* (rs, st) := checks secs rest identifier maxRequests windowSeconds st in
      Ok (r :: rs, st)
  end.

(** [getUsage(identifier, algorithm = "fixed")]; [Ok None] is the value
    [undefined] or [null], [Err] a thrown error.  The sliding container
    is addressed as in a check: the store drops it when its expiry time
    has passed. *)
Definition getUsage (now : Z) (identifier : string)
    (algorithm : option RateLimitAlgorithm) (st : Store.store)
    : result (option float) :=
  let algorithm := default fixed algorithm in
  let key := algorithm_name algorithm +:+ ":" +:+ identifier in
  match algorithm with
  | sliding =>
      let st := Store.touch now (Namespaced.addPrefix namespace key) st in
      Ok (Some (JS.of_Z (Namespaced.zcard namespace key st)))
  | token_bucket =>
      match Namespaced.get namespace now key st with
      | Some data =>
          if text_truthy data then
            match JSON_parse data with
            | Some (JBucket b) => Ok (tokens b)
            | Some JNull => Err "TypeError: null is not an object"
            | Some _ => Ok None
            | None => Err "SyntaxError: JSON Parse error"
            end
          else Ok (Some PrimFloat.zero)
      | None => Ok (Some PrimFloat.zero)
      end
  | fixed =>
      match Namespaced.get namespace now key st with
      | Some count =>
          if text_truthy count
          then Ok (Some (match parseInt count with
                         | Some n => JS.of_Z n
                         | None => nan
                         end))
          else Ok (Some PrimFloat.zero)
      | None => Ok (Some PrimFloat.zero)
      end
  end.

End RateLimiterController.

(** ** CacheController *)

Module CacheController.

(** [private statsKey = "cache:stats"] *)
Definition statsKey : string := "cache:stats".

Definition hitsKey : string := statsKey +:+ ":hits".
Definition missesKey : string := statsKey +:+ ":misses".

Record CacheStats := mkStats {
  hits : option Z;       (* [None] is NaN *)
  misses : option Z;
  hitRate : float;
  totalKeys : Z
}.

(** A loader together with the number of times it has been invoked.
    [L] is whatever state the loader itself reads and writes. *)
Record source (L : Type) := mkSource { lstate : L; calls : nat }.
Arguments mkSource {L} lstate calls.
Arguments lstate {L} s.
Arguments calls {L} s.

Definition invoke {L} (loader : L -> json * L) (src : source L) : json * source L :=
  let '(d, l) := loader (lstate src) in
  (d, {| lstate := l; calls := S (calls src) |}).

(** [Math.round(x * 100) / 100], in binary64. *)
Definition round2 (x : float) : float := (JS.Math_round (x * 100) / 100)%float.

(** A count that [parseInt] read, as the number it is. *)
Definition number (n : option Z) : float :=
  match n with
  | Some n => JS.of_Z n
  | None => nan
  end.

(** An instance is the pair of the shared store handle and its
    [namespace]; the methods below take the namespace [ns]. *)
Section Instance.
Variable ns : string.

Definition getKey (key : string) : string := ns +:+ ":" +:+ key.

Definition incrementHits (now : Z) (st : Store.store) : result Store.store :=
  let* (_, st) := Store.incr now hitsKey st in Ok st.

Definition incrementMisses (now : Z) (st : Store.store) : result Store.store :=
  let* (_, st) := Store.incr now missesKey st in Ok st.

Definition getOrSet {L} (now : Z) (key : string) (loader : L -> json * L)
    (ttl : Z) (st : Store.store) (src : source L)
    : result (json * Store.store * source L) :=
  let cacheKey := getKey key in
  match Store.getJSON now cacheKey st with
  | JNull =>
      let* st := incrementMisses now st in
      let '(data, src) := invoke loader src in
      let st := Store.setJSON now cacheKey data (Some ttl) st in
      Ok (data, st, src)
  | cached =>
      let* st := incrementHits now st in
      Ok (cached, st, src)
  end.

Definition get (now : Z) (key : string) (st : Store.store)
    : result (json * Store.store) :=
  let cacheKey := getKey key in
  match Store.getJSON now cacheKey st with
  | JNull => let* st := incrementMisses now st in Ok (JNull, st)
  | value => let* st := incrementHits now st in Ok (value, st)
  end.

Definition set (now : Z) (key : string) (value : json) (ttl : Z)
    (st : Store.store) : Store.store :=
  Store.setJSON now (getKey key) value (Some ttl) st.

(** [parseInt(await this.redis.get(k) || "0")] *)
Definition counter (now : Z) (k : string) (st : Store.store) : option Z :=
  match Store.get now k st with
  | Some t => if text_truthy t then parseInt t else Some 0
  | None => Some 0
  end.

Definition getStats (now : Z) (st : Store.store) : CacheStats :=
  let hits := counter now hitsKey st in
  let misses := counter now missesKey st in
  let total := (number hits + number misses)%float in
  let hitRate :=
    if (0 <? total)%float then (number hits / total * 100)%float else PrimFloat.zero in
  let keys := Store.scanAll now (getKey "*") st in
  {| hits := hits;
     misses := misses;
     hitRate := round2 hitRate;
     totalKeys := Z.of_nat (length keys) |}.

Definition resetStats (now : Z) (st : Store.store) : Store.store :=
  snd (Store.del now [hitsKey; missesKey] st).

(** [delete(key)]: whether something was deleted. *)
Definition delete (now : Z) (key : string) (st : Store.store) : bool * Store.store :=
  let '(deleted, st) := Store.del now [getKey key] st in
  (0 <? deleted, st).

Definition has (now : Z) (key : string) (st : Store.store) : bool :=
  Store.exists_ now [getKey key] st.

(** [clear()]: the number of keys deleted. *)
Definition clear (now : Z) (st : Store.store) : Z * Store.store :=
  let pattern := getKey "*" in
  let keys := Store.scanAll now pattern st in
  if (length keys =? 0)%nat then (0, st) else Store.del now keys st.

Definition size (now : Z) (st : Store.store) : Z :=
  Z.of_nat (length (Store.scanAll now (getKey "*") st)).
End Instance.

End CacheController.

(** ** StorageController *)

Module StorageController.

(** An instance is the shared store handle and its [namespace]; the
    methods take the namespace [ns]. *)
Section Instance.
Variable ns : string.

Definition getKey (key : string) : string := ns +:+ ":" +:+ key.

(** [const options = ttl ? { EX: ttl } : undefined]: a time to live of
    zero counts as none. *)
Definition set (now : Z) (key : string) (value : json) (ttl : option Z)
    (st : Store.store) : Store.store :=
  let fullKey := getKey key in
  let options :=
    match ttl with
    | Some t => if t =? 0 then None else Some t
    | None => None
    end in
  Store.setJSON now fullKey value options st.

Definition get (now : Z) (key : string) (st : Store.store) : json :=
  Store.getJSON now (getKey key) st.

Definition has (now : Z) (key : string) (st : Store.store) : bool :=
  Store.exists_ now [getKey key] st.

Definition delete (now : Z) (key : string) (st : Store.store) : bool * Store.store :=
  let '(deleted, st) := Store.del now [getKey key] st in
  (0 <? deleted, st).

Definition deleteMany (now : Z) (keys : list string) (st : Store.store)
    : Z * Store.store :=
  Store.del now (getKey <$> keys) st.

Definition expire (now : Z) (key : string) (seconds : Z) (st : Store.store)
    : bool * Store.store :=
  let '(result, st) := Store.expire now (getKey key) seconds st in
  (result =? 1, st).
End Instance.

End StorageController.

(** ** Vocabulary of the statements *)

Fixpoint has_colon (s : string) : bool :=
  match s with
  | EmptyString => false
  | String c s' => Ascii.eqb c ":" || has_colon s'
  end.

(** The record that [add] builds. *)
Definition added_job (now : Z) (rnd type data : string)
    (options : QueueController.JobOptions) : Job :=
  {| id := QueueController.generateJobId now rnd;
     type := type;
     data := data;
     priority := QueueController.or_else (QueueController.opt_priority options) 5;
     createdAt := now;
     attempts := 0;
     maxRetries := default 3 (QueueController.opt_maxRetries options);
     lastError := None;
     scheduledFor :=
       Some (QueueController.or_else (QueueController.opt_scheduledFor options)
               (match QueueController.opt_delay options with
                | Some d => if d =? 0 then now else now + d * 1000
                | None => now
                end)) |}.

(** The record that [fail] writes back for a stored record [j]. *)
Definition failed_job (j : Job) (error : string) : Job :=
  {| id := id j; type := type j; data := data j; priority := priority j;
     createdAt := createdAt j; attempts := attempts j + 1;
     maxRetries := maxRetries j; lastError := Some error;
     scheduledFor := scheduledFor j |}.

(** The record that [retry] writes back for a stored record [j]. *)
Definition retried_job (j : Job) : Job :=
  {| id := id j; type := type j; data := data j; priority := priority j;
     createdAt := createdAt j; attempts := 0;
     maxRetries := maxRetries j; lastError := None;
     scheduledFor := scheduledFor j |}.

Module QC := QueueController.
Module RL := RateLimiterController.
Module CC := CacheController.
Module SC := StorageController.

(** The key of the fixed-window counter of [identifier]. *)
Definition fixed_key (identifier : string) : string :=
  Namespaced.addPrefix RL.namespace ("fixed:" +:+ identifier).

(** What a fixed-window result looks like when the counter, after the
    increment, stands at [count] and the store reports [ttl] seconds of
    remaining lifetime for it. *)
Definition fixed_result (maxRequests count ttl : Z) (r : RL.RateLimitResult) : Prop :=
  RL.allowed r = (count <=? maxRequests)
  /\ RL.remaining r = Z.max 0 (maxRequests - count)
  /\ RL.retryAfter r = (if count <=? maxRequests then None else Some (JS.of_Z ttl)).

(** A store that reports a remaining lifetime to the nearest second. *)
Definition nearest_second (ms : Z) : Z := (ms + 500) / 1000.

(** Whether a check was allowed; [None] when the call failed. *)
Definition outcome (r : result (RL.RateLimitResult * Store.store)) : option bool :=
  match r with
  | Ok (res, _) => Some (RL.allowed res)
  | Err _ => None
  end.

(** The store a call leaves behind; the empty store when it failed. *)
Definition store_of {A} (r : result (A * Store.store)) : Store.store :=
  match r with
  | Ok (_, st) => st
  | Err _ => Store.empty
  end.


Definition cache_store {L} (r : result (json * Store.store * CC.source L))
    : Store.store :=
  match r with
  | Ok (_, st, _) => st
  | Err _ => Store.empty
  end.


(** The statistics key [k] is unused and stands for [n = 0], or holds
    the count [n] as [incr] leaves it, without expiry. *)
Definition counter_at (k : string) (st : Store.store) (n : Z) : Prop :=
  (Store.strs st !! k = None /\ n = 0)
  \/ Store.strs st !! k = Some (Json (JNum n), None).

(** The keys of the sliding-window container and of the token bucket
    of [identifier]. *)
Definition sliding_key (identifier : string) : string :=
  Namespaced.addPrefix RL.namespace ("sliding:" +:+ identifier).

Definition bucket_key (identifier : string) : string :=
  Namespaced.addPrefix RL.namespace ("bucket:" +:+ identifier).

(** The member that a sliding-window check at clock reading [q.1] with
    random text [q.2] records. *)
Definition sliding_member (q : Z * string) : string :=
  NilZero.string_of_int (Z.to_int q.1) +:+ "-" +:+ q.2.

(** A run of sliding-window checks for one identifier, one per clock
    reading and random text in [reqs]. *)
Fixpoint sliding_checks (reqs : list (Z * string)) (identifier : string)
    (maxRequests windowSeconds : Z) (st : Store.store)
    : list RL.RateLimitResult * Store.store :=
  match reqs with
  | [] => ([], st)
  | q :: rest =>
      let '(r, st) := RL.checkSlidingWindow q.1 q.2 identifier maxRequests
                        windowSeconds st in
      let '(rs, st) := sliding_checks rest identifier maxRequests windowSeconds st in
      (r :: rs, st)
  end.

(** The sliding-window container of [identifier] as an access at
    [now] finds it. *)
Definition sliding_view (now : Z) (identifier : string) (st : Store.store)
    : gmap string Z :=
  Store.zget (sliding_key identifier)
    (Store.touch now (sliding_key identifier) st).

(** The hit rate before rounding, for [h] hits and [m] misses. *)
Definition hit_rate (h m : Z) : float :=
  if (0 <? JS.of_Z h + JS.of_Z m)%float
  then (JS.of_Z h / (JS.of_Z h + JS.of_Z m) * 100)%float
  else PrimFloat.zero.

(** * Properties *)

(** ** Strings *)

Lemma app_nil_l (t : string) : "" +:+ t = t.
Proof. reflexivity. Qed.

Lemma app_cons (a : ascii) (s t : string) : String a s +:+ t = String a (s +:+ t).
Proof. reflexivity. Qed.

Lemma length_app (s t : string) :
  String.length (s +:+ t) = (String.length s + String.length t)%nat.
Proof.
  induction s as [|a s IH]; [reflexivity|].
  rewrite app_cons. simpl. now rewrite IH.
Qed.

Lemma app_assoc (s t u : string) : (s +:+ t) +:+ u = s +:+ (t +:+ u).
Proof.
  induction s as [|a s IH]; [reflexivity|].
  rewrite !app_cons. now rewrite IH.
Qed.

Lemma app_cancel_r (s1 s2 k : string) : s1 +:+ k = s2 +:+ k -> s1 = s2.
Proof.
  revert s2. induction s1 as [|a s1 IH]; intros [|b s2] H.
  - reflexivity.
  - apply (f_equal String.length) in H.
    rewrite app_nil_l, app_cons in H. simpl in H. rewrite length_app in H. lia.
  - apply (f_equal String.length) in H.
    rewrite app_nil_l, app_cons in H. simpl in H. rewrite length_app in H. lia.
  - rewrite !app_cons in H. injection H as -> H. f_equal. now apply IH.
Qed.

Lemma endsWith_has_colon (s : string) : endsWith s ":" = true -> has_colon s = true.
Proof.
  induction s as [|a s IH]; simpl; [discriminate|].
  destruct (Ascii.eqb a ":"); simpl; [reflexivity|exact IH].
Qed.

Lemma prefix_no_colon (ns : string) :
  has_colon ns = false -> Namespaced.prefix ns = ns +:+ ":".
Proof.
  intros H. unfold Namespaced.prefix.
  destruct (endsWith ns ":") eqn:E; [|reflexivity].
  apply endsWith_has_colon in E. congruence.
Qed.

(** The text up to the first colon determines a colon-free namespace. *)
Lemma colon_split (a b k k' : string) :
  has_colon a = false -> has_colon b = false ->
  a +:+ ":" +:+ k = b +:+ ":" +:+ k' -> a = b.
Proof.
  revert b. induction a as [|c a IH]; intros [|d b] Ha Hb H.
  - reflexivity.
  - rewrite app_nil_l, !app_cons in H. injection H as <- _.
    simpl in Hb. discriminate.
  - rewrite app_nil_l, !app_cons in H. injection H as -> _.
    simpl in Ha. discriminate.
  - rewrite !app_cons in H. injection H as -> H.
    simpl in Ha, Hb. apply orb_false_iff in Ha as [_ Ha], Hb as [_ Hb].
    f_equal. now apply IH.
Qed.

Lemma addPrefix_disjoint (nsA nsB k k' : string) :
  has_colon nsA = false -> has_colon nsB = false -> nsA <> nsB ->
  Namespaced.addPrefix nsA k <> Namespaced.addPrefix nsB k'.
Proof.
  intros Ha Hb Hne H. apply Hne. unfold Namespaced.addPrefix in H.
  rewrite !prefix_no_colon in H by assumption.
  rewrite !app_assoc in H.
  exact (colon_split _ _ _ _ Ha Hb H).
Qed.

Lemma app_nil_r (s : string) : s +:+ "" = s.
Proof. induction s as [|a s IH]; [reflexivity|]. rewrite app_cons. now rewrite IH. Qed.

Lemma prefix_app (p r : string) : String.prefix p (p +:+ r) = true.
Proof.
  induction p as [|a p IH]; [now destruct r|].
  rewrite app_cons. simpl. destruct (Ascii.ascii_dec a a); [exact IH|contradiction].
Qed.

Lemma prefix_split (p q : string) : String.prefix p q = true -> exists r, q = p +:+ r.
Proof.
  revert q. induction p as [|a p IH]; intros q H.
  - exists q. reflexivity.
  - destruct q as [|b q]; simpl in H; [discriminate|].
    destruct (Ascii.ascii_dec a b) as [->|]; [|discriminate].
    destruct (IH q H) as [r ->]. exists r. reflexivity.
Qed.

(** Two texts that agree after something is appended to each: one of
    them starts with the other. *)
Lemma app_eq_prefix (p q k k' : string) :
  p +:+ k = q +:+ k' -> String.prefix p q = true \/ String.prefix q p = true.
Proof.
  revert q. induction p as [|a p IH]; intros q H.
  - left. now destruct q.
  - destruct q as [|b q]; [right; reflexivity|].
    rewrite !app_cons in H. injection H as -> H. simpl.
    destruct (Ascii.ascii_dec b b); [|contradiction]. now apply IH.
Qed.

(** The prefixed key sets of two namespaces are disjoint exactly when
    neither prefix starts with the other. *)
Lemma prefix_free_iff (nsA nsB : string) :
  (String.prefix (Namespaced.prefix nsA) (Namespaced.prefix nsB) = false
   /\ String.prefix (Namespaced.prefix nsB) (Namespaced.prefix nsA) = false)
  <-> (forall k k', Namespaced.addPrefix nsA k <> Namespaced.addPrefix nsB k').
Proof.
  unfold Namespaced.addPrefix. split.
  - intros [Ha Hb] k k' H. apply app_eq_prefix in H as [H|H]; congruence.
  - intros H. split.
    + destruct (String.prefix (Namespaced.prefix nsA) (Namespaced.prefix nsB)) eqn:E;
        [|reflexivity].
      apply prefix_split in E as [r E]. exfalso. apply (H r ""). now rewrite app_nil_r.
    + destruct (String.prefix (Namespaced.prefix nsB) (Namespaced.prefix nsA)) eqn:E;
        [|reflexivity].
      apply prefix_split in E as [r E]. exfalso. apply (H "" r). now rewrite app_nil_r.
Qed.

(** ** Store *)

Lemma entry_put (now : Z) (k k' : string) (e : text * option Z) (st : Store.store) :
  Store.entry now k' (Store.put k e st)
  = if decide (k = k') then (if Store.live now e then Some e else None)
    else Store.entry now k' st.
Proof.
  unfold Store.entry, Store.put. simpl.
  rewrite lookup_insert. destruct (decide (k = k')); reflexivity.
Qed.

Lemma get_set_ne (now now' : Z) (k k' : string) (v : text) (ex : option Z)
    (st : Store.store) :
  k <> k' -> Store.get now' k' (Store.set now k v ex st) = Store.get now' k' st.
Proof.
  intros Hne. unfold Store.get, Store.set. rewrite entry_put.
  destruct (decide (k = k')); [contradiction|reflexivity].
Qed.

(** [expire] with a positive timeout on a live string entry. *)
Lemma expire_entry (now : Z) (k : string) (seconds : Z) (st : Store.store)
    (v : text) (e : option Z) :
  Store.entry now k st = Some (v, e) -> 0 < seconds ->
  fst (Store.expire now k seconds st) = 1
  /\ Store.strs (snd (Store.expire now k seconds st))
     = <[k := (v, Some (now + seconds * 1000))]> (Store.strs st).
Proof.
  intros He Hs. unfold Store.expire. rewrite He.
  assert (E : (seconds <=? 0) = false) by (apply Z.leb_gt; lia).
  rewrite E. rewrite bool_decide_eq_true_2 by eauto. cbn [orb fst snd Store.strs]. auto.
Qed.

(** ** C3: namespace isolation *)

(** C3, as stated, fails.  The distinct namespace strings ["a"] and
    ["a:"] are given the same prefix, so a value written through one is
    read back through the other.  And namespaces with different
    prefixes can still share keys: key ["b:k"] of namespace ["a"] and
    key ["k"] of namespace ["a:b"] are the same physical key, so a write
    through the first changes what the second reads. *)
Lemma namespace_isolation_counterexample :
  ~ (forall (nsA nsB k : string) (v : text) (now : Z) (st : Store.store),
       nsA <> nsB ->
       Namespaced.get nsB now k (Namespaced.set nsA now k v None st) = None)
  /\ ~ (forall (nsA nsB k k' : string),
          Namespaced.prefix nsA <> Namespaced.prefix nsB ->
          Namespaced.addPrefix nsA k <> Namespaced.addPrefix nsB k')
  /\ ~ (forall (nsA nsB k k' : string) (v : text) (now : Z) (st : Store.store),
          Namespaced.prefix nsA <> Namespaced.prefix nsB ->
          Namespaced.get nsB now k' (Namespaced.set nsA now k v None st)
          = Namespaced.get nsB now k' st).
Proof.
  split; [|split]; intros H.
  - specialize (H "a" "a:" "k" (Plain "v") 0 Store.empty).
    assert (Hne : "a" <> "a:") by discriminate.
    specialize (H Hne). vm_compute in H. discriminate.
  - apply (H "a" "a:b" "b:k" "k"); [vm_compute; discriminate|reflexivity].
  - specialize (H "a" "a:b" "b:k" "k" (Plain "v") 0 Store.empty).
    assert (Hne : Namespaced.prefix "a" <> Namespaced.prefix "a:b")
      by (vm_compute; discriminate).
    specialize (H Hne). vm_compute in H. discriminate.
Qed.

(** C3 (amended): when the prefixes of two namespaces differ, a write of
    key [k] through the first leaves what the second reads under [k] as
    it was, so not-found stays not-found.  The prefixed key sets of two
    namespaces are disjoint exactly when neither prefix starts with the
    other, and then a write of any key through one leaves every key of
    the other's view unchanged.  Two different namespaces without a
    colon always meet this condition. *)
Theorem namespace_isolation :
  (forall (nsA nsB k : string) (v : text) (ex : option Z) (now now' : Z)
          (st : Store.store),
      Namespaced.prefix nsA <> Namespaced.prefix nsB ->
      Namespaced.get nsB now' k (Namespaced.set nsA now k v ex st)
      = Namespaced.get nsB now' k st)
  /\
  (forall (nsA nsB : string),
      (String.prefix (Namespaced.prefix nsA) (Namespaced.prefix nsB) = false
       /\ String.prefix (Namespaced.prefix nsB) (Namespaced.prefix nsA) = false)
      <-> (forall k k', Namespaced.addPrefix nsA k <> Namespaced.addPrefix nsB k'))
  /\
  (forall (nsA nsB k k' : string) (v : text) (ex : option Z) (now now' : Z)
          (st : Store.store),
      String.prefix (Namespaced.prefix nsA) (Namespaced.prefix nsB) = false ->
      String.prefix (Namespaced.prefix nsB) (Namespaced.prefix nsA) = false ->
      Namespaced.get nsB now' k' (Namespaced.set nsA now k v ex st)
      = Namespaced.get nsB now' k' st)
  /\
  (forall (nsA nsB : string),
      has_colon nsA = false -> has_colon nsB = false -> nsA <> nsB ->
      String.prefix (Namespaced.prefix nsA) (Namespaced.prefix nsB) = false
      /\ String.prefix (Namespaced.prefix nsB) (Namespaced.prefix nsA) = false).
Proof.
  split; [|split; [|split]].
  - intros nsA nsB k v ex now now' st Hne.
    unfold Namespaced.get, Namespaced.set. apply get_set_ne.
    unfold Namespaced.addPrefix. intros H. apply Hne.
    exact (app_cancel_r _ _ _ H).
  - exact prefix_free_iff.
  - intros nsA nsB k k' v ex now now' st Ha Hb.
    unfold Namespaced.get, Namespaced.set. apply get_set_ne.
    now apply (proj1 (prefix_free_iff nsA nsB)).
  - intros nsA nsB Ha Hb Hne. apply prefix_free_iff.
    intros k k'. now apply addPrefix_disjoint.
Qed.

Lemma namespace_isolation_witness :
  (Namespaced.get "shop" 5 "user:123"
     (Namespaced.set "auth" 0 "user:123" (Plain "auth-data") None Store.empty)
   = Namespaced.get "shop" 5 "user:123" Store.empty)
  /\ (forall k k', Namespaced.addPrefix "tenant:acme" k
                   <> Namespaced.addPrefix "tenant:globex" k')
  /\ (Namespaced.get "tenant:globex" 5 "user:1"
        (Namespaced.set "tenant:acme" 0 "user:1" (Plain "v") None Store.empty)
      = Namespaced.get "tenant:globex" 5 "user:1" Store.empty)
  /\ (String.prefix (Namespaced.prefix "a") (Namespaced.prefix "ab") = false
      /\ String.prefix (Namespaced.prefix "ab") (Namespaced.prefix "a") = false).
Proof.
  destruct namespace_isolation as (H1 & H2 & H3 & H4).
  split; [|split; [|split]].
  - apply H1. vm_compute. discriminate.
  - apply (proj1 (H2 "tenant:acme" "tenant:globex")). split; reflexivity.
  - apply H3; reflexivity.
  - apply H4; [reflexivity | reflexivity | discriminate].
Defined.

(** ** Sorted containers *)

Lemma zle_true (a b : string * Z) : zle a b = true -> a.2 <= b.2.
Proof.
  unfold zle. intros H. apply orb_true_iff in H as [H|H].
  - apply Z.ltb_lt in H. lia.
  - apply andb_true_iff in H as [H _]. apply Z.eqb_eq in H. lia.
Qed.

Lemma zle_false (a b : string * Z) : zle a b = false -> b.2 <= a.2.
Proof.
  unfold zle. intros H. apply orb_false_iff in H as [H _].
  apply Z.ltb_ge in H. exact H.
Qed.

Lemma zinsert_head (a : string * Z) (l : list (string * Z)) :
  exists x l', zinsert a l = x :: l' /\ (x = a \/ x ∈ l)
               /\ x.2 <= a.2 /\ (forall y, head l = Some y -> x.2 <= y.2).
Proof.
  destruct l as [|b l]; simpl.
  - exists a, []. repeat split; auto; [lia | intros y Hy; discriminate].
  - destruct (zle a b) eqn:E.
    + exists a, (b :: l). repeat split; auto; [lia|].
      intros y [= <-]. now apply zle_true.
    + exists b, (zinsert a l). repeat split.
      * right. left.
      * now apply zle_false.
      * intros y [= <-]. lia.
Qed.

(** The head of a sorted listing is an entry of least score. *)
Lemma zsort_head (l : list (string * Z)) :
  match zsort l with
  | [] => l = []
  | x :: _ => x ∈ l /\ forall y, y ∈ l -> x.2 <= y.2
  end.
Proof.
  induction l as [|a l IH]; [reflexivity|].
  unfold zsort in *. simpl.
  destruct (zinsert_head a (foldr zinsert [] l)) as (x & l' & -> & Hx & Hxa & Hhd).
  destruct (foldr zinsert [] l) as [|h t] eqn:E.
  - subst l. destruct Hx as [->|Hx]; [|inversion Hx].
    split; [left|]. intros y Hy. apply list_elem_of_singleton in Hy as ->. lia.
  - destruct IH as [Hh Hmin]. specialize (Hhd h eq_refl). split.
    + destruct Hx as [->|Hx]; [left|].
      right. apply elem_of_cons in Hx as [->|Hx]; [exact Hh|].
      assert (Hin : x ∈ zsort l) by (unfold zsort; rewrite E; now right).
      clear -Hin. revert Hin. unfold zsort.
      induction l as [|b l IHl]; simpl; [inversion 1|].
      intros Hin.
      assert (Hz : forall c s, x ∈ zinsert c s -> x = c \/ x ∈ s).
      { clear. intros c s. induction s as [|d s IHs]; simpl.
        - intros H. apply list_elem_of_singleton in H. now left.
        - destruct (zle c d).
          + intros H. apply elem_of_cons in H as [->|H]; [now left|now right].
          + intros H. apply elem_of_cons in H as [->|H]; [right; left|].
            destruct (IHs H) as [->|H']; [now left|right; now right]. }
      destruct (Hz _ _ Hin) as [->|H]; [left|right; now apply IHl].
    + intros y Hy. apply elem_of_cons in Hy as [->|Hy]; [exact Hxa|].
      specialize (Hmin y Hy). lia.
Qed.

Lemma zget_zput (k k' : string) (z : gmap string Z) (st : Store.store) :
  Store.zget k' (Store.zput k z st)
  = if decide (k = k') then z else Store.zget k' st.
Proof.
  unfold Store.zget, Store.zput. simpl.
  destruct (decide (z = ∅)) as [->|Hz], (decide (k = k')) as [->|Hk].
  - now rewrite lookup_delete_eq.
  - now rewrite lookup_delete_ne.
  - now rewrite lookup_insert_eq.
  - now rewrite lookup_insert_ne.
Qed.

Lemma zget_put (k k' : string) (e : text * option Z) (st : Store.store) :
  Store.zget k (Store.put k' e st) = Store.zget k st.
Proof. reflexivity. Qed.

Lemma zget_sput (k k' : string) (s : gset string) (st : Store.store) :
  Store.zget k (Store.sput k' s st) = Store.zget k st.
Proof. reflexivity. Qed.

Lemma zadd_single (k m : string) (s : Z) (st : Store.store) :
  snd (Store.zadd k [(s, m)] st) = Store.zput k (<[m := s]> (Store.zget k st)) st.
Proof. reflexivity. Qed.

Lemma zrem_single (k m : string) (st : Store.store) :
  Store.zrem k [m] st
  = match Store.zget k st !! m with
    | None => (0, st)
    | Some _ => (1, Store.zput k (delete m (Store.zget k st)) st)
    end.
Proof.
  unfold Store.zrem, Store.zrem1.
  destruct (Store.zget k st !! m); reflexivity.
Qed.

Lemma zget_zrem (k k' m : string) (st : Store.store) :
  Store.zget k' (snd (Store.zrem k [m] st))
  = if decide (k = k') then delete m (Store.zget k st) else Store.zget k' st.
Proof.
  rewrite zrem_single.
  destruct (Store.zget k st !! m) eqn:E; simpl.
  - apply zget_zput.
  - destruct (decide (k = k')) as [->|]; [|reflexivity].
    symmetry. now apply delete_id.
Qed.

Lemma strs_zrem (k m : string) (st : Store.store) :
  Store.strs (snd (Store.zrem k [m] st)) = Store.strs st.
Proof. rewrite zrem_single. destruct (Store.zget k st !! m); reflexivity. Qed.

Lemma sets_zrem (k m : string) (st : Store.store) :
  Store.sets (snd (Store.zrem k [m] st)) = Store.sets st.
Proof. rewrite zrem_single. destruct (Store.zget k st !! m); reflexivity. Qed.

(** What a [ZRANGEBYSCORE key lo hi LIMIT 0 1] answers. *)
Lemma zrangebyscore_first (k : string) (lo hi : Z) (st : Store.store) :
  match Store.zrangebyscore k lo hi 0 1 st with
  | [] => forall m s, Store.zget k st !! m = Some s -> ~ (lo <= s <= hi)
  | m :: rest =>
      rest = []
      /\ exists s, Store.zget k st !! m = Some s /\ lo <= s <= hi
                   /\ forall m' s', Store.zget k st !! m' = Some s' ->
                                    lo <= s' <= hi -> s <= s'
  end.
Proof.
  unfold Store.zrangebyscore.
  set (P := fun e : string * Z => (lo <=? e.2) && (e.2 <=? hi)).
  set (l := List.filter P (map_to_list (Store.zget k st))).
  assert (Hl : forall e, e ∈ l <-> Store.zget k st !! e.1 = Some e.2 /\ lo <= e.2 <= hi).
  { intros e. unfold l. rewrite list_elem_of_In, filter_In, <- list_elem_of_In.
    rewrite elem_of_map_to_list'. unfold P. rewrite andb_true_iff.
    rewrite Z.leb_le, Z.leb_le. tauto. }
  pose proof (zsort_head l) as Hs.
  change (Z.to_nat 0) with 0%nat. change (Z.to_nat 1) with 1%nat.
  rewrite drop_0. destruct (zsort l) as [|[m s] t].
  - simpl. intros m s Hm Hr. assert (He : (m, s) ∈ l) by (apply Hl; auto).
    rewrite Hs in He. inversion He.
  - simpl. destruct Hs as [Hin Hmin]. apply Hl in Hin as [Hm Hr]. simpl in *.
    split; [now destruct t|]. exists s. repeat split; try tauto.
    intros m' s' Hm' Hr'. apply (Hmin (m', s')). apply Hl. auto.
Qed.

(** ** Queue: how each operation changes the store *)

Lemma pending_ne_processing :
  Namespaced.addPrefix QC.ns "pending" <> Namespaced.addPrefix QC.ns "processing".
Proof. intros H. vm_compute in H. discriminate. Qed.

Lemma job_key_inj (a b : string) :
  Namespaced.addPrefix QC.ns (QC.job_key a) = Namespaced.addPrefix QC.ns (QC.job_key b)
  -> a = b.
Proof.
  unfold Namespaced.addPrefix, QC.job_key. intros H.
  apply (inj (String.app _)) in H. now apply (inj (String.app _)) in H.
Qed.

Lemma getJob_ext (now : Z) (m : string) (st st' : Store.store) :
  Store.strs st = Store.strs st' -> QC.getJob now m st = QC.getJob now m st'.
Proof.
  intros H. unfold QC.getJob, Namespaced.getJSON, Store.getJSON, Store.get, Store.entry.
  now rewrite H.
Qed.

Lemma select_head (now : Z) (st : Store.store) :
  QC.select now st
  = head (Store.zrangebyscore (Namespaced.addPrefix QC.ns "pending") 0 now 0 1 st).
Proof.
  unfold QC.select, Namespaced.command, Store.command.
  change (String.eqb "ZRANGEBYSCORE" "ZRANGEBYSCORE") with true. cbv iota.
  destruct (Store.zrangebyscore _ 0 now 0 1 st); reflexivity.
Qed.

(** [select] picks a pending entry with a score in [0, now] that no
    other such entry undercuts. *)
Lemma select_Some (now : Z) (st : Store.store) (m : string) :
  QC.select now st = Some m ->
  exists s, QC.pending_of st !! m = Some s /\ 0 <= s <= now
            /\ forall m' s', QC.pending_of st !! m' = Some s' ->
                             0 <= s' <= now -> s <= s'.
Proof.
  rewrite select_head. unfold QC.pending_of.
  pose proof (zrangebyscore_first (Namespaced.addPrefix QC.ns "pending") 0 now st) as H.
  destruct (Store.zrangebyscore _ 0 now 0 1 st) as [|x r]; [discriminate|].
  intros [= ->]. destruct H as [_ H]. exact H.
Qed.

Lemma select_None (now : Z) (st : Store.store) :
  QC.select now st = None ->
  forall m s, QC.pending_of st !! m = Some s -> ~ (0 <= s <= now).
Proof.
  rewrite select_head. unfold QC.pending_of.
  pose proof (zrangebyscore_first (Namespaced.addPrefix QC.ns "pending") 0 now st) as H.
  destruct (Store.zrangebyscore _ 0 now 0 1 st) as [|x r]; [|discriminate].
  intros _. exact H.
Qed.

(** An eligible entry that undercuts every other eligible one is the
    one selected. *)
Lemma select_least (now : Z) (st : Store.store) (m : string) (s : Z) :
  QC.pending_of st !! m = Some s -> 0 <= s <= now ->
  (forall m' s', m' <> m -> QC.pending_of st !! m' = Some s' ->
                 0 <= s' <= now -> s < s') ->
  QC.select now st = Some m.
Proof.
  intros Hm Hr Hlt. destruct (QC.select now st) as [x|] eqn:E.
  - destruct (select_Some _ _ _ E) as (sx & Hx & Hrx & Hmin).
    destruct (decide (x = m)) as [->|Hne]; [reflexivity|].
    specialize (Hlt x sx Hne Hx Hrx). specialize (Hmin m s Hm Hr). lia.
  - exfalso. exact (select_None _ _ E m s Hm Hr).
Qed.

Lemma claim_truthy (now : Z) (m : string) (st : Store.store) :
  truthy (QC.getJob now m st) = true ->
  exists st', QC.claim now m st = (QC.getJob now m st, st')
    /\ Store.strs st' = Store.strs st /\ Store.sets st' = Store.sets st
    /\ QC.pending_of st' = delete m (QC.pending_of st)
    /\ QC.processing_of st' = <[m := now]> (QC.processing_of st).
Proof.
  intros Hj. unfold QC.claim, Namespaced.zrem, Namespaced.zadd.
  set (P := Namespaced.addPrefix QC.ns "pending").
  set (R := Namespaced.addPrefix QC.ns "processing").
  destruct (Store.zrem P [m] st) as [n st1] eqn:E1.
  assert (Hst1 : st1 = snd (Store.zrem P [m] st)) by now rewrite E1.
  destruct (Store.zadd R [(now, m)] st1) as [n2 st2] eqn:E2.
  assert (Hst2 : st2 = snd (Store.zadd R [(now, m)] st1)) by now rewrite E2.
  rewrite zadd_single in Hst2.
  assert (Hs : Store.strs st2 = Store.strs st).
  { rewrite Hst2, Hst1. simpl. apply strs_zrem. }
  change (Namespaced.getJSON QC.ns now (QC.job_key m) st2) with (QC.getJob now m st2).
  rewrite (getJob_ext now m st2 st Hs), Hj.
  exists st2. split; [reflexivity|]. split; [exact Hs|]. split.
  { rewrite Hst2, Hst1. simpl. apply sets_zrem. }
  unfold QC.pending_of, QC.processing_of. fold P R. rewrite Hst2, !zget_zput, Hst1.
  rewrite !zget_zrem.
  destruct (decide (R = P)) as [HRP|_];
    [exfalso; now apply pending_ne_processing|].
  destruct (decide (R = R)) as [_|?]; [|contradiction].
  destruct (decide (P = P)) as [_|?]; [|contradiction].
  destruct (decide (P = R)) as [HPR|_];
    [exfalso; now apply pending_ne_processing|].
  split; reflexivity.
Qed.

Lemma claim_found (now : Z) (m : string) (st : Store.store) (j : Job) :
  QC.getJob now m st = JJob j ->
  exists st', QC.claim now m st = (JJob j, st')
    /\ Store.strs st' = Store.strs st /\ Store.sets st' = Store.sets st
    /\ QC.pending_of st' = delete m (QC.pending_of st)
    /\ QC.processing_of st' = <[m := now]> (QC.processing_of st).
Proof.
  intros Hj. assert (Ht : truthy (QC.getJob now m st) = true) by now rewrite Hj.
  destruct (claim_truthy now m st Ht) as (st' & Hc & H). rewrite Hj in Hc. eauto.
Qed.

Lemma claim_dangling (now : Z) (m : string) (st : Store.store) :
  truthy (QC.getJob now m st) = false ->
  exists st', QC.claim now m st = (JNull, st')
    /\ Store.strs st' = Store.strs st /\ Store.sets st' = Store.sets st
    /\ QC.pending_of st' = delete m (QC.pending_of st)
    /\ QC.processing_of st' = delete m (QC.processing_of st).
Proof.
  intros Hj. unfold QC.claim, Namespaced.zrem, Namespaced.zadd.
  set (P := Namespaced.addPrefix QC.ns "pending").
  set (R := Namespaced.addPrefix QC.ns "processing").
  destruct (Store.zrem P [m] st) as [n st1] eqn:E1.
  assert (Hst1 : st1 = snd (Store.zrem P [m] st)) by now rewrite E1.
  destruct (Store.zadd R [(now, m)] st1) as [n2 st2] eqn:E2.
  assert (Hst2 : st2 = snd (Store.zadd R [(now, m)] st1)) by now rewrite E2.
  rewrite zadd_single in Hst2.
  assert (Hs : Store.strs st2 = Store.strs st).
  { rewrite Hst2, Hst1. simpl. apply strs_zrem. }
  change (Namespaced.getJSON QC.ns now (QC.job_key m) st2) with (QC.getJob now m st2).
  rewrite (getJob_ext now m st2 st Hs), Hj.
  destruct (Store.zrem R [m] st2) as [n3 st3] eqn:E3.
  assert (Hst3 : st3 = snd (Store.zrem R [m] st2)) by now rewrite E3.
  exists st3. split; [reflexivity|]. split.
  { rewrite Hst3, strs_zrem. exact Hs. } split.
  { rewrite Hst3, sets_zrem, Hst2, Hst1. simpl. apply sets_zrem. }
  unfold QC.pending_of, QC.processing_of. fold P R.
  rewrite Hst3, !zget_zrem, Hst2, !zget_zput, Hst1, !zget_zrem.
  destruct (decide (R = P)) as [HRP|_];
    [exfalso; now apply pending_ne_processing|].
  destruct (decide (R = R)) as [_|?]; [|contradiction].
  destruct (decide (P = P)) as [_|?]; [|contradiction].
  destruct (decide (P = R)) as [HPR|_];
    [exfalso; now apply pending_ne_processing|].
  split; [reflexivity|]. apply delete_insert_eq.
Qed.

Lemma getJob_lookup (now : Z) (m : string) (st : Store.store) (j : Job)
    (e : option Z) :
  Store.strs st !! Namespaced.addPrefix QC.ns (QC.job_key m) = Some (Json (JJob j), e) ->
  Store.live now (Json (JJob j), e) = true ->
  QC.getJob now m st = JJob j.
Proof.
  intros H Hl. unfold QC.getJob, Namespaced.getJSON, Store.getJSON, Store.get, Store.entry.
  rewrite H, Hl. reflexivity.
Qed.


Lemma add_spec (now : Z) (rnd type data : string) (o : QC.JobOptions)
    (st : Store.store) :
  let job := added_job now rnd type data o in
  exists st', QC.add now rnd type data o st = (id job, st')
    /\ Store.strs st'
       = <[Namespaced.addPrefix QC.ns (QC.job_key (id job)) := (Json (JJob job), None)]>
           (Store.strs st)
    /\ Store.sets st' = Store.sets st
    /\ QC.pending_of st'
       = <[id job := default 0 (scheduledFor job) + (10 - priority job)]> (QC.pending_of st)
    /\ QC.processing_of st' = QC.processing_of st.
Proof.
  intros job. unfold QC.add. fold (added_job now rnd type data o). fold job.
  unfold Namespaced.zadd, Namespaced.setJSON, Store.setJSON, Store.set.
  set (P := Namespaced.addPrefix QC.ns "pending").
  match goal with
  | |- context [Store.zadd P ?l ?s] =>
      destruct (Store.zadd P l s) as [n st2] eqn:E;
      assert (Hst2 : st2 = snd (Store.zadd P l s)) by now rewrite E
  end.
  rewrite zadd_single in Hst2.
  exists st2. split; [reflexivity|]. rewrite Hst2.
  split; [reflexivity|]. split; [reflexivity|].
  unfold QC.pending_of, QC.processing_of. fold P. rewrite !zget_zput.
  destruct (decide (P = P)) as [_|?]; [|contradiction].
  destruct (decide (P = Namespaced.addPrefix QC.ns "processing")) as [HPR|_];
    [exfalso; now apply pending_ne_processing|].
  split; reflexivity.
Qed.

Lemma sget_sput (k k' : string) (s : gset string) (st : Store.store) :
  Store.sget k' (Store.sput k s st)
  = if decide (k = k') then s else Store.sget k' st.
Proof.
  unfold Store.sget, Store.sput. simpl.
  destruct (decide (s = ∅)) as [->|Hz], (decide (k = k')) as [->|Hk].
  - now rewrite lookup_delete_eq.
  - now rewrite lookup_delete_ne.
  - now rewrite lookup_insert_eq.
  - now rewrite lookup_insert_ne.
Qed.

(** [fail] while attempts remain: the record is written back without
    expiry and the id goes back to pending with the backoff score. *)
Lemma fail_requeue (now : Z) (m error : string) (st : Store.store) (j : Job) :
  QC.getJob now m st = JJob j ->
  attempts j + 1 < maxRetries j ->
  let st' := QC.fail now m error st in
  Store.strs st'
  = <[Namespaced.addPrefix QC.ns (QC.job_key m) := (Json (JJob (failed_job j error)), None)]>
      (Store.strs st)
  /\ Store.sets st' = Store.sets st
  /\ QC.pending_of st' = <[m := now + 2 ^ (attempts j + 1) * 1000]> (QC.pending_of st)
  /\ QC.processing_of st' = delete m (QC.processing_of st).
Proof.
  intros Hj Hlt st'. subst st'. unfold QC.fail.
  change (Namespaced.getJSON QC.ns now (QC.job_key m) st) with (QC.getJob now m st).
  rewrite Hj.
  fold (failed_job j error). unfold Namespaced.zrem, Namespaced.zadd.
  set (P := Namespaced.addPrefix QC.ns "pending").
  set (R := Namespaced.addPrefix QC.ns "processing").
  destruct (Store.zrem R [m] st) as [n st1] eqn:E1.
  assert (Hst1 : st1 = snd (Store.zrem R [m] st)) by now rewrite E1.
  change (attempts (failed_job j error)) with (attempts j + 1).
  change (maxRetries (failed_job j error)) with (maxRetries j).
  apply Z.ltb_lt in Hlt. rewrite Hlt.
  unfold Namespaced.setJSON, Store.setJSON, Store.set.
  match goal with
  | |- context [Store.zadd P ?l ?s] =>
      destruct (Store.zadd P l s) as [n2 st2] eqn:E2;
      assert (Hst2 : st2 = snd (Store.zadd P l s)) by now rewrite E2
  end.
  rewrite zadd_single in Hst2. rewrite Hst2.
  split; [simpl; now rewrite Hst1, strs_zrem|].
  split; [simpl; now rewrite Hst1, sets_zrem|].
  unfold QC.pending_of, QC.processing_of. fold P R.
  rewrite !zget_zput, !zget_put, Hst1, !zget_zrem.
  destruct (decide (P = P)) as [_|?]; [|contradiction].
  destruct (decide (R = R)) as [_|?]; [|contradiction].
  destruct (decide (P = R)) as [HPR|_];
    [exfalso; now apply pending_ne_processing|].
  destruct (decide (R = P)) as [HPR|_];
    [exfalso; now apply pending_ne_processing|].
  split; reflexivity.
Qed.


(** ** C1: what [next] returns *)

(** C1, as stated, fails: [next] does not touch [attempts].  A job added
    at time 1000 and claimed at time 1005 comes back with [attempts = 0],
    so the first claim does not report [attempts = 1]. *)
Lemma next_attempts_counterexample :
  ~ (forall (now now' : Z) (rnd type data : string) (st : Store.store)
            (j : Job) (st' : Store.store),
       QC.next now' (snd (QC.add now rnd type data QC.no_options st)) = (JJob j, st') ->
       id j = QC.generateJobId now rnd ->
       attempts j = 1).
Proof.
  intros H.
  specialize (H 1000 1005 "x" "email" "{}" Store.empty
                (added_job 1000 "x" "email" "{}" QC.no_options)
                (snd (QC.next 1005 (snd (QC.add 1000 "x" "email" "{}" QC.no_options
                                           Store.empty))))).
  assert (Hrun : QC.next 1005 (snd (QC.add 1000 "x" "email" "{}" QC.no_options Store.empty))
                 = (JJob (added_job 1000 "x" "email" "{}" QC.no_options),
                    snd (QC.next 1005 (snd (QC.add 1000 "x" "email" "{}" QC.no_options
                                              Store.empty)))))
    by (vm_compute; reflexivity).
  specialize (H Hrun eq_refl). discriminate H.
Qed.

(** C1 (amended): [next] hands back the job record exactly as it is
    stored and writes no record: the claimed id is the one [select]
    picked, the returned job is the stored one before and after the
    call, and the string entries of the store are unchanged.  The first
    [next] that claims a freshly added job therefore returns it with
    [attempts = 0]; incrementing [attempts] is left to [fail]. *)
Theorem next_returns_stored_record :
  (forall (now : Z) (st : Store.store) (j : Job) (st' : Store.store),
      QC.next now st = (JJob j, st') ->
      exists m, QC.select now st = Some m
                /\ QC.getJob now m st = JJob j
                /\ QC.getJob now m st' = JJob j
                /\ Store.strs st' = Store.strs st)
  /\
  (forall (now now' : Z) (rnd type data : string) (o : QC.JobOptions)
          (st : Store.store),
      QC.select now' (snd (QC.add now rnd type data o st))
      = Some (QC.generateJobId now rnd) ->
      exists j st',
        QC.next now' (snd (QC.add now rnd type data o st)) = (JJob j, st')
        /\ id j = QC.generateJobId now rnd
        /\ attempts j = 0).
Proof.
  split.
  - intros now st j st' H. unfold QC.next in H.
    destruct (QC.select now st) as [m|] eqn:Hsel; [|discriminate].
    exists m. split; [reflexivity|].
    destruct (truthy (QC.getJob now m st)) eqn:Ht.
    + destruct (claim_truthy now m st Ht) as (st2 & Hc & Hs & _).
      rewrite Hc in H. injection H as Hj ->.
      rewrite (getJob_ext now m st' st Hs). auto.
    + destruct (claim_dangling now m st Ht) as (st2 & Hc & _).
      rewrite Hc in H. discriminate.
  - intros now now' rnd type data o st Hsel.
    destruct (add_spec now rnd type data o st) as (st1 & Hadd & Hstrs & _).
    rewrite Hadd in *. simpl in *.
    assert (Hj : QC.getJob now' (QC.generateJobId now rnd) st1
                 = JJob (added_job now rnd type data o)).
    { eapply getJob_lookup; [rewrite Hstrs; apply lookup_insert_eq|reflexivity]. }
    destruct (claim_found now' _ st1 _ Hj) as (st2 & Hc & _).
    exists (added_job now rnd type data o), st2.
    unfold QC.next. rewrite Hsel, Hc. auto.
Qed.

Lemma next_returns_stored_record_witness :
  let st := snd (QC.add 1000 "x" "email" "{}" QC.no_options Store.empty) in
  (exists m, QC.select 1005 st = Some m
             /\ QC.getJob 1005 m st = JJob (added_job 1000 "x" "email" "{}" QC.no_options)
             /\ QC.getJob 1005 m (snd (QC.next 1005 st))
                = JJob (added_job 1000 "x" "email" "{}" QC.no_options)
             /\ Store.strs (snd (QC.next 1005 st)) = Store.strs st)
  /\ (exists j st', QC.next 1005 st = (JJob j, st')
                    /\ id j = QC.generateJobId 1000 "x" /\ attempts j = 0).
Proof.
  intros st. destruct next_returns_stored_record as [H1 H2]. split.
  - apply H1. vm_compute. reflexivity.
  - apply (H2 1000 1005 "x" "email" "{}" QC.no_options Store.empty).
    vm_compute. reflexivity.
Defined.

(** ** C2: a removal that removes nothing *)

(** C2, as stated, fails.  Two workers run the query of [next] on the
    same store and both pick the id "1000-x"; the first one claims it;
    for the second one the removal from pending then reports zero, and
    it is handed the very same job. *)
Lemma next_lost_race_counterexample :
  ~ (forall (now : Z) (m : string) (st : Store.store) (j : Job),
       fst (Namespaced.zrem QC.ns "pending" [m] st) = 0 ->
       QC.getJob now m st = JJob j ->
       fst (QC.claim now m st) <> JJob j).
Proof.
  intros H.
  set (st0 := snd (QC.add 1000 "x" "email" "{}" QC.no_options Store.empty)).
  assert (Hsel : QC.select 1005 st0 = Some "1000-x") by (vm_compute; reflexivity).
  set (st1 := snd (QC.claim 1005 "1000-x" st0)).
  assert (HA : fst (QC.claim 1005 "1000-x" st0)
               = JJob (added_job 1000 "x" "email" "{}" QC.no_options))
    by (vm_compute; reflexivity).
  apply (H 1005 "1000-x" st1 (added_job 1000 "x" "email" "{}" QC.no_options));
    vm_compute; reflexivity.
Qed.

(** C2 (amended): [next] takes no notice of the count that the removal
    reports.  Whenever the record of the selected id exists, the second
    half of [next] records the id in processing and returns the job,
    whether or not the removal found the id in pending; what it does
    ensure is that the id is no longer pending afterwards, so a [next]
    that starts after this one has finished can not select it again. *)
Theorem claim_ignores_removal_count :
  forall (now : Z) (m : string) (st : Store.store) (j : Job),
    QC.getJob now m st = JJob j ->
    exists st', QC.claim now m st = (JJob j, st')
      /\ QC.processing_of st' !! m = Some now
      /\ QC.pending_of st' !! m = None
      /\ forall now', QC.select now' st' <> Some m.
Proof.
  intros now m st j Hj.
  destruct (claim_found now m st j Hj) as (st' & Hc & _ & _ & Hp & Hr).
  exists st'. split; [exact Hc|]. split; [rewrite Hr; apply lookup_insert_eq|].
  assert (Hnone : QC.pending_of st' !! m = None) by (rewrite Hp; apply lookup_delete_eq).
  split; [exact Hnone|]. intros now' Hsel.
  destruct (select_Some _ _ _ Hsel) as (s & Hs & _). congruence.
Qed.

Lemma claim_ignores_removal_count_witness :
  let st1 := snd (QC.claim 1005 "1000-x"
                    (snd (QC.add 1000 "x" "email" "{}" QC.no_options Store.empty))) in
  fst (Namespaced.zrem QC.ns "pending" ["1000-x"] st1) = 0
  /\ exists st', QC.claim 1006 "1000-x" st1
                 = (JJob (added_job 1000 "x" "email" "{}" QC.no_options), st')
      /\ QC.processing_of st' !! "1000-x" = Some 1006
      /\ QC.pending_of st' !! "1000-x" = None
      /\ forall now', QC.select now' st' <> Some "1000-x".
Proof.
  intros st1. split; [vm_compute; reflexivity|].
  apply claim_ignores_removal_count. vm_compute. reflexivity.
Defined.

(** ** C10: a pending entry without a job record *)

(** C10: when the id that [next] selects has no job record, [next]
    returns null, the id is gone from both the pending and the
    processing container, every other entry of the two containers is as
    before (no other eligible job is claimed in its place) and no record
    is written. *)
Theorem next_dangling_entry :
  forall (now : Z) (m : string) (st : Store.store),
    QC.select now st = Some m ->
    QC.getJob now m st = JNull ->
    exists st', QC.next now st = (JNull, st')
      /\ QC.pending_of st' !! m = None
      /\ QC.processing_of st' !! m = None
      /\ (forall m', m' <> m ->
            QC.pending_of st' !! m' = QC.pending_of st !! m'
            /\ QC.processing_of st' !! m' = QC.processing_of st !! m')
      /\ Store.strs st' = Store.strs st.
Proof.
  intros now m st Hsel Hj.
  assert (Ht : truthy (QC.getJob now m st) = false) by now rewrite Hj.
  destruct (claim_dangling now m st Ht) as (st' & Hc & Hs & _ & Hp & Hr).
  exists st'. unfold QC.next. rewrite Hsel. split; [exact Hc|].
  rewrite Hp, Hr. split; [apply lookup_delete_eq|]. split; [apply lookup_delete_eq|].
  split; [|exact Hs].
  intros m' Hne. split; apply lookup_delete_ne; congruence.
Qed.

Lemma next_dangling_entry_witness :
  let st := snd (Namespaced.zadd QC.ns "pending" [(5, "ghost")]
                   (snd (QC.add 1000 "x" "email" "{}" QC.no_options Store.empty))) in
  QC.pending_of st !! "1000-x" = Some 1005
  /\ exists st', QC.next 2000 st = (JNull, st')
      /\ QC.pending_of st' !! "ghost" = None
      /\ QC.processing_of st' !! "ghost" = None
      /\ (forall m', m' <> "ghost" ->
            QC.pending_of st' !! m' = QC.pending_of st !! m'
            /\ QC.processing_of st' !! m' = QC.processing_of st !! m')
      /\ Store.strs st' = Store.strs st.
Proof.
  intros st. split; [vm_compute; reflexivity|].
  apply next_dangling_entry; vm_compute; reflexivity.
Defined.

(** ** C7: eligibility and priority order *)




(** ** C6: retry with backoff *)




(** ** C5: the fixed window *)

Section FixedWindow.
Variable secs : Z -> Z.
Variable identifier : string.
Variable maxRequests windowSeconds : Z.

Lemma check_first (now : Z) (st : Store.store) :
  0 < windowSeconds ->
  Store.entry now (fixed_key identifier) st = None ->
  exists r st',
    RL.checkFixedWindow secs now identifier maxRequests windowSeconds st = Ok (r, st')
    /\ fixed_result maxRequests 1 (secs (now + windowSeconds * 1000 - now)) r
    /\ Store.strs st' !! fixed_key identifier
       = Some (Json (JNum 1), Some (now + windowSeconds * 1000)).
Proof.
  intros Hw He. unfold RL.checkFixedWindow, Namespaced.incr, Store.incr.
  fold (fixed_key identifier). rewrite He. simpl rbind. change (1 =? 1) with true. cbv iota.
  unfold Namespaced.expire. fold (fixed_key identifier).
  set (st1 := Store.put (fixed_key identifier) (Json (JNum 1), None) st).
  assert (He1 : Store.entry now (fixed_key identifier) st1 = Some (Json (JNum 1), None)).
  { unfold st1. rewrite entry_put.
    destruct (decide (fixed_key identifier = fixed_key identifier)) as [_|?];
      [reflexivity|contradiction]. }
  destruct (expire_entry now _ windowSeconds st1 _ _ He1 Hw) as [_ Hs].
  set (st2 := snd (Store.expire now (fixed_key identifier) windowSeconds st1)) in *.
  assert (Hk : Store.strs st2 !! fixed_key identifier
               = Some (Json (JNum 1), Some (now + windowSeconds * 1000)))
    by (rewrite Hs; apply lookup_insert_eq).
  unfold Namespaced.ttl, Store.ttl. fold (fixed_key identifier).
  assert (He2 : Store.entry now (fixed_key identifier) st2
                = Some (Json (JNum 1), Some (now + windowSeconds * 1000))).
  { unfold Store.entry. rewrite Hk. unfold Store.live. cbn [snd].
    assert (E : (now <? now + windowSeconds * 1000) = true) by (apply Z.ltb_lt; lia).
    now rewrite E. }
  rewrite He2. eexists _, _. split; [reflexivity|]. split.
  - unfold fixed_result. cbn [RL.allowed RL.remaining RL.retryAfter]. auto.
  - exact Hk.
Qed.

Lemma check_later (now c E : Z) (st : Store.store) :
  Store.strs st !! fixed_key identifier = Some (Json (JNum c), Some E) ->
  1 <= c -> now < E ->
  exists r st',
    RL.checkFixedWindow secs now identifier maxRequests windowSeconds st = Ok (r, st')
    /\ fixed_result maxRequests (c + 1) (secs (E - now)) r
    /\ Store.strs st' !! fixed_key identifier = Some (Json (JNum (c + 1)), Some E).
Proof.
  intros Hk Hc Ht. unfold RL.checkFixedWindow, Namespaced.incr, Store.incr.
  fold (fixed_key identifier).
  assert (Hl : forall n, Store.live now (Json (JNum n), Some E) = true).
  { intros n. unfold Store.live. simpl. now apply Z.ltb_lt. }
  unfold Store.entry at 1. rewrite Hk, Hl. simpl rbind.
  destruct (c + 1 =? 1) eqn:E1; [apply Z.eqb_eq in E1; lia|].
  unfold Namespaced.ttl, Store.ttl. fold (fixed_key identifier). rewrite entry_put.
  destruct (decide (fixed_key identifier = fixed_key identifier)) as [_|?]; [|contradiction].
  rewrite Hl. eexists _, _. split; [reflexivity|]. split.
  - unfold fixed_result. cbn [RL.allowed RL.remaining RL.retryAfter]. auto.
  - simpl. apply lookup_insert_eq.
Qed.

Lemma checks_later (E : Z) (rest : list Z) :
  forall (c : Z) (st : Store.store),
    Store.strs st !! fixed_key identifier = Some (Json (JNum c), Some E) ->
    1 <= c -> Forall (fun t => t < E) rest ->
    exists rs st',
      RL.checks secs rest identifier maxRequests windowSeconds st = Ok (rs, st')
      /\ length rs = length rest
      /\ Store.strs st' !! fixed_key identifier
         = Some (Json (JNum (c + Z.of_nat (length rest))), Some E)
      /\ forall (i : nat) r t, rs !! i = Some r -> rest !! i = Some t ->
           fixed_result maxRequests (c + Z.of_nat i + 1) (secs (E - t)) r.
Proof.
  induction rest as [|t rest IH]; intros c st Hk Hc Hall.
  - exists [], st. split; [reflexivity|]. split; [reflexivity|].
    split; [simpl; now rewrite Z.add_0_r|].
    intros i r t Hi. rewrite lookup_nil in Hi. discriminate.
  - apply Forall_cons in Hall as [Ht Hall].
    destruct (check_later t c E st Hk Hc Ht) as (r & st1 & Hr & Hok & Hk1).
    destruct (IH (c + 1) st1 Hk1 ltac:(lia) Hall)
      as (rs & st2 & Hrs & Hlen & Hfin & Hall').
    exists (r :: rs), st2. split; [|split; [|split]].
    + cbn [RL.checks]. unfold RL.check. cbn [RL.algorithm RL.no_options default].
      rewrite Hr. cbn [rbind]. rewrite Hrs. reflexivity.
    + simpl. now rewrite Hlen.
    + replace (c + Z.of_nat (length (t :: rest))) with (c + 1 + Z.of_nat (length rest))
        by (simpl length; lia).
      exact Hfin.
    + intros [|i] r' t' Hi Ht'; simpl in Hi, Ht'.
      * injection Hi as <-. injection Ht' as <-.
        now replace (c + Z.of_nat 0 + 1) with (c + 1) by lia.
      * specialize (Hall' i r' t' Hi Ht').
        now replace (c + Z.of_nat (S i) + 1) with (c + 1 + Z.of_nat i + 1) by lia.
Qed.

Lemma checks_window (t1 : Z) (rest : list Z) (st : Store.store) :
  0 < windowSeconds ->
  Store.entry t1 (fixed_key identifier) st = None ->
  Forall (fun t => t1 <= t < t1 + windowSeconds * 1000) rest ->
  exists rs st',
    RL.checks secs (t1 :: rest) identifier maxRequests windowSeconds st = Ok (rs, st')
    /\ length rs = S (length rest)
    /\ Store.strs st' !! fixed_key identifier
       = Some (Json (JNum (Z.of_nat (length rest) + 1)), Some (t1 + windowSeconds * 1000))
    /\ forall (i : nat) r t, rs !! i = Some r -> (t1 :: rest) !! i = Some t ->
         fixed_result maxRequests (Z.of_nat i + 1)
           (secs (t1 + windowSeconds * 1000 - t)) r.
Proof.
  intros Hw He Hall.
  destruct (check_first t1 st Hw He) as (r & st1 & Hr & Hok & Hk1).
  assert (Hall' : Forall (fun t => t < t1 + windowSeconds * 1000) rest).
  { eapply Forall_impl; [exact Hall|]. simpl. intros; lia. }
  destruct (checks_later _ rest 1 st1 Hk1 ltac:(lia) Hall')
    as (rs & st2 & Hrs & Hlen & Hfin & Hi).
  exists (r :: rs), st2. split; [|split; [|split]].
  - cbn [RL.checks]. unfold RL.check. cbn [RL.algorithm RL.no_options default].
    rewrite Hr. cbn [rbind]. rewrite Hrs. reflexivity.
  - simpl. now rewrite Hlen.
  - replace (Z.of_nat (length rest) + 1) with (1 + Z.of_nat (length rest)) by lia.
    exact Hfin.
  - intros [|i] r' t Hi' Ht; simpl in Hi', Ht.
    + injection Hi' as <-. injection Ht as <-. exact Hok.
    + specialize (Hi i r' t Hi' Ht).
      now replace (Z.of_nat (S i) + 1) with (1 + Z.of_nat i + 1) by lia.
Qed.

End FixedWindow.

Lemma nearest_second_pos (ms : Z) :
  0 < ms -> 0 <= nearest_second ms /\ (0 < nearest_second ms <-> 500 <= ms).
Proof.
  intros Hms. unfold nearest_second. split; [apply Z.div_pos; lia|]. split.
  - intros Hpos. destruct (Z_lt_le_dec ms 500) as [Hlt|Hge]; [|exact Hge].
    rewrite Z.div_small in Hpos by lia. lia.
  - intros Hge. apply Z.div_str_pos. lia.
Qed.

(** C5, as stated, fails in one place: [retryAfter] is the remaining
    lifetime that the store's [ttl] reports in whole seconds, and a
    store that reports to the nearest second reports 0 in the last half
    second of the window.  With [maxRequests = 1] and a window of 60
    seconds, the second check, 59999 ms after the first, is denied with
    [retryAfter = 0]. *)
Lemma fixed_window_retryAfter_counterexample :
  ~ (forall (identifier : string) (N : nat) (windowSeconds t1 : Z) (rest : list Z)
            (st : Store.store),
       0 < windowSeconds ->
       Store.entry t1 (fixed_key identifier) st = None ->
       length rest = N ->
       Forall (fun t => t1 <= t < t1 + windowSeconds * 1000) rest ->
       exists rs st',
         RL.checks nearest_second (t1 :: rest) identifier (Z.of_nat N) windowSeconds st
         = Ok (rs, st')
         /\ forall r, rs !! N = Some r ->
              RL.allowed r = false
              /\ exists x, RL.retryAfter r = Some x /\ (0 <? x)%float = true).
Proof.
  intros H.
  destruct (H "u" 1%nat 60 0 [59999] Store.empty) as (rs & st' & Hrun & Hlast).
  - lia.
  - reflexivity.
  - reflexivity.
  - repeat constructor; lia.
  - vm_compute in Hrun. injection Hrun as <- _.
    destruct (Hlast _ eq_refl) as (_ & x & Hx & Hpos).
    cbn [RL.retryAfter] in Hx. injection Hx as <-.
    vm_compute in Hpos. discriminate.
Qed.

(** C5 (amended): with the fixed-window algorithm and [maxRequests = N],
    a run of N+1 checks for one identifier that starts without a live
    counter and stays within one window of [windowSeconds] succeeds; the
    i-th check sees the counter value [count = i] after the increment
    and reports [allowed = (count <= N)] and
    [remaining = max(0, N - count)]; so the first N are allowed and the
    last is denied, with [retryAfter] the remaining lifetime of the
    window as the store reports it in seconds, whatever its rounding.
    The counter ends at N+1 with the expiry that the first check gave
    it.  With a store that reports to the nearest second, [retryAfter]
    is not negative, and positive exactly when at least 500 ms of the
    window remain. *)
Theorem fixed_window_boundary :
  (forall (secs : Z -> Z) (identifier : string) (N : nat) (windowSeconds t1 : Z)
          (rest : list Z) (st : Store.store),
      0 < windowSeconds ->
      Store.entry t1 (fixed_key identifier) st = None ->
      length rest = N ->
      Forall (fun t => t1 <= t < t1 + windowSeconds * 1000) rest ->
      exists rs st',
        RL.checks secs (t1 :: rest) identifier (Z.of_nat N) windowSeconds st
        = Ok (rs, st')
        /\ length rs = S N
        /\ Store.strs st' !! fixed_key identifier
           = Some (Json (JNum (Z.of_nat N + 1)), Some (t1 + windowSeconds * 1000))
        /\ forall (i : nat) r t, rs !! i = Some r -> (t1 :: rest) !! i = Some t ->
             RL.allowed r = (Z.of_nat i + 1 <=? Z.of_nat N)
             /\ RL.remaining r = Z.max 0 (Z.of_nat N - (Z.of_nat i + 1))
             /\ ((i < N)%nat -> RL.allowed r = true /\ RL.retryAfter r = None)
             /\ (i = N ->
                   RL.allowed r = false
                   /\ RL.retryAfter r
                      = Some (JS.of_Z (secs (t1 + windowSeconds * 1000 - t)))))
  /\
  (forall (identifier : string) (N : nat) (windowSeconds t1 : Z)
          (rest : list Z) (st : Store.store) (t : Z),
      0 < windowSeconds ->
      Store.entry t1 (fixed_key identifier) st = None ->
      length rest = N ->
      Forall (fun t => t1 <= t < t1 + windowSeconds * 1000) rest ->
      (t1 :: rest) !! N = Some t ->
      exists rs st' r ra,
        RL.checks nearest_second (t1 :: rest) identifier (Z.of_nat N) windowSeconds st
        = Ok (rs, st')
        /\ rs !! N = Some r
        /\ RL.allowed r = false
        /\ RL.retryAfter r = Some (JS.of_Z ra)
        /\ 0 <= ra
        /\ (0 < ra <-> t + 500 <= t1 + windowSeconds * 1000)).
Proof.
  assert (Hgen : forall (secs : Z -> Z) (identifier : string) (N : nat)
            (windowSeconds t1 : Z) (rest : list Z) (st : Store.store),
      0 < windowSeconds ->
      Store.entry t1 (fixed_key identifier) st = None ->
      length rest = N ->
      Forall (fun t => t1 <= t < t1 + windowSeconds * 1000) rest ->
      exists rs st',
        RL.checks secs (t1 :: rest) identifier (Z.of_nat N) windowSeconds st
        = Ok (rs, st')
        /\ length rs = S N
        /\ Store.strs st' !! fixed_key identifier
           = Some (Json (JNum (Z.of_nat N + 1)), Some (t1 + windowSeconds * 1000))
        /\ forall (i : nat) r t, rs !! i = Some r -> (t1 :: rest) !! i = Some t ->
             RL.allowed r = (Z.of_nat i + 1 <=? Z.of_nat N)
             /\ RL.remaining r = Z.max 0 (Z.of_nat N - (Z.of_nat i + 1))
             /\ ((i < N)%nat -> RL.allowed r = true /\ RL.retryAfter r = None)
             /\ (i = N ->
                   RL.allowed r = false
                   /\ RL.retryAfter r
                      = Some (JS.of_Z (secs (t1 + windowSeconds * 1000 - t))))).
  2: { split; [exact Hgen|].
       intros identifier N w t1 rest st t Hw He Hlen Hall Ht.
       destruct (Hgen nearest_second identifier N w t1 rest st Hw He Hlen Hall)
         as (rs & st' & Hrun & Hl & _ & Hok).
       assert (Hr : is_Some (rs !! N)) by (apply lookup_lt_is_Some; lia).
       destruct Hr as [r Hr].
       destruct (Hok N r t Hr Ht) as (_ & _ & _ & Hlast).
       destruct (Hlast eq_refl) as [Ha Hra].
       assert (Hin : t1 <= t < t1 + w * 1000).
       { destruct N as [|n]; cbn in Ht.
         - injection Ht as <-. lia.
         - apply list_elem_of_lookup_2 in Ht.
           rewrite Forall_forall in Hall. now apply Hall. }
       destruct (nearest_second_pos (t1 + w * 1000 - t) ltac:(lia)) as [H0 H1].
       exists rs, st', r, (nearest_second (t1 + w * 1000 - t)).
       split; [exact Hrun|]. split; [exact Hr|]. split; [exact Ha|].
       split; [exact Hra|]. split; [exact H0|].
       rewrite H1. lia. }
  - intros secs identifier N w t1 rest st Hw He Hlen Hall.
    destruct (checks_window secs identifier (Z.of_nat N) w t1 rest st Hw He Hall)
      as (rs & st' & Hrun & Hl & Hfin & Hok).
    exists rs, st'. split; [exact Hrun|]. split; [now rewrite Hl, Hlen|].
    split; [now rewrite Hfin, Hlen|].
    intros i r t Hi Ht. destruct (Hok i r t Hi Ht) as (Ha & Hr & Hra).
    split; [exact Ha|]. split; [exact Hr|]. split.
    + intros Hlt. assert (E : (Z.of_nat i + 1 <=? Z.of_nat N) = true)
        by (apply Z.leb_le; lia).
      rewrite E in Ha, Hra. auto.
    + intros ->. assert (E : (Z.of_nat N + 1 <=? Z.of_nat N) = false)
        by (apply Z.leb_gt; lia).
      rewrite E in Ha, Hra. auto.
Qed.

Lemma fixed_window_boundary_witness :
  (exists rs st',
     RL.checks nearest_second [0; 10; 20; 59999] "user-123" 3 60 Store.empty
     = Ok (rs, st')
     /\ length rs = 4%nat
     /\ Store.strs st' !! fixed_key "user-123"
        = Some (Json (JNum (3 + 1)), Some (0 + 60 * 1000))
     /\ forall (i : nat) r t, rs !! i = Some r -> [0; 10; 20; 59999] !! i = Some t ->
          RL.allowed r = (Z.of_nat i + 1 <=? 3)
          /\ RL.remaining r = Z.max 0 (3 - (Z.of_nat i + 1))
          /\ ((i < 3)%nat -> RL.allowed r = true /\ RL.retryAfter r = None)
          /\ (i = 3%nat ->
                RL.allowed r = false
                /\ RL.retryAfter r = Some (JS.of_Z (nearest_second (0 + 60 * 1000 - t)))))
  /\ (exists rs st' r ra,
        RL.checks nearest_second [0; 10; 20; 59999] "user-123" 3 60 Store.empty
        = Ok (rs, st')
        /\ rs !! 3%nat = Some r
        /\ RL.allowed r = false
        /\ RL.retryAfter r = Some (JS.of_Z ra)
        /\ 0 <= ra
        /\ (0 < ra <-> 59999 + 500 <= 0 + 60 * 1000)).
Proof.
  destruct fixed_window_boundary as [H1 H2]. split.
  - apply (H1 nearest_second "user-123" 3%nat 60 0 [10; 20; 59999] Store.empty).
    + lia.
    + reflexivity.
    + reflexivity.
    + repeat constructor; lia.
  - apply (H2 "user-123" 3%nat 60 0 [10; 20; 59999] Store.empty 59999).
    + lia.
    + reflexivity.
    + reflexivity.
    + repeat constructor; lia.
    + reflexivity.
Defined.

(** ** C4: resetting one algorithm *)

Lemma bucket_key_ne (identifier : string) :
  Namespaced.addPrefix RL.namespace
    (RL.algorithm_name RL.token_bucket +:+ ":" +:+ identifier)
  <> Namespaced.addPrefix RL.namespace ("bucket:" +:+ identifier).
Proof.
  unfold Namespaced.addPrefix. intros H. apply (inj (String.app _)) in H.
  simpl RL.algorithm_name in H. rewrite !app_cons in H. discriminate H.
Qed.

(** C4 fails for the token bucket: [reset(id, "token-bucket")] deletes
    the key [token-bucket:id], while the bucket lives under [bucket:id]
    (the key that [reset(id)] without an algorithm deletes).  The stored
    bucket is therefore read back unchanged after the reset; with
    capacity 1, a check that follows the reset at once is denied, where
    a check that follows [reset(id)] is allowed again. *)
Theorem reset_token_bucket_keeps_record :
  (forall (now now' : Z) (identifier : string) (st : Store.store),
      Namespaced.get RL.namespace now' ("bucket:" +:+ identifier)
        (RL.reset now identifier (Some RL.token_bucket) st)
      = Namespaced.get RL.namespace now' ("bucket:" +:+ identifier) st)
  /\
  (let secs := fun ms => (ms + 999) / 1000 in
   let o := RL.mkOptions (Some RL.token_bucket) None None in
   match RL.check secs 0 "" "u" 1 60 o Store.empty with
   | Ok (r1, st1) =>
       RL.allowed r1 = true
       /\ outcome (RL.check secs 0 "" "u" 1 60 o
                     (RL.reset 0 "u" (Some RL.token_bucket) st1)) = Some false
       /\ outcome (RL.check secs 0 "" "u" 1 60 o (RL.reset 0 "u" None st1)) = Some true
   | Err _ => False
   end).
Proof.
  split.
  - intros now now' identifier st. unfold RL.reset. cbn [foldl].
    unfold Namespaced.del, Namespaced.get, Store.get, Store.entry. simpl.
    rewrite lookup_delete_ne; [reflexivity|apply bucket_key_ne].
  - vm_compute. repeat split; reflexivity.
Qed.

(** ** C9: where the hit and miss counters live *)

Lemma counter_of_counter_at (now : Z) (k : string) (st : Store.store) (n : Z) :
  counter_at k st n -> CC.counter now k st = Some n.
Proof.
  unfold CC.counter, Store.get, Store.entry.
  intros [[-> ->]| ->]; reflexivity.
Qed.

Lemma incr_counter_at (now : Z) (k : string) (st : Store.store) (n : Z) :
  counter_at k st n ->
  exists st', Store.incr now k st = Ok (n + 1, st')
    /\ Store.strs st' = <[k := (Json (JNum (n + 1)), None)]> (Store.strs st)
    /\ Store.zsets st' = Store.zsets st /\ Store.sets st' = Store.sets st.
Proof.
  unfold Store.incr, Store.entry.
  intros [[-> ->]| ->]; simpl; eexists; repeat split; reflexivity.
Qed.

Lemma counter_at_insert (k k' : string) (e : text * option Z)
    (st st' : Store.store) (n : Z) :
  Store.strs st' = <[k := e]> (Store.strs st) -> k <> k' ->
  counter_at k' st n -> counter_at k' st' n.
Proof.
  intros Hs Hne. unfold counter_at. now rewrite Hs, lookup_insert_ne.
Qed.

Lemma counter_at_incr (k : string) (st st' : Store.store) (n : Z) :
  Store.strs st' = <[k := (Json (JNum n), None)]> (Store.strs st) ->
  counter_at k st' n.
Proof. intros Hs. right. rewrite Hs. apply lookup_insert_eq. Qed.

Lemma hits_ne_misses : CC.hitsKey <> CC.missesKey.
Proof. intros H. vm_compute in H. discriminate H. Qed.

(** C9, as stated, fails: the counters are kept under the fixed keys
    [cache:stats:hits] and [cache:stats:misses], which do not depend on
    the namespace.  A miss through the instance with namespace "a" shows
    up in the statistics of the instance with namespace "b". *)
Lemma cache_stats_scope_counterexample :
  ~ (forall (nsA nsB key : string) (now : Z) (st st' : Store.store) (v : json),
       nsA <> nsB ->
       CC.get nsA now key st = Ok (v, st') ->
       CC.misses (CC.getStats nsB now st') = CC.misses (CC.getStats nsB now st)).
Proof.
  intros H.
  specialize (H "a" "b" "k" 0 Store.empty
                (store_of (CC.get "a" 0 "k" Store.empty)) JNull).
  assert (Hne : "a" <> "b") by discriminate.
  assert (Hget : CC.get "a" 0 "k" Store.empty
                 = Ok (JNull, store_of (CC.get "a" 0 "k" Store.empty)))
    by (vm_compute; reflexivity).
  specialize (H Hne Hget). vm_compute in H. discriminate H.
Qed.

Lemma json_null_or (d : json) : d = JNull \/ d <> JNull.
Proof. destruct d; [left; reflexivity|right; discriminate..]. Qed.

Lemma getStats_counters (ns : string) (now : Z) (st : Store.store) (h m : Z) :
  counter_at CC.hitsKey st h -> counter_at CC.missesKey st m ->
  CC.hits (CC.getStats ns now st) = Some h
  /\ CC.misses (CC.getStats ns now st) = Some m
  /\ CC.hitRate (CC.getStats ns now st) = CC.round2 (hit_rate h m).
Proof.
  intros Hh Hm. unfold CC.getStats. cbn [CC.hits CC.misses CC.hitRate].
  rewrite (counter_of_counter_at now _ st h Hh), (counter_of_counter_at now _ st m Hm).
  repeat split; reflexivity.
Qed.

Lemma get_miss (ns key : string) (now : Z) (st : Store.store) (m : Z) :
  Store.getJSON now (CC.getKey ns key) st = JNull ->
  counter_at CC.missesKey st m ->
  exists st', CC.get ns now key st = Ok (JNull, st')
    /\ Store.strs st' = <[CC.missesKey := (Json (JNum (m + 1)), None)]> (Store.strs st).
Proof.
  intros Hg Hm. unfold CC.get, CC.incrementMisses. rewrite Hg.
  destruct (incr_counter_at now _ st m Hm) as (st' & -> & Hs & _).
  exists st'. split; [reflexivity|exact Hs].
Qed.

Lemma get_hit (ns key : string) (now : Z) (st : Store.store) (h : Z) :
  Store.getJSON now (CC.getKey ns key) st <> JNull ->
  counter_at CC.hitsKey st h ->
  exists st', CC.get ns now key st = Ok (Store.getJSON now (CC.getKey ns key) st, st')
    /\ Store.strs st' = <[CC.hitsKey := (Json (JNum (h + 1)), None)]> (Store.strs st).
Proof.
  intros Hg Hh. unfold CC.get, CC.incrementHits.
  destruct (incr_counter_at now _ st h Hh) as (st' & -> & Hs & _).
  exists st'. split; [|exact Hs].
  destruct (Store.getJSON now (CC.getKey ns key) st); [contradiction|reflexivity..].
Qed.

(** C9 (amended): the hit and miss counters are shared by every
    CacheController over the same store, whatever its namespace: two
    instances always report the same hits, misses and hit rate, and a
    [get] through one instance raises the misses (on a miss) or the hits
    (on a hit) that any other instance reports by one. *)
Theorem cache_stats_shared :
  (forall (nsA nsB : string) (now : Z) (st : Store.store),
      CC.hits (CC.getStats nsA now st) = CC.hits (CC.getStats nsB now st)
      /\ CC.misses (CC.getStats nsA now st) = CC.misses (CC.getStats nsB now st)
      /\ CC.hitRate (CC.getStats nsA now st) = CC.hitRate (CC.getStats nsB now st))
  /\
  (forall (nsA nsB key : string) (now : Z) (st : Store.store) (h m : Z),
      counter_at CC.hitsKey st h -> counter_at CC.missesKey st m ->
      exists v st', CC.get nsA now key st = Ok (v, st')
        /\ (v = JNull ->
              CC.hits (CC.getStats nsB now st') = Some h
              /\ CC.misses (CC.getStats nsB now st') = Some (m + 1))
        /\ (v <> JNull ->
              CC.hits (CC.getStats nsB now st') = Some (h + 1)
              /\ CC.misses (CC.getStats nsB now st') = Some m)).
Proof.
  split.
  - intros nsA nsB now st. repeat split; reflexivity.
  - intros nsA nsB key now st h m Hh Hm.
    destruct (json_null_or (Store.getJSON now (CC.getKey nsA key) st)) as [Hg|Hg].
    + destruct (get_miss nsA key now st m Hg Hm) as (st' & Hget & Hs).
      exists JNull, st'. split; [exact Hget|]. split; [|congruence]. intros _.
      assert (Hh' : counter_at CC.hitsKey st' h).
      { eapply counter_at_insert; [exact Hs| |exact Hh].
        intros E. symmetry in E. now apply hits_ne_misses. }
      pose proof (counter_at_incr _ st st' _ Hs) as Hm'.
      destruct (getStats_counters nsB now st' _ _ Hh' Hm') as (H1 & H2 & _). auto.
    + destruct (get_hit nsA key now st h Hg Hh) as (st' & Hget & Hs).
      exists (Store.getJSON now (CC.getKey nsA key) st), st'.
      split; [exact Hget|]. split; [congruence|]. intros _.
      assert (Hm' : counter_at CC.missesKey st' m).
      { eapply counter_at_insert; [exact Hs|apply hits_ne_misses|exact Hm]. }
      pose proof (counter_at_incr _ st st' _ Hs) as Hh'.
      destruct (getStats_counters nsB now st' _ _ Hh' Hm') as (H1 & H2 & _). auto.
Qed.

Lemma cache_stats_shared_witness :
  exists v st', CC.get "a" 0 "k" Store.empty = Ok (v, st')
    /\ (v = JNull ->
          CC.hits (CC.getStats "b" 0 st') = Some 0
          /\ CC.misses (CC.getStats "b" 0 st') = Some (0 + 1))
    /\ (v <> JNull ->
          CC.hits (CC.getStats "b" 0 st') = Some (0 + 1)
          /\ CC.misses (CC.getStats "b" 0 st') = Some 0).
Proof.
  destruct cache_stats_shared as [_ H].
  apply (H "a" "b" "k" 0 Store.empty 0 0); left; split; reflexivity.
Defined.

(** ** C8: hit and miss accounting of [getOrSet] *)


Lemma getOrSet_miss {L} (ns key : string) (loader : L -> json * L) (ttl now : Z)
    (st : Store.store) (src : CC.source L) (m : Z) (d : json) (l' : L) :
  Store.getJSON now (CC.getKey ns key) st = JNull ->
  counter_at CC.missesKey st m ->
  loader (CC.lstate src) = (d, l') ->
  exists st',
    CC.getOrSet ns now key loader ttl st src
    = Ok (d, st', CC.mkSource l' (S (CC.calls src)))
    /\ Store.strs st'
       = <[CC.getKey ns key := (Json d, Some (now + ttl * 1000))]>
           (<[CC.missesKey := (Json (JNum (m + 1)), None)]> (Store.strs st)).
Proof.
  intros Hg Hm Hl. unfold CC.getOrSet, CC.incrementMisses, CC.invoke. rewrite Hg, Hl.
  destruct (incr_counter_at now _ st m Hm) as (st1 & -> & Hs & _).
  eexists. split; [reflexivity|].
  unfold Store.setJSON, Store.set, Store.put. simpl. now rewrite Hs.
Qed.





(** * Further properties of the code *)

(** ** The namespace prefix *)

Lemma endsWith_app (s t : string) : endsWith (s +:+ t) t = true.
Proof.
  induction s as [|a s IH].
  - rewrite app_nil_l. destruct t; cbn [endsWith]; now rewrite String.eqb_refl.
  - rewrite app_cons. cbn [endsWith]. rewrite IH. apply orb_true_r.
Qed.

Lemma prefix_ends (ns : string) : endsWith (Namespaced.prefix ns) ":" = true.
Proof.
  unfold Namespaced.prefix. destruct (endsWith ns ":") eqn:E; [exact E|].
  apply endsWith_app.
Qed.

(** The prefix always ends in a colon and building it is idempotent: a
    namespace and its prefix (["a"] and ["a:"]) address the same keys. *)
Theorem prefix_idempotent :
  forall ns : string,
    endsWith (Namespaced.prefix ns) ":" = true
    /\ Namespaced.prefix (Namespaced.prefix ns) = Namespaced.prefix ns
    /\ forall key, Namespaced.addPrefix (Namespaced.prefix ns) key
                   = Namespaced.addPrefix ns key.
Proof.
  intros ns. pose proof (prefix_ends ns) as He.
  assert (Hi : Namespaced.prefix (Namespaced.prefix ns) = Namespaced.prefix ns).
  { unfold Namespaced.prefix at 1. now rewrite He. }
  split; [exact He|]. split; [exact Hi|].
  intros key. unfold Namespaced.addPrefix. now rewrite Hi.
Qed.

Lemma slice_app (p k : string) : slice (String.length p) (p +:+ k) = k.
Proof.
  induction p as [|a p IH]; [reflexivity|].
  rewrite app_cons. simpl. exact IH.
Qed.

Lemma removePrefix_app (ns key : string) :
  Namespaced.removePrefix ns (Namespaced.addPrefix ns key) = key.
Proof.
  unfold Namespaced.removePrefix, Namespaced.addPrefix.
  rewrite prefix_app. apply slice_app.
Qed.

(** Stripping the prefix undoes adding it, for every namespace and key:
    also when the key itself starts with the prefix, of which only the
    one copy that was added is stripped. *)
Theorem removePrefix_addPrefix :
  forall ns key : string,
    Namespaced.removePrefix ns (Namespaced.addPrefix ns key) = key
    /\ Namespaced.removePrefix ns
         (Namespaced.addPrefix ns (Namespaced.addPrefix ns key))
       = Namespaced.addPrefix ns key.
Proof.
  intros ns key. split; apply removePrefix_app.
Qed.

(** ** Key enumeration *)

Lemma list_ascii_app (s t : string) :
  list_ascii_of_string (s +:+ t) = list_ascii_of_string s ++ list_ascii_of_string t.
Proof.
  induction s as [|a s IH]; [reflexivity|].
  rewrite app_cons. simpl. now rewrite IH.
Qed.

Lemma glob_star_cons (p s : list ascii) :
  glob ("*"%char :: p) s
  = glob p s || match s with [] => false | _ :: s' => glob ("*"%char :: p) s' end.
Proof. destruct s; reflexivity. Qed.

Lemma glob_cons_other (c d : ascii) (p s : list ascii) :
  Ascii.eqb c "*" = false ->
  glob (c :: p) (d :: s) = (Ascii.eqb c "?" || Ascii.eqb c d) && glob p s.
Proof. intros E. simpl. now rewrite E. Qed.

Lemma glob_star_all (s : list ascii) : glob ["*"%char] s = true.
Proof.
  induction s as [|c s IH]; [reflexivity|].
  rewrite glob_star_cons. rewrite IH. apply orb_true_r.
Qed.

(** A pattern made of a text followed by [*] matches every key that
    starts with that text, whatever characters the text contains. *)
Lemma glob_prefix_star (l s : list ascii) : glob (l ++ ["*"%char]) (l ++ s) = true.
Proof.
  induction l as [|c l IH]; [apply glob_star_all|].
  destruct (Ascii.eqb c "*") eqn:E.
  - apply Ascii.eqb_eq in E as ->. cbn [app].
    rewrite glob_star_cons. apply orb_true_iff. right.
    rewrite glob_star_cons. apply orb_true_iff. left. exact IH.
  - cbn [app]. rewrite (glob_cons_other _ _ _ _ E), IH, Ascii.eqb_refl.
    now rewrite orb_true_r.
Qed.

Lemma glob_match_prefix_star (p k : string) : glob_match (p +:+ "*") (p +:+ k) = true.
Proof.
  unfold glob_match. rewrite !list_ascii_app. apply glob_prefix_star.
Qed.

Lemma entry_is_Some (now : Z) (k : string) (st : Store.store) :
  is_Some (Store.entry now k st)
  <-> exists e, Store.strs st !! k = Some e /\ Store.live now e = true.
Proof.
  unfold Store.entry. destruct (Store.strs st !! k) as [e|].
  - destruct (Store.live now e) eqn:E; split.
    + intros _. eauto.
    + intros _. eauto.
    + intros [x Hx]. discriminate.
    + intros (e' & [= <-] & He). congruence.
  - split; [intros [x Hx]; discriminate|intros (e & He & _); discriminate].
Qed.

Lemma elem_of_scanAll (now : Z) (pattern k : string) (st : Store.store) :
  k ∈ Store.scanAll now pattern st
  <-> glob_match pattern k = true
      /\ (is_Some (Store.entry now k st)
          \/ Store.zlive now k st = true
          \/ Store.slive now k st = true).
Proof.
  unfold Store.scanAll.
  rewrite list_elem_of_In, filter_In, <- list_elem_of_In, elem_of_elements.
  rewrite !elem_of_union, !elem_of_dom, entry_is_Some.
  assert (Hf : is_Some (filter (fun kv : string * (text * option Z) =>
                                  Store.live now kv.2 = true) (Store.strs st) !! k)
               <-> exists e, Store.strs st !! k = Some e /\ Store.live now e = true).
  { split.
    - intros [e He]. apply map_lookup_filter_Some in He. eauto.
    - intros (e & He & Hl). exists e. now apply map_lookup_filter_Some. }
  assert (Hz : is_Some (filter (fun kv : string * gmap string Z =>
                                  Store.alive now (Store.zexp st !! kv.1) = true)
                               (Store.zsets st) !! k)
               <-> Store.zlive now k st = true).
  { unfold Store.zlive. rewrite andb_true_iff, bool_decide_eq_true. split.
    - intros [z Hl]. apply map_lookup_filter_Some in Hl as [Hl Ha]. eauto.
    - intros [[z Hl] Ha]. exists z. now apply map_lookup_filter_Some. }
  assert (Hs : is_Some (filter (fun kv : string * gset string =>
                                  Store.alive now (Store.sexp st !! kv.1) = true)
                               (Store.sets st) !! k)
               <-> Store.slive now k st = true).
  { unfold Store.slive. rewrite andb_true_iff, bool_decide_eq_true. split.
    - intros [z Hl]. apply map_lookup_filter_Some in Hl as [Hl Ha]. eauto.
    - intros [[z Hl] Ha]. exists z. now apply map_lookup_filter_Some. }
  rewrite Hf, Hz, Hs. tauto.
Qed.

Lemma has_key_true (now : Z) (k : string) (st : Store.store) :
  Store.has_key now k st = true
  <-> is_Some (Store.entry now k st)
      \/ Store.zlive now k st = true
      \/ Store.slive now k st = true.
Proof.
  unfold Store.has_key. rewrite !orb_true_iff, !bool_decide_eq_true. tauto.
Qed.

(** Every key that exists under a namespace is listed by [scanAll("*")]
    of that namespace, in the relative form that [set] was given. *)
Theorem scanAll_lists_readable_keys :
  forall (ns : string) (now : Z) (key : string) (st : Store.store),
    is_Some (Namespaced.get ns now key st) ->
    key ∈ Namespaced.scanAll ns now "*" st.
Proof.
  intros ns now key st [v Hv]. unfold Namespaced.scanAll.
  rewrite <- (removePrefix_app ns key) at 1.
  apply list_elem_of_fmap_2. apply elem_of_scanAll. split.
  - unfold Namespaced.addPrefix. apply glob_match_prefix_star.
  - left. unfold Namespaced.get, Store.get in Hv.
    destruct (Store.entry now (Namespaced.addPrefix ns key) st); [eauto|discriminate].
Qed.

Lemma scanAll_lists_readable_keys_witness :
  "user:123" ∈ Namespaced.scanAll "myapp" 5 "*"
                 (Namespaced.set "myapp" 0 "user:123" (Plain "data") (Some 60) Store.empty).
Proof.
  apply scanAll_lists_readable_keys. vm_compute. eauto.
Defined.

(** ** Deleting keys *)

Lemma del_lookup (now : Z) (keys : list string) :
  forall (st : Store.store) (k : string),
    (k ∈ keys ->
       Store.strs (snd (Store.del now keys st)) !! k = None
       /\ Store.zsets (snd (Store.del now keys st)) !! k = None
       /\ Store.sets (snd (Store.del now keys st)) !! k = None)
    /\ (k ∉ keys ->
          Store.strs (snd (Store.del now keys st)) !! k = Store.strs st !! k
          /\ Store.zsets (snd (Store.del now keys st)) !! k = Store.zsets st !! k
          /\ Store.sets (snd (Store.del now keys st)) !! k = Store.sets st !! k).
Proof.
  induction keys as [|a keys IH]; intros st k.
  - split; [intros H; inversion H|intros _; auto].
  - cbn [Store.del]. unfold Store.del1.
    set (st1 := Store.mkStore (delete a (Store.strs st)) (delete a (Store.zsets st))
                              (delete a (Store.sets st)) (delete a (Store.zexp st))
                              (delete a (Store.sexp st))).
    destruct (Store.del now keys st1) as [m st2] eqn:E.
    assert (Hst2 : st2 = snd (Store.del now keys st1)) by now rewrite E.
    cbn [snd]. destruct (IH st1 k) as [Hin Hout]. rewrite <- Hst2 in Hin, Hout.
    destruct (decide (k ∈ keys)) as [Hk|Hk].
    + split; [intros _; now apply Hin|].
      intros Hn. exfalso. apply Hn. now right.
    + destruct (Hout Hk) as (H1 & H2 & H3). rewrite H1, H2, H3. unfold st1. simpl.
      split.
      * intros Hm. apply elem_of_cons in Hm as [->|Hm]; [|contradiction].
        now rewrite !lookup_delete_eq.
      * intros Hn. assert (a <> k) by (intros ->; apply Hn; left).
        now rewrite !lookup_delete_ne.
Qed.

(** A key that is not deleted keeps the expiry time of its containers. *)
Lemma del_lookup_exp (now : Z) (keys : list string) :
  forall (st : Store.store) (k : string),
    k ∉ keys ->
    Store.zexp (snd (Store.del now keys st)) !! k = Store.zexp st !! k
    /\ Store.sexp (snd (Store.del now keys st)) !! k = Store.sexp st !! k.
Proof.
  induction keys as [|a keys IH]; intros st k Hk; [auto|].
  cbn [Store.del]. unfold Store.del1.
  set (st1 := Store.mkStore (delete a (Store.strs st)) (delete a (Store.zsets st))
                            (delete a (Store.sets st)) (delete a (Store.zexp st))
                            (delete a (Store.sexp st))).
  destruct (Store.del now keys st1) as [m st2] eqn:E.
  assert (Hst2 : st2 = snd (Store.del now keys st1)) by now rewrite E.
  cbn [snd]. apply not_elem_of_cons in Hk as [Hne Hk].
  destruct (IH st1 k Hk) as [H1 H2]. rewrite <- Hst2 in H1, H2.
  rewrite H1, H2. unfold st1. simpl. now rewrite !lookup_delete_ne.
Qed.

Lemma has_key_lookup (now : Z) (k : string) (st st' : Store.store) :
  Store.strs st' !! k = Store.strs st !! k ->
  Store.zsets st' !! k = Store.zsets st !! k ->
  Store.sets st' !! k = Store.sets st !! k ->
  Store.zexp st' !! k = Store.zexp st !! k ->
  Store.sexp st' !! k = Store.sexp st !! k ->
  Store.has_key now k st' = Store.has_key now k st.
Proof.
  intros H1 H2 H3 H4 H5. unfold Store.has_key, Store.zlive, Store.slive, Store.entry.
  now rewrite H1, H2, H3, H4, H5.
Qed.

Lemma has_key_gone (now : Z) (k : string) (st : Store.store) :
  Store.strs st !! k = None -> Store.zsets st !! k = None ->
  Store.sets st !! k = None -> Store.has_key now k st = false.
Proof.
  intros H1 H2 H3. unfold Store.has_key, Store.zlive, Store.slive, Store.entry.
  rewrite H1, H2, H3. reflexivity.
Qed.

Lemma clearNamespace_store (now : Z) (ns : string) (st : Store.store) :
  snd (clearNamespace now ns st)
  = snd (Store.del now (Store.scanAll now (Namespaced.prefix ns +:+ "*") st) st).
Proof.
  unfold clearNamespace. fold (Namespaced.prefix ns).
  destruct (Store.scanAll now (Namespaced.prefix ns +:+ "*") st); reflexivity.
Qed.

(** After [clearNamespace] no key of the namespace exists any more,
    whatever kind of value it held, and every key that the pattern
    [prefix*] does not match is left exactly as it was. *)
Theorem clearNamespace_clears :
  forall (now : Z) (ns : string) (st : Store.store),
    let st' := snd (clearNamespace now ns st) in
    (forall key, Store.has_key now (Namespaced.addPrefix ns key) st' = false
                 /\ Namespaced.get ns now key st' = None)
    /\ (forall k, glob_match (Namespaced.prefix ns +:+ "*") k = false ->
          Store.strs st' !! k = Store.strs st !! k
          /\ Store.zsets st' !! k = Store.zsets st !! k
          /\ Store.sets st' !! k = Store.sets st !! k).
Proof.
  intros now ns st st'.
  set (keys := Store.scanAll now (Namespaced.prefix ns +:+ "*") st).
  assert (Est : st' = snd (Store.del now keys st)) by apply clearNamespace_store.
  assert (Hst' : forall k,
            (k ∈ keys -> Store.strs st' !! k = None /\ Store.zsets st' !! k = None
                         /\ Store.sets st' !! k = None)
            /\ (k ∉ keys -> Store.strs st' !! k = Store.strs st !! k
                            /\ Store.zsets st' !! k = Store.zsets st !! k
                            /\ Store.sets st' !! k = Store.sets st !! k)).
  { intros k. rewrite Est. apply del_lookup. }
  split.
  - intros key. set (K := Namespaced.addPrefix ns key).
    assert (Hg : Store.has_key now K st' = false).
    { destruct (decide (K ∈ keys)) as [Hin|Hout].
      - destruct (proj1 (Hst' K) Hin) as (H1 & H2 & H3). now apply has_key_gone.
      - destruct (proj2 (Hst' K) Hout) as (H1 & H2 & H3).
        destruct (del_lookup_exp now keys st K Hout) as [H4 H5].
        rewrite <- Est in H4, H5.
        rewrite (has_key_lookup now K st st' H1 H2 H3 H4 H5).
        destruct (Store.has_key now K st) eqn:Hh; [|reflexivity].
        exfalso. apply Hout. apply elem_of_scanAll. split.
        + apply glob_match_prefix_star.
        + now apply has_key_true. }
    split; [exact Hg|].
    unfold Namespaced.get, Store.get. fold K.
    destruct (Store.entry now K st') eqn:He; [|reflexivity].
    exfalso. assert (Store.has_key now K st' = true); [|congruence].
    apply has_key_true. left. rewrite He. eauto.
  - intros k Hk. apply (proj2 (Hst' k)). intros Hin.
    apply elem_of_scanAll in Hin as [Hm _]. congruence.
Qed.

Lemma clearNamespace_clears_witness :
  let st := Namespaced.set "auth" 0 "user:1" (Plain "a") None
              (Namespaced.set "shop" 0 "user:1" (Plain "s") None Store.empty) in
  let st' := snd (clearNamespace 5 "auth" st) in
  Namespaced.get "auth" 5 "user:1" st = Some (Plain "a")
  /\ Namespaced.get "auth" 5 "user:1" st' = None
  /\ (Store.strs st' !! "shop:user:1" = Store.strs st !! "shop:user:1"
      /\ Store.zsets st' !! "shop:user:1" = Store.zsets st !! "shop:user:1"
      /\ Store.sets st' !! "shop:user:1" = Store.sets st !! "shop:user:1").
Proof.
  intros st st'. destruct (clearNamespace_clears 5 "auth" st) as [H1 H2].
  split; [vm_compute; reflexivity|]. split.
  - apply H1.
  - apply H2. vm_compute. reflexivity.
Defined.

(** ** Queue: status, completion, cancellation and retry *)

Lemma command_ZSCORE (now : Z) (k m : string) (st : Store.store) :
  Store.command now "ZSCORE" [Store.AStr k; Store.AStr m] st
  = (match Store.zscore k m st with
     | Some s => Store.RInt s
     | None => Store.RNull
     end, st).
Proof. reflexivity. Qed.

Lemma command_SISMEMBER (now : Z) (k m : string) (st : Store.store) :
  Store.command now "SISMEMBER" [Store.AStr k; Store.AStr m] st
  = (Store.RInt (Store.sismember k m st), st).
Proof. reflexivity. Qed.

Lemma command_SADD (now : Z) (k m : string) (st : Store.store) :
  Store.command now "SADD" [Store.AStr k; Store.AStr m] st
  = (Store.RInt (fst (Store.sadd k [m] st)),
     Store.sput k (Store.sget k st ∪ {[m]}) st).
Proof.
  unfold Store.command.
  change (String.eqb "SADD" "ZRANGEBYSCORE") with false.
  change (String.eqb "SADD" "ZSCORE") with false.
  change (String.eqb "SADD" "SADD") with true. cbv iota.
  unfold Store.sadd. cbn [fst list_to_set foldr]. now rewrite (right_id_L ∅ (∪)).
Qed.

Lemma command_SREM (now : Z) (k m : string) (st : Store.store) :
  Store.command now "SREM" [Store.AStr k; Store.AStr m] st
  = (Store.RInt (fst (Store.srem k [m] st)),
     Store.sput k (Store.sget k st ∖ {[m]}) st).
Proof.
  unfold Store.command.
  change (String.eqb "SREM" "ZRANGEBYSCORE") with false.
  change (String.eqb "SREM" "ZSCORE") with false.
  change (String.eqb "SREM" "SADD") with false.
  change (String.eqb "SREM" "SREM") with true. cbv iota.
  unfold Store.srem. cbn [fst list_to_set foldr]. now rewrite (right_id_L ∅ (∪)).
Qed.

Lemma command_SCARD (now : Z) (k : string) (st : Store.store) :
  Store.command now "SCARD" [Store.AStr k] st = (Store.RInt (Store.scard k st), st).
Proof. reflexivity. Qed.

(** What [getStatus] answers, read off the four containers. *)
Lemma getStatus_views (now : Z) (m : string) (st : Store.store) :
  QC.getStatus now m st
  = match QC.pending_of st !! m with
    | Some _ => QC.pending
    | None =>
        match QC.processing_of st !! m with
        | Some _ => QC.processing
        | None =>
            if decide (m ∈ QC.completed_of st) then QC.completed
            else if decide (m ∈ QC.failed_of st) then QC.failed
            else QC.unknown
        end
    end.
Proof.
  unfold QC.getStatus, Namespaced.command.
  rewrite !command_ZSCORE, !command_SISMEMBER.
  unfold Store.zscore, Store.sismember, QC.pending_of, QC.processing_of,
    QC.completed_of, QC.failed_of.
  destruct (Store.zget (Namespaced.addPrefix QC.ns "pending") st !! m); [reflexivity|].
  destruct (Store.zget (Namespaced.addPrefix QC.ns "processing") st !! m); [reflexivity|].
  destruct (decide (m ∈ Store.sget (Namespaced.addPrefix QC.ns "completed") st));
    [reflexivity|].
  destruct (decide (m ∈ Store.sget (Namespaced.addPrefix QC.ns "failed") st));
    reflexivity.
Qed.

Lemma completed_ne_failed :
  Namespaced.addPrefix QC.ns "completed" <> Namespaced.addPrefix QC.ns "failed".
Proof. intros H. vm_compute in H. discriminate. Qed.

Lemma sget_zput (k k' : string) (z : gmap string Z) (st : Store.store) :
  Store.sget k (Store.zput k' z st) = Store.sget k st.
Proof. reflexivity. Qed.

Lemma sget_zrem (k k' m : string) (st : Store.store) :
  Store.sget k (snd (Store.zrem k' [m] st)) = Store.sget k st.
Proof. unfold Store.sget. now rewrite sets_zrem. Qed.

(** What [complete] leaves behind. *)
Lemma complete_views (now : Z) (m : string) (st : Store.store) :
  let st' := QC.complete now m st in
  QC.pending_of st' = QC.pending_of st
  /\ QC.processing_of st' = delete m (QC.processing_of st)
  /\ QC.completed_of st' = QC.completed_of st ∪ {[m]}
  /\ QC.failed_of st' = QC.failed_of st
  /\ Store.strs st'
     = if truthy (QC.getJob now m st)
       then <[Namespaced.addPrefix QC.ns (QC.job_key m)
              := (Json (QC.getJob now m st), Some (now + 86400 * 1000))]> (Store.strs st)
       else Store.strs st.
Proof.
  intros st'. subst st'. unfold QC.complete, Namespaced.zrem, Namespaced.command.
  set (P := Namespaced.addPrefix QC.ns "pending").
  set (R := Namespaced.addPrefix QC.ns "processing").
  set (C := Namespaced.addPrefix QC.ns "completed").
  set (F := Namespaced.addPrefix QC.ns "failed").
  destruct (Store.zrem R [m] st) as [n st1] eqn:E1.
  assert (Hst1 : st1 = snd (Store.zrem R [m] st)) by now rewrite E1.
  rewrite command_SADD.
  set (st2 := Store.sput C (Store.sget C st1 ∪ {[m]}) st1).
  change (Namespaced.getJSON QC.ns now (QC.job_key m) st2) with (QC.getJob now m st2).
  assert (Hs2 : Store.strs st2 = Store.strs st).
  { unfold st2. simpl. rewrite Hst1. apply strs_zrem. }
  rewrite (getJob_ext now m st2 st Hs2).
  assert (Hv : QC.pending_of st2 = QC.pending_of st
               /\ QC.processing_of st2 = delete m (QC.processing_of st)
               /\ QC.completed_of st2 = QC.completed_of st ∪ {[m]}
               /\ QC.failed_of st2 = QC.failed_of st).
  { unfold QC.pending_of, QC.processing_of, QC.completed_of, QC.failed_of.
    fold P R C F. unfold st2. rewrite !zget_sput, !sget_sput, Hst1, !zget_zrem, !sget_zrem.
    destruct (decide (R = P)) as [HRP|_];
      [exfalso; now apply pending_ne_processing|].
    destruct (decide (R = R)) as [_|?]; [|contradiction].
    destruct (decide (C = C)) as [_|?]; [|contradiction].
    destruct (decide (C = F)) as [HCF|_];
      [exfalso; now apply completed_ne_failed|].
    auto. }
  destruct (truthy (QC.getJob now m st)).
  - destruct Hv as (H1 & H2 & H3 & H4). repeat split; try assumption.
    unfold Namespaced.setJSON, Store.setJSON, Store.set, Store.put. simpl.
    now rewrite Hst1, strs_zrem.
  - destruct Hv as (H1 & H2 & H3 & H4). repeat split; assumption.
Qed.

(** The status of a job follows its way through the queue: pending
    once added, processing once [next] has returned it, completed after
    [complete] (for any id that is not pending, with or without a
    record). *)
Theorem status_lifecycle :
  (forall (now now' : Z) (rnd type data : string) (o : QC.JobOptions)
          (st : Store.store),
      QC.getStatus now' (QC.generateJobId now rnd)
        (snd (QC.add now rnd type data o st)) = QC.pending)
  /\
  (forall (now now' : Z) (m : string) (st st' : Store.store) (j : Job),
      QC.select now st = Some m ->
      QC.next now st = (JJob j, st') ->
      QC.getStatus now' m st' = QC.processing)
  /\
  (forall (now now' : Z) (m : string) (st : Store.store),
      QC.pending_of st !! m = None ->
      QC.getStatus now' m (QC.complete now m st) = QC.completed).
Proof.
  split; [|split].
  - intros now now' rnd type data o st.
    destruct (add_spec now rnd type data o st) as (st1 & Hadd & _ & _ & Hp & _).
    rewrite Hadd. cbn [snd]. rewrite getStatus_views, Hp.
    change (id (added_job now rnd type data o)) with (QC.generateJobId now rnd).
    now rewrite lookup_insert_eq.
  - intros now now' m st st' j Hsel Hnext. unfold QC.next in Hnext.
    rewrite Hsel in Hnext.
    destruct (truthy (QC.getJob now m st)) eqn:Ht.
    + destruct (claim_truthy now m st Ht) as (st2 & Hc & _ & _ & Hp & Hr).
      rewrite Hc in Hnext. injection Hnext as _ <-.
      rewrite getStatus_views, Hp, Hr, lookup_delete_eq, lookup_insert_eq. reflexivity.
    + destruct (claim_dangling now m st Ht) as (st2 & Hc & _).
      rewrite Hc in Hnext. discriminate.
  - intros now now' m st Hp.
    destruct (complete_views now m st) as (H1 & H2 & H3 & _).
    rewrite getStatus_views, H1, Hp, H2, lookup_delete_eq, H3.
    destruct (decide (m ∈ QC.completed_of st ∪ {[m]})) as [_|Hn]; [reflexivity|].
    exfalso. apply Hn. apply elem_of_union_r, elem_of_singleton. reflexivity.
Qed.

Lemma status_lifecycle_witness :
  let st := snd (QC.add 1000 "x" "email" "{}" QC.no_options Store.empty) in
  let st' := snd (QC.next 1005 st) in
  QC.getStatus 1005 "1000-x" st' = QC.processing
  /\ QC.getStatus 2000 "1000-x" (QC.complete 1500 "1000-x" st') = QC.completed.
Proof.
  intros st st'. destruct status_lifecycle as (_ & H2 & H3). split.
  - apply (H2 1005 1005 "1000-x" st st' (added_job 1000 "x" "email" "{}" QC.no_options));
      vm_compute; reflexivity.
  - apply H3. vm_compute. reflexivity.
Defined.

(** [complete] keeps the job record for 24 hours: it can be read until
    then and reads as null from then on. *)
Theorem complete_retention :
  forall (now now' : Z) (m : string) (st : Store.store) (j : Job),
    QC.getJob now m st = JJob j ->
    (now' < now + 86400 * 1000 -> QC.getJob now' m (QC.complete now m st) = JJob j)
    /\ (now + 86400 * 1000 <= now' -> QC.getJob now' m (QC.complete now m st) = JNull).
Proof.
  intros now now' m st j Hj.
  destruct (complete_views now m st) as (_ & _ & _ & _ & Hs).
  rewrite Hj in Hs. cbn [truthy] in Hs.
  unfold QC.getJob, Namespaced.getJSON, Store.getJSON, Store.get, Store.entry.
  rewrite Hs, lookup_insert_eq. unfold Store.live. cbn [snd]. split; intros Hlt.
  - apply Z.ltb_lt in Hlt. rewrite Hlt. reflexivity.
  - apply Z.ltb_ge in Hlt. rewrite Hlt. reflexivity.
Qed.

Lemma complete_retention_witness :
  let st := snd (QC.next 1005 (snd (QC.add 1000 "x" "email" "{}" QC.no_options
                                      Store.empty))) in
  QC.getJob 5000 "1000-x" (QC.complete 1500 "1000-x" st)
  = JJob (added_job 1000 "x" "email" "{}" QC.no_options)
  /\ QC.getJob (1500 + 86400 * 1000) "1000-x" (QC.complete 1500 "1000-x" st) = JNull.
Proof.
  intros st.
  destruct (complete_retention 1500 5000 "1000-x" st
              (added_job 1000 "x" "email" "{}" QC.no_options)) as [H1 _];
    [vm_compute; reflexivity|].
  destruct (complete_retention 1500 (1500 + 86400 * 1000) "1000-x" st
              (added_job 1000 "x" "email" "{}" QC.no_options)) as [_ H2];
    [vm_compute; reflexivity|].
  split; [apply H1; lia|apply H2; lia].
Defined.

Lemma job_key_ne_pending (m : string) :
  Namespaced.addPrefix QC.ns (QC.job_key m) <> Namespaced.addPrefix QC.ns "pending".
Proof.
  unfold Namespaced.addPrefix, QC.job_key. intros H.
  apply (inj (String.app _)) in H. rewrite !app_cons in H. discriminate H.
Qed.

Lemma getJob_missing (now : Z) (m : string) (st : Store.store) :
  Store.strs st !! Namespaced.addPrefix QC.ns (QC.job_key m) = None ->
  QC.getJob now m st = JNull.
Proof.
  intros H. unfold QC.getJob, Namespaced.getJSON, Store.getJSON, Store.get, Store.entry.
  now rewrite H.
Qed.

(** [cancel] works only on a pending job: then it returns true, the id
    leaves pending and the record is deleted, while other pending
    entries and other records stay; for an id that is not pending
    (claimed already, or unknown) it returns false and changes
    nothing. *)
Theorem cancel_only_pending :
  (forall (now : Z) (m : string) (st : Store.store) (s : Z),
      QC.pending_of st !! m = Some s ->
      exists st', QC.cancel now m st = (true, st')
        /\ QC.pending_of st' = delete m (QC.pending_of st)
        /\ (forall now', QC.getJob now' m st' = JNull)
        /\ (forall now' m', m' <> m -> QC.getJob now' m' st' = QC.getJob now' m' st))
  /\
  (forall (now : Z) (m : string) (st : Store.store),
      QC.pending_of st !! m = None ->
      QC.cancel now m st = (false, st)).
Proof.
  split.
  - intros now m st s Hp. unfold QC.cancel, Namespaced.zrem, Namespaced.del.
    set (P := Namespaced.addPrefix QC.ns "pending").
    unfold QC.pending_of in Hp. fold P in Hp.
    rewrite zrem_single, Hp. change (0 <? 1) with true. cbv iota.
    cbn [fmap list_fmap].
    set (K := Namespaced.addPrefix QC.ns (QC.job_key m)).
    set (st1 := Store.zput P (delete m (Store.zget P st)) st).
    destruct (Store.del now [K] st1) as [n st2] eqn:E.
    assert (Hst2 : st2 = snd (Store.del now [K] st1)) by now rewrite E.
    assert (HP : P ∉ [K]).
    { intros H. apply list_elem_of_singleton in H. symmetry in H.
      now apply job_key_ne_pending in H. }
    exists st2. split; [reflexivity|]. split; [|split].
    + unfold QC.pending_of. fold P. unfold Store.zget at 1.
      rewrite Hst2, (proj1 (proj2 (proj2 (del_lookup now [K] st1 P) HP))).
      change (default ∅ (Store.zsets st1 !! P)) with (Store.zget P st1).
      unfold st1. rewrite zget_zput.
      destruct (decide (P = P)); [reflexivity|contradiction].
    + intros now'. apply getJob_missing. rewrite Hst2. fold K.
      apply (proj1 (del_lookup now [K] st1 K)). now left.
    + intros now' m' Hne.
      unfold QC.getJob, Namespaced.getJSON, Store.getJSON, Store.get, Store.entry.
      set (K' := Namespaced.addPrefix QC.ns (QC.job_key m')).
      assert (HK' : K' ∉ [K]).
      { intros H. apply list_elem_of_singleton in H. apply job_key_inj in H. congruence. }
      rewrite Hst2, (proj1 (proj2 (del_lookup now [K] st1 K') HK')). reflexivity.
  - intros now m st Hp. unfold QC.cancel, Namespaced.zrem.
    rewrite zrem_single. unfold QC.pending_of in Hp. rewrite Hp. reflexivity.
Qed.

Lemma cancel_only_pending_witness :
  let st := snd (QC.add 1000 "x" "email" "{}" QC.no_options Store.empty) in
  (exists st', QC.cancel 1001 "1000-x" st = (true, st')
     /\ QC.pending_of st' = delete "1000-x" (QC.pending_of st)
     /\ (forall now', QC.getJob now' "1000-x" st' = JNull)
     /\ (forall now' m', m' <> "1000-x" ->
           QC.getJob now' m' st' = QC.getJob now' m' st))
  /\ QC.cancel 1010 "1000-x" (snd (QC.next 1005 st)) = (false, snd (QC.next 1005 st)).
Proof.
  intros st. destruct cancel_only_pending as [H1 H2]. split.
  - apply (H1 1001 "1000-x" st 1005). vm_compute. reflexivity.
  - apply H2. vm_compute. reflexivity.
Defined.

(** [retry] puts a failed job back: it returns true, the record is
    written back without expiry with [attempts = 0] and no [lastError]
    (its other fields unchanged), the id leaves the failed set and is
    pending with score [now].  For
    an id that is not in the failed set, or whose record is gone, it
    returns false and changes nothing. *)
Theorem retry_failed_job :
  (forall (now : Z) (m : string) (st : Store.store) (j : Job),
      m ∈ QC.failed_of st ->
      QC.getJob now m st = JJob j ->
      exists st',
        QC.retry now m st = (true, st')
        /\ (forall now', QC.getJob now' m st' = JJob (retried_job j))
        /\ (m ∉ QC.failed_of st')
        /\ QC.pending_of st' !! m = Some now)
  /\
  (forall (now : Z) (m : string) (st : Store.store),
      (m ∉ QC.failed_of st) \/ QC.getJob now m st = JNull ->
      QC.retry now m st = (false, st)).
Proof.
  split.
  - intros now m st j Hf Hj. unfold QC.retry, Namespaced.command.
    rewrite command_SISMEMBER. unfold Store.sismember.
    set (F := Namespaced.addPrefix QC.ns "failed").
    unfold QC.failed_of in Hf. fold F in Hf.
    destruct (decide (m ∈ Store.sget F st)) as [_|Hn]; [|contradiction].
    rewrite Hj, command_SREM. fold (retried_job j). unfold Namespaced.zadd.
    set (P := Namespaced.addPrefix QC.ns "pending").
    match goal with
    | |- context [Store.zadd P ?l ?s0] =>
        destruct (Store.zadd P l s0) as [n st2] eqn:E2;
        assert (Hst2 : st2 = snd (Store.zadd P l s0)) by now rewrite E2
    end.
    rewrite zadd_single in Hst2.
    exists st2. split; [reflexivity|]. split; [|split].
    + intros now'. eapply getJob_lookup.
      * rewrite Hst2. unfold Namespaced.setJSON, Store.setJSON, Store.set, Store.put.
        cbn [Store.strs Store.zput Store.sput]. apply lookup_insert_eq.
      * reflexivity.
    + unfold QC.failed_of. fold F. rewrite Hst2, sget_zput, sget_sput.
      destruct (decide (F = F)) as [_|?]; [|contradiction].
      intros Hin. apply elem_of_difference in Hin as [_ Hin]. apply Hin.
      now apply elem_of_singleton.
    + unfold QC.pending_of. fold P. rewrite Hst2, zget_zput.
      destruct (decide (P = P)) as [_|?]; [|contradiction]. apply lookup_insert_eq.
  - intros now m st H. unfold QC.retry, Namespaced.command.
    rewrite command_SISMEMBER. unfold Store.sismember.
    destruct (decide (m ∈ Store.sget (Namespaced.addPrefix QC.ns "failed") st)) as [Hin|Hn];
      [|reflexivity].
    destruct H as [H|H]; [contradiction|]. now rewrite H.
Qed.

Lemma retry_failed_job_witness :
  let j := failed_job (failed_job (added_job 1000 "x" "email" "{}" QC.no_options) "e1") "e2" in
  let st0 := snd (QC.claim 1005 "1000-x"
                    (snd (QC.add 1000 "x" "email" "{}" QC.no_options Store.empty))) in
  let st := QC.fail 9000 "1000-x" "e3"
              (Namespaced.setJSON QC.ns 0 (QC.job_key "1000-x") (JJob j) None st0) in
  (exists st',
     QC.retry 9500 "1000-x" st = (true, st')
     /\ (forall now', QC.getJob now' "1000-x" st'
                      = JJob (retried_job (failed_job j "e3")))
     /\ ("1000-x" ∉ QC.failed_of st')
     /\ QC.pending_of st' !! "1000-x" = Some 9500)
  /\ QC.retry 9500 "1000-x" st0 = (false, st0).
Proof.
  intros j st0 st. destruct retry_failed_job as [H1 H2]. split.
  - apply (H1 9500 "1000-x" st (failed_job j "e3")).
    + vm_compute. reflexivity.
    + vm_compute. reflexivity.
  - apply H2. left. vm_compute. intros H. discriminate H.
Defined.

(** ** Queue: counts, eligibility and backoff *)

Lemma getStats_views (now : Z) (st : Store.store) :
  QC.getStats now st
  = {| QC.pending_count := Z.of_nat (size (QC.pending_of st));
       QC.processing_count := Z.of_nat (size (QC.processing_of st));
       QC.completed_count := Z.of_nat (size (QC.completed_of st));
       QC.failed_count := Z.of_nat (size (QC.failed_of st)) |}.
Proof. reflexivity. Qed.

(** A successful [next] moves exactly one job from the pending count to
    the processing count of [getStats] and leaves the completed and
    failed counts alone (when the claimed id was not already recorded as
    processing). *)
Theorem next_moves_one_job :
  forall (now now' : Z) (st st' : Store.store) (m : string) (j : Job),
    QC.select now st = Some m ->
    QC.processing_of st !! m = None ->
    QC.next now st = (JJob j, st') ->
    QC.pending_count (QC.getStats now' st')
    = QC.pending_count (QC.getStats now' st) - 1
    /\ QC.processing_count (QC.getStats now' st')
       = QC.processing_count (QC.getStats now' st) + 1
    /\ QC.completed_count (QC.getStats now' st')
       = QC.completed_count (QC.getStats now' st)
    /\ QC.failed_count (QC.getStats now' st') = QC.failed_count (QC.getStats now' st).
Proof.
  intros now now' st st' m j Hsel Hproc Hnext.
  destruct (select_Some _ _ _ Hsel) as (s & Hs & _).
  unfold QC.next in Hnext. rewrite Hsel in Hnext.
  destruct (truthy (QC.getJob now m st)) eqn:Ht.
  - destruct (claim_truthy now m st Ht) as (st2 & Hc & _ & Hsets & Hp & Hr).
    rewrite Hc in Hnext. injection Hnext as _ <-.
    rewrite !getStats_views. cbn [QC.pending_count QC.processing_count
                                    QC.completed_count QC.failed_count].
    rewrite Hp, Hr.
    rewrite map_size_delete_Some by (rewrite Hs; eauto).
    rewrite map_size_insert_None by exact Hproc.
    assert (Hnz : size (QC.pending_of st) <> 0%nat).
    { apply (map_size_ne_0_lookup_2 _ m). rewrite Hs. eauto. }
    unfold QC.completed_of, QC.failed_of, Store.sget. rewrite Hsets.
    repeat split; lia.
  - destruct (claim_dangling now m st Ht) as (st2 & Hc & _).
    rewrite Hc in Hnext. discriminate.
Qed.

Lemma next_moves_one_job_witness :
  let st := snd (QC.add 1000 "x" "email" "{}" QC.no_options Store.empty) in
  let st' := snd (QC.next 1005 st) in
  QC.pending_count (QC.getStats 0 st') = QC.pending_count (QC.getStats 0 st) - 1
  /\ QC.processing_count (QC.getStats 0 st') = QC.processing_count (QC.getStats 0 st) + 1
  /\ QC.completed_count (QC.getStats 0 st') = QC.completed_count (QC.getStats 0 st)
  /\ QC.failed_count (QC.getStats 0 st') = QC.failed_count (QC.getStats 0 st).
Proof.
  intros st st'.
  apply (next_moves_one_job 1005 0 st st' "1000-x"
           (added_job 1000 "x" "email" "{}" QC.no_options));
    vm_compute; reflexivity.
Defined.

Lemma select_none_eligible (now : Z) (st : Store.store) :
  (forall m s, QC.pending_of st !! m = Some s -> ~ (0 <= s <= now)) ->
  QC.select now st = None.
Proof.
  intros H. destruct (QC.select now st) as [m|] eqn:E; [|reflexivity].
  destruct (select_Some _ _ _ E) as (s & Hs & Hr & _). exfalso. exact (H m s Hs Hr).
Qed.

(** When no pending entry has a score between 0 and [now], [next]
    returns null and leaves the store untouched: a job added with a
    delay is not handed out before its time. *)
Theorem next_nothing_eligible :
  (forall (now : Z) (st : Store.store),
      (forall m s, QC.pending_of st !! m = Some s -> ~ (0 <= s <= now)) ->
      QC.next now st = (JNull, st))
  /\
  (forall (now now' delay : Z) (rnd type data : string) (st : Store.store),
      QC.pending_of st = ∅ ->
      0 < delay ->
      now' < now + delay * 1000 ->
      let st1 := snd (QC.add now rnd type data
                        (QC.mkJobOptions None None (Some delay) None) st) in
      QC.next now' st1 = (JNull, st1)).
Proof.
  assert (H1 : forall (now : Z) (st : Store.store),
      (forall m s, QC.pending_of st !! m = Some s -> ~ (0 <= s <= now)) ->
      QC.next now st = (JNull, st)).
  { intros now st H. unfold QC.next. now rewrite (select_none_eligible now st H). }
  split; [exact H1|].
  intros now now' delay rnd type data st Hempty Hd Hnow st1. apply H1.
  set (o := QC.mkJobOptions None None (Some delay) None).
  destruct (add_spec now rnd type data o st) as (st1' & Hadd & _ & _ & Hp & _).
  assert (Hst1 : st1 = st1') by (unfold st1; fold o; now rewrite Hadd).
  rewrite Hst1, Hp, Hempty. intros m s Hm.
  apply lookup_insert_Some in Hm as [[_ <-]|[_ Hm]];
    [|rewrite lookup_empty in Hm; discriminate].
  assert (E : (delay =? 0) = false) by (apply Z.eqb_neq; lia).
  unfold added_job, o. simpl. rewrite E. lia.
Qed.

Lemma next_nothing_eligible_witness :
  let st1 := snd (QC.add 1000 "x" "email" "{}"
                    (QC.mkJobOptions None None (Some 60) None) Store.empty) in
  QC.next 60999 st1 = (JNull, st1).
Proof.
  destruct next_nothing_eligible as [_ H].
  apply (H 1000 60999 60 "x" "email" "{}" Store.empty); [reflexivity|lia|lia].
Defined.

(** Backoff is respected.  After [fail] has put a job back with
    attempts to spare, and nothing else is pending, [next] returns null
    at every time before [now + 2^attempts] seconds and returns the job,
    with the incremented [attempts] and the error recorded, at every
    time from then on. *)
Theorem backoff_respected :
  forall (now : Z) (m error : string) (st : Store.store) (j : Job),
    QC.getJob now m st = JJob j ->
    0 <= attempts j ->
    attempts j + 1 < maxRetries j ->
    QC.pending_of st = ∅ ->
    0 <= now ->
    let st1 := QC.fail now m error st in
    let retryAt := now + 2 ^ (attempts j + 1) * 1000 in
    (forall t, t < retryAt -> QC.next t st1 = (JNull, st1))
    /\ (forall t, retryAt <= t ->
          exists st2, QC.next t st1 = (JJob (failed_job j error), st2)).
Proof.
  intros now m error st j Hj Ha Hlt Hempty Hnow st1 retryAt.
  destruct (fail_requeue now m error st j Hj Hlt) as (Hs & _ & Hp & _).
  fold st1 in Hs, Hp. rewrite Hempty in Hp. fold retryAt in Hp.
  assert (Hpos : 0 <= retryAt).
  { unfold retryAt. assert (0 <= 2 ^ (attempts j + 1)) by (apply Z.pow_nonneg; lia). lia. }
  split.
  - intros t Ht. unfold QC.next. rewrite select_none_eligible; [reflexivity|].
    intros m' s Hm. rewrite Hp in Hm.
    apply lookup_insert_Some in Hm as [[_ <-]|[_ Hm]];
      [lia|rewrite lookup_empty in Hm; discriminate].
  - intros t Ht.
    assert (Hsel : QC.select t st1 = Some m).
    { apply (select_least t st1 m retryAt).
      - rewrite Hp. apply lookup_insert_eq.
      - lia.
      - intros m' s' Hne Hm' _. rewrite Hp, lookup_insert_ne, lookup_empty in Hm'
          by congruence. discriminate. }
    assert (Hg : QC.getJob t m st1 = JJob (failed_job j error)).
    { eapply getJob_lookup; [rewrite Hs; apply lookup_insert_eq|reflexivity]. }
    destruct (claim_found t m st1 _ Hg) as (st2 & Hc & _).
    exists st2. unfold QC.next. now rewrite Hsel, Hc.
Qed.

Lemma backoff_respected_witness :
  let j := added_job 1000 "x" "email" "{}" QC.no_options in
  let st := snd (QC.next 1005 (snd (QC.add 1000 "x" "email" "{}" QC.no_options
                                      Store.empty))) in
  let st1 := QC.fail 5000 "1000-x" "smtp down" st in
  QC.next 6999 st1 = (JNull, st1)
  /\ exists st2, QC.next 7000 st1 = (JJob (failed_job j "smtp down"), st2).
Proof.
  intros j st st1.
  destruct (backoff_respected 5000 "1000-x" "smtp down" st j) as [H1 H2].
  - vm_compute. reflexivity.
  - vm_compute. discriminate.
  - vm_compute. reflexivity.
  - vm_compute. reflexivity.
  - lia.
  - split; [apply H1; vm_compute; reflexivity|apply H2; vm_compute; discriminate].
Defined.

(** ** Scan and delete *)

(** Deleting what a scan found: every key that matches the pattern is
    gone, every other key is as before. *)
Lemma scan_del (now : Z) (pattern : string) (st : Store.store) (k : string) :
  let st' := snd (Store.del now (Store.scanAll now pattern st) st) in
  (glob_match pattern k = true -> Store.has_key now k st' = false)
  /\ (glob_match pattern k = false ->
        Store.strs st' !! k = Store.strs st !! k
        /\ Store.zsets st' !! k = Store.zsets st !! k
        /\ Store.sets st' !! k = Store.sets st !! k).
Proof.
  intros st'. set (keys := Store.scanAll now pattern st) in *.
  destruct (del_lookup now keys st k) as [Hin Hout]. fold st' in Hin, Hout.
  split.
  - intros Hm. destruct (decide (k ∈ keys)) as [Hk|Hk].
    + destruct (Hin Hk) as (H1 & H2 & H3). now apply has_key_gone.
    + destruct (Hout Hk) as (H1 & H2 & H3).
      destruct (del_lookup_exp now keys st k Hk) as [H4 H5]. fold st' in H4, H5.
      rewrite (has_key_lookup now k st st' H1 H2 H3 H4 H5).
      destruct (Store.has_key now k st) eqn:Hh; [|reflexivity].
      exfalso. apply Hk. apply elem_of_scanAll. split; [exact Hm|].
      now apply has_key_true.
  - intros Hm. apply Hout. intros Hk. apply elem_of_scanAll in Hk as [Hk _]. congruence.
Qed.

Lemma scanAll_nil (now : Z) (pattern : string) (st : Store.store) :
  (forall k, glob_match pattern k = true -> Store.has_key now k st = false) ->
  Store.scanAll now pattern st = [].
Proof.
  intros H. destruct (Store.scanAll now pattern st) as [|k l] eqn:E; [reflexivity|].
  assert (Hk : k ∈ Store.scanAll now pattern st) by (rewrite E; left).
  apply elem_of_scanAll in Hk as [Hm Hh]. apply has_key_true in Hh.
  rewrite (H k Hm) in Hh. discriminate.
Qed.

Lemma getJSON_gone (now : Z) (k : string) (st : Store.store) :
  Store.has_key now k st = false -> Store.getJSON now k st = JNull.
Proof.
  intros H. unfold Store.getJSON, Store.get.
  destruct (Store.entry now k st) eqn:E; [|reflexivity].
  exfalso. assert (Store.has_key now k st = true); [|congruence].
  apply has_key_true. left. rewrite E. eauto.
Qed.

Lemma get_gone (now : Z) (k : string) (st : Store.store) :
  Store.has_key now k st = false -> Store.get now k st = None.
Proof.
  intros H. unfold Store.get.
  destruct (Store.entry now k st) eqn:E; [|reflexivity].
  exfalso. assert (Store.has_key now k st = true); [|congruence].
  apply has_key_true. left. rewrite E. eauto.
Qed.

(** ** Cache: expiry, deletion, statistics and clearing *)

Lemma cache_clear_store (ns : string) (now : Z) (st : Store.store) :
  snd (CC.clear ns now st)
  = snd (Store.del now (Store.scanAll now (CC.getKey ns "*") st) st).
Proof.
  unfold CC.clear. destruct (Store.scanAll now (CC.getKey ns "*") st); reflexivity.
Qed.

Lemma cache_key_matches (ns key : string) :
  glob_match (CC.getKey ns "*") (CC.getKey ns key) = true.
Proof.
  unfold CC.getKey. rewrite <- !app_assoc. apply glob_match_prefix_star.
Qed.

(** After [clear()] the cache of that namespace is empty: every key
    misses and [size()] is 0.  With the default namespace "cache" the
    hit and miss counters are cleared as well, since their keys start
    with [cache:] too. *)
Theorem cache_clear_empties :
  forall (ns : string) (now : Z) (st : Store.store),
    let st' := snd (CC.clear ns now st) in
    (forall key, CC.has ns now key st' = false
                 /\ Store.getJSON now (CC.getKey ns key) st' = JNull)
    /\ CC.size ns now st' = 0
    /\ (ns = "cache" ->
          CC.hits (CC.getStats ns now st') = Some 0
          /\ CC.misses (CC.getStats ns now st') = Some 0).
Proof.
  intros ns now st st'. unfold st'. rewrite cache_clear_store.
  set (st1 := snd (Store.del now (Store.scanAll now (CC.getKey ns "*") st) st)).
  assert (Hgone : forall k, glob_match (CC.getKey ns "*") k = true ->
                            Store.has_key now k st1 = false).
  { intros k Hk. now apply (proj1 (scan_del now (CC.getKey ns "*") st k)). }
  split; [|split].
  - intros key. pose proof (Hgone _ (cache_key_matches ns key)) as Hk. split.
    + unfold CC.has, Store.exists_. cbn [forallb]. now rewrite Hk.
    + now apply getJSON_gone.
  - unfold CC.size. now rewrite (scanAll_nil now _ st1 Hgone).
  - intros ->.
    assert (Hh : Store.has_key now CC.hitsKey st1 = false)
      by (apply Hgone; vm_compute; reflexivity).
    assert (Hm : Store.has_key now CC.missesKey st1 = false)
      by (apply Hgone; vm_compute; reflexivity).
    unfold CC.getStats. cbn [CC.hits CC.misses]. unfold CC.counter.
    now rewrite (get_gone _ _ _ Hh), (get_gone _ _ _ Hm).
Qed.

Lemma cache_clear_empties_witness :
  let loader := fun n : nat => (JStr "Alice", S n) in
  let st := cache_store (CC.getOrSet "cache" 0 "user:123" loader 300 Store.empty
                           (CC.mkSource O O)) in
  CC.misses (CC.getStats "cache" 5 st) = Some 1
  /\ CC.hits (CC.getStats "cache" 5 (snd (CC.clear "cache" 5 st))) = Some 0
  /\ CC.misses (CC.getStats "cache" 5 (snd (CC.clear "cache" 5 st))) = Some 0.
Proof.
  intros loader st. split; [vm_compute; reflexivity|].
  destruct (cache_clear_empties "cache" 5 st) as (_ & _ & H). now apply H.
Defined.

(** [resetStats()] brings the statistics back to zero, whatever the two
    counters held before. *)
Theorem resetStats_zeroes :
  forall (ns : string) (now : Z) (st : Store.store),
    let stats := CC.getStats ns now (CC.resetStats now st) in
    CC.hits stats = Some 0 /\ CC.misses stats = Some 0 /\ CC.hitRate stats = 0%float.
Proof.
  intros ns now st stats.
  assert (Hh : counter_at CC.hitsKey (CC.resetStats now st) 0).
  { left. split; [|reflexivity]. unfold CC.resetStats.
    apply (proj1 (del_lookup now [CC.hitsKey; CC.missesKey] st CC.hitsKey)). left. }
  assert (Hm : counter_at CC.missesKey (CC.resetStats now st) 0).
  { left. split; [|reflexivity]. unfold CC.resetStats.
    apply (proj1 (del_lookup now [CC.hitsKey; CC.missesKey] st CC.missesKey)).
    right. left. }
  destruct (getStats_counters ns now _ _ _ Hh Hm) as (H1 & H2 & H3).
  unfold stats. rewrite H1, H2, H3. repeat split; reflexivity.
Qed.

(** An entry does not outlive its TTL: a second [getOrSet] at or after
    the expiry time misses again and invokes the loader a second time,
    on the state the first invocation left. *)
Theorem getOrSet_reloads_after_expiry :
  forall (L : Type) (ns key : string) (loader : L -> json * L)
         (ttl now1 now2 : Z) (st : Store.store) (src : CC.source L) (h m : Z)
         (d1 d2 : json) (l1 l2 : L),
    CC.getKey ns key <> CC.hitsKey -> CC.getKey ns key <> CC.missesKey ->
    Store.getJSON now1 (CC.getKey ns key) st = JNull ->
    counter_at CC.hitsKey st h -> counter_at CC.missesKey st m ->
    loader (CC.lstate src) = (d1, l1) ->
    loader l1 = (d2, l2) ->
    0 < ttl -> now1 + ttl * 1000 <= now2 ->
    exists st1 src1 st2 src2,
      CC.getOrSet ns now1 key loader ttl st src = Ok (d1, st1, src1)
      /\ CC.getOrSet ns now2 key loader ttl st1 src1 = Ok (d2, st2, src2)
      /\ CC.calls src2 = S (S (CC.calls src))
      /\ counter_at CC.hitsKey st2 h
      /\ counter_at CC.missesKey st2 (m + 2).
Proof.
  intros L ns key loader ttl now1 now2 st src h m d1 d2 l1 l2 Hkh Hkm Hg Hh Hm
         Hl1 Hl2 _ Hexp.
  destruct (getOrSet_miss ns key loader ttl now1 st src m d1 l1 Hg Hm Hl1)
    as (st1 & Hrun1 & Hs1).
  assert (Hne : CC.hitsKey <> CC.missesKey) by apply hits_ne_misses.
  assert (Hm1 : counter_at CC.missesKey st1 (m + 1)).
  { right. rewrite Hs1, lookup_insert_ne by exact Hkm. apply lookup_insert_eq. }
  assert (Hh1 : counter_at CC.hitsKey st1 h).
  { unfold counter_at. rewrite Hs1, !lookup_insert_ne; [exact Hh|congruence|exact Hkh]. }
  assert (Hg2 : Store.getJSON now2 (CC.getKey ns key) st1 = JNull).
  { unfold Store.getJSON, Store.get, Store.entry, Store.live.
    rewrite Hs1, lookup_insert_eq. cbn [snd].
    apply Z.ltb_ge in Hexp. now rewrite Hexp. }
  destruct (getOrSet_miss ns key loader ttl now2 st1
              (CC.mkSource l1 (S (CC.calls src))) (m + 1) d2 l2 Hg2 Hm1 Hl2)
    as (st2 & Hrun2 & Hs2).
  exists st1, (CC.mkSource l1 (S (CC.calls src))), st2,
         (CC.mkSource l2 (S (S (CC.calls src)))).
  split; [exact Hrun1|]. split; [exact Hrun2|]. split; [reflexivity|]. split.
  - unfold counter_at. rewrite Hs2, !lookup_insert_ne; [exact Hh1|congruence|exact Hkh].
  - right. rewrite Hs2, lookup_insert_ne by exact Hkm. rewrite lookup_insert_eq.
    do 4 f_equal. lia.
Qed.

Lemma getOrSet_reloads_after_expiry_witness :
  let loader := fun n : nat => (JNum (Z.of_nat n), S n) in
  let src := CC.mkSource O O in
  exists st1 src1 st2 src2,
    CC.getOrSet "cache" 0 "n" loader 300 Store.empty src = Ok (JNum 0, st1, src1)
    /\ CC.getOrSet "cache" 300000 "n" loader 300 st1 src1 = Ok (JNum 1, st2, src2)
    /\ CC.calls src2 = S (S (CC.calls src))
    /\ counter_at CC.hitsKey st2 0
    /\ counter_at CC.missesKey st2 (0 + 2).
Proof.
  intros loader src.
  apply (getOrSet_reloads_after_expiry nat "cache" "n" loader 300 0 300000 Store.empty
           src 0 0 (JNum 0) (JNum 1) 1%nat 2%nat).
  - vm_compute. discriminate.
  - vm_compute. discriminate.
  - reflexivity.
  - left. split; reflexivity.
  - left. split; reflexivity.
  - reflexivity.
  - reflexivity.
  - lia.
  - lia.
Defined.






(** ** Storage *)

Lemma storage_key_inj (ns k k' : string) : SC.getKey ns k = SC.getKey ns k' -> k = k'.
Proof.
  unfold SC.getKey. intros H. apply (inj (String.app _)) in H.
  now apply (inj (String.app _)) in H.
Qed.



(** [deleteMany] removes every key it is given and no other key of the
    namespace; [delete] does so for one key and returns whether the key
    existed. *)
Theorem storage_delete :
  forall (ns : string) (now : Z) (keys : list string) (key : string)
         (st : Store.store),
    let st' := snd (SC.deleteMany ns now keys st) in
    (key ∈ keys -> SC.has ns now key st' = false /\ SC.get ns now key st' = JNull)
    /\ (key ∉ keys -> SC.has ns now key st' = SC.has ns now key st
                      /\ SC.get ns now key st' = SC.get ns now key st)
    /\ fst (SC.delete ns now key st) = SC.has ns now key st
    /\ snd (SC.delete ns now key st) = snd (SC.deleteMany ns now [key] st).
Proof.
  intros ns now keys key st st'.
  destruct (del_lookup now (SC.getKey ns <$> keys) st (SC.getKey ns key)) as [Hin Hout].
  fold (SC.deleteMany ns now keys st) in Hin, Hout. fold st' in Hin, Hout.
  split; [|split; [|split]].
  - intros Hk. destruct (Hin (list_elem_of_fmap_2 _ _ _ Hk)) as (H1 & H2 & H3).
    assert (Hg : Store.has_key now (SC.getKey ns key) st' = false)
      by now apply has_key_gone.
    split; [unfold SC.has, Store.exists_; cbn [forallb]; now rewrite Hg|].
    now apply getJSON_gone.
  - intros Hk.
    assert (Hn : SC.getKey ns key ∉ SC.getKey ns <$> keys).
    { intros H. apply list_elem_of_fmap in H as (k' & He & Hk').
      apply storage_key_inj in He. subst k'. contradiction. }
    destruct (Hout Hn) as (H1 & H2 & H3).
    destruct (del_lookup_exp now (SC.getKey ns <$> keys) st _ Hn) as [H4 H5].
    fold (SC.deleteMany ns now keys st) in H4, H5. fold st' in H4, H5. split.
    + unfold SC.has, Store.exists_. cbn [forallb].
      now rewrite (has_key_lookup now _ st st' H1 H2 H3 H4 H5).
    + unfold SC.get, Store.getJSON, Store.get, Store.entry. now rewrite H1.
  - unfold SC.delete, SC.has, Store.exists_. cbn [Store.del forallb]. unfold Store.del1.
    cbn [fst]. destruct (Store.has_key now (SC.getKey ns key) st); reflexivity.
  - reflexivity.
Qed.

Lemma storage_delete_witness :
  let st := SC.set "app" 0 "b" (JNum 2) None
              (SC.set "app" 0 "a" (JNum 1) None Store.empty) in
  SC.get "app" 5 "a" (snd (SC.deleteMany "app" 5 ["a"] st)) = JNull
  /\ SC.get "app" 5 "b" (snd (SC.deleteMany "app" 5 ["a"] st)) = SC.get "app" 5 "b" st.
Proof.
  intros st. split.
  - apply (storage_delete "app" 5 ["a"] "a" st). left.
  - apply (storage_delete "app" 5 ["a"] "b" st).
    rewrite list_elem_of_singleton. discriminate.
Defined.

(** [expire] on a readable key returns true and gives it a new
    lifetime, whatever the old one was: the value is read until
    [seconds] later and null from then on.  On a key that does not exist
    it returns false and changes nothing. *)
Theorem storage_expire :
  forall (ns key : string) (now now' seconds : Z) (st : Store.store),
    (SC.get ns now key st <> JNull -> 0 < seconds ->
       fst (SC.expire ns now key seconds st) = true
       /\ SC.get ns now' key (snd (SC.expire ns now key seconds st))
          = if now' <? now + seconds * 1000 then SC.get ns now key st else JNull)
    /\ (SC.has ns now key st = false -> SC.expire ns now key seconds st = (false, st)).
Proof.
  intros ns key now now' seconds st. split.
  - intros Hg Hs. unfold SC.expire, SC.get in *.
    unfold Store.getJSON, Store.get in Hg |- *.
    destruct (Store.entry now (SC.getKey ns key) st) as [[v e]|] eqn:E;
      [|now contradiction Hg].
    destruct (expire_entry now _ seconds st v e E Hs) as [H1 H2].
    destruct (Store.expire now (SC.getKey ns key) seconds st) as [n st1].
    cbn [fst snd] in *. subst n. split; [reflexivity|].
    unfold Store.entry. rewrite H2, lookup_insert_eq.
    unfold Store.live. cbn [snd fst fmap option_fmap option_map].
    destruct (now' <? now + seconds * 1000); reflexivity.
  - intros Hh. unfold SC.has, Store.exists_ in Hh. cbn [forallb] in Hh.
    rewrite andb_true_r in Hh. unfold SC.expire, Store.expire.
    unfold Store.has_key in Hh. now rewrite Hh.
Qed.

Lemma storage_expire_witness :
  let st := SC.set "app" 0 "a" (JNum 1) None Store.empty in
  fst (SC.expire "app" 10 "a" 60 st) = true
  /\ SC.get "app" 60010 "a" (snd (SC.expire "app" 10 "a" 60 st)) = JNull
  /\ SC.expire "app" 10 "b" 60 st = (false, st).
Proof.
  intros st.
  destruct (storage_expire "app" "a" 10 60010 60 st) as [H _].
  destruct (H ltac:(vm_compute; discriminate) ltac:(lia)) as [H1 H2].
  split; [exact H1|]. split; [exact H2|].
  apply (storage_expire "app" "b" 10 0 60 st). vm_compute. reflexivity.
Defined.

Lemma controller_key_matches (ns key : string) :
  glob_match (Namespaced.prefix ns +:+ "*") (ns +:+ ":" +:+ key) = true.
Proof.
  unfold Namespaced.prefix. destruct (endsWith ns ":").
  - apply glob_match_prefix_star.
  - rewrite <- (app_assoc ns ":" key). apply glob_match_prefix_star.
Qed.

(** [clearNamespace(redis, ns)] empties the StorageController and the
    CacheController built with the namespace [ns]: their keys
    [ns:key] all match the pattern it deletes by, also when [ns] itself
    ends in a colon. *)
Theorem clearNamespace_clears_controllers :
  forall (now : Z) (ns key : string) (st : Store.store),
    let st' := snd (clearNamespace now ns st) in
    SC.get ns now key st' = JNull /\ SC.has ns now key st' = false
    /\ CC.has ns now key st' = false
    /\ Store.getJSON now (CC.getKey ns key) st' = JNull.
Proof.
  intros now ns key st st'. unfold st'. rewrite clearNamespace_store.
  set (st1 := snd (Store.del now _ st)).
  assert (Hgone : forall k, Store.has_key now (ns +:+ ":" +:+ k) st1 = false).
  { intros k. apply (proj1 (scan_del now (Namespaced.prefix ns +:+ "*") st _)).
    apply controller_key_matches. }
  split; [apply getJSON_gone, Hgone|].
  split; [unfold SC.has, Store.exists_; cbn [forallb]; unfold SC.getKey;
          now rewrite Hgone|].
  split; [unfold CC.has, Store.exists_; cbn [forallb]; unfold CC.getKey;
          now rewrite Hgone|].
  apply getJSON_gone, Hgone.
Qed.

(** ** Rate limiter: window rollover, reset and usage *)

Lemma fixed_name_key (identifier : string) :
  Namespaced.addPrefix RL.namespace (RL.algorithm_name RL.fixed +:+ ":" +:+ identifier)
  = fixed_key identifier.
Proof. reflexivity. Qed.

Lemma reset_fixed_entry (now now' : Z) (identifier : string)
    (algorithm : option RL.RateLimitAlgorithm) (st : Store.store) :
  algorithm = None \/ algorithm = Some RL.fixed ->
  Store.entry now' (fixed_key identifier) (RL.reset now identifier algorithm st) = None.
Proof.
  intros [-> | ->]; unfold RL.reset; cbn [foldl]; unfold Namespaced.del.
  - cbn [fmap list_fmap]. unfold Store.entry.
    destruct (del_lookup now [Namespaced.addPrefix RL.namespace ("bucket:" +:+ identifier)]
                (snd (Store.del now
                        [Namespaced.addPrefix RL.namespace ("sliding:" +:+ identifier)]
                        (snd (Store.del now [fixed_key identifier] st))))
                (fixed_key identifier)) as [_ H3].
    destruct (del_lookup now [Namespaced.addPrefix RL.namespace ("sliding:" +:+ identifier)]
                (snd (Store.del now [fixed_key identifier] st))
                (fixed_key identifier)) as [_ H2].
    destruct (del_lookup now [fixed_key identifier] st (fixed_key identifier)) as [H1 _].
    change (Namespaced.addPrefix RL.namespace ("fixed:" +:+ identifier))
      with (fixed_key identifier).
    rewrite (proj1 (H3 ltac:(rewrite list_elem_of_singleton; discriminate))).
    rewrite (proj1 (H2 ltac:(rewrite list_elem_of_singleton; discriminate))).
    now rewrite (proj1 (H1 ltac:(left))).
  - cbn [fmap list_fmap]. rewrite fixed_name_key. unfold Store.entry.
    destruct (del_lookup now [fixed_key identifier] st (fixed_key identifier)) as [H1 _].
    now rewrite (proj1 (H1 ltac:(left))).
Qed.

(** After [reset(id)] or [reset(id, "fixed")] the fixed window of [id]
    starts afresh, whatever the counter held: the usage is 0 and the
    next check counts as the first request of a new window. *)
Theorem reset_restarts_fixed_window :
  forall (secs : Z -> Z) (identifier : string) (maxRequests windowSeconds now now' : Z)
         (algorithm : option RL.RateLimitAlgorithm) (st : Store.store),
    0 < windowSeconds ->
    algorithm = None \/ algorithm = Some RL.fixed ->
    RL.getUsage now' identifier (Some RL.fixed) (RL.reset now identifier algorithm st)
    = Ok (Some 0%float)
    /\ exists r st',
         RL.checkFixedWindow secs now' identifier maxRequests windowSeconds
           (RL.reset now identifier algorithm st) = Ok (r, st')
         /\ RL.allowed r = (1 <=? maxRequests)
         /\ RL.remaining r = Z.max 0 (maxRequests - 1)
         /\ Store.strs st' !! fixed_key identifier
            = Some (Json (JNum 1), Some (now' + windowSeconds * 1000)).
Proof.
  intros secs identifier maxRequests windowSeconds now now' algorithm st Hw Ha.
  pose proof (reset_fixed_entry now now' identifier algorithm st Ha) as He.
  split.
  - unfold RL.getUsage. cbn [default RL.algorithm_name].
    unfold Namespaced.get, Store.get. rewrite fixed_name_key, He. reflexivity.
  - destruct (check_first secs identifier maxRequests windowSeconds now' _ Hw He)
      as (r & st' & Hrun & (H1 & H2 & _) & Hk).
    exists r, st'. auto.
Qed.

Lemma reset_restarts_fixed_window_witness :
  let st := store_of (RL.checks nearest_second [0; 1; 2] "u" 2 60 Store.empty) in
  RL.getUsage 3 "u" (Some RL.fixed) (RL.reset 3 "u" None st) = Ok (Some 0%float)
  /\ exists r st',
       RL.checkFixedWindow nearest_second 3 "u" 2 60 (RL.reset 3 "u" None st)
       = Ok (r, st')
       /\ RL.allowed r = (1 <=? 2)
       /\ RL.remaining r = Z.max 0 (2 - 1)
       /\ Store.strs st' !! fixed_key "u" = Some (Json (JNum 1), Some (3 + 60 * 1000)).
Proof.
  intros st.
  apply (reset_restarts_fixed_window nearest_second "u" 2 60 3 3 None st).
  - lia.
  - left. reflexivity.
Defined.

(** The fixed window rolls over: once the window opened by the first
    request has run out, the next check opens a new one and counts as
    its first request, however many requests the old window saw. *)
Theorem fixed_window_rollover :
  forall (secs : Z -> Z) (identifier : string) (maxRequests windowSeconds : Z)
         (t1 : Z) (rest : list Z) (t : Z) (st : Store.store),
    0 < windowSeconds ->
    Store.entry t1 (fixed_key identifier) st = None ->
    Forall (fun t' => t1 <= t' < t1 + windowSeconds * 1000) rest ->
    t1 + windowSeconds * 1000 <= t ->
    exists rs st1 r st2,
      RL.checks secs (t1 :: rest) identifier maxRequests windowSeconds st = Ok (rs, st1)
      /\ RL.checkFixedWindow secs t identifier maxRequests windowSeconds st1 = Ok (r, st2)
      /\ RL.allowed r = (1 <=? maxRequests)
      /\ RL.remaining r = Z.max 0 (maxRequests - 1)
      /\ Store.strs st2 !! fixed_key identifier
         = Some (Json (JNum 1), Some (t + windowSeconds * 1000)).
Proof.
  intros secs identifier maxRequests windowSeconds t1 rest t st Hw He Hall Ht.
  destruct (checks_window secs identifier maxRequests windowSeconds t1 rest st
              Hw He Hall) as (rs & st1 & Hrun & _ & Hk & _).
  assert (He1 : Store.entry t (fixed_key identifier) st1 = None).
  { unfold Store.entry, Store.live. rewrite Hk. cbn [snd].
    apply Z.ltb_ge in Ht. now rewrite Ht. }
  destruct (check_first secs identifier maxRequests windowSeconds t st1 Hw He1)
    as (r & st2 & Hr & (H1 & H2 & _) & Hk2).
  exists rs, st1, r, st2. auto.
Qed.

Lemma fixed_window_rollover_witness :
  exists rs st1 r st2,
    RL.checks nearest_second [0; 10; 20] "u" 2 60 Store.empty = Ok (rs, st1)
    /\ RL.checkFixedWindow nearest_second 60000 "u" 2 60 st1 = Ok (r, st2)
    /\ RL.allowed r = (1 <=? 2)
    /\ RL.remaining r = Z.max 0 (2 - 1)
    /\ Store.strs st2 !! fixed_key "u" = Some (Json (JNum 1), Some (60000 + 60 * 1000)).
Proof.
  apply (fixed_window_rollover nearest_second "u" 2 60 0 [10; 20] 60000 Store.empty).
  - lia.
  - reflexivity.
  - repeat constructor; lia.
  - lia.
Defined.

(** [getUsage(id)] reports the number of checks made in the current
    fixed window, denied ones included, so it can exceed the limit; once
    the window has run out it reports 0. *)
Theorem getUsage_counts_checks :
  forall (secs : Z -> Z) (identifier : string) (maxRequests windowSeconds : Z)
         (t1 : Z) (rest : list Z) (t : Z) (st : Store.store),
    0 < windowSeconds ->
    Store.entry t1 (fixed_key identifier) st = None ->
    Forall (fun t' => t1 <= t' < t1 + windowSeconds * 1000) rest ->
    exists rs st1,
      RL.checks secs (t1 :: rest) identifier maxRequests windowSeconds st = Ok (rs, st1)
      /\ RL.getUsage t identifier None st1
         = Ok (Some (JS.of_Z (if t <? t1 + windowSeconds * 1000
                              then Z.of_nat (length rest) + 1 else 0))).
Proof.
  intros secs identifier maxRequests windowSeconds t1 rest t st Hw He Hall.
  destruct (checks_window secs identifier maxRequests windowSeconds t1 rest st
              Hw He Hall) as (rs & st1 & Hrun & _ & Hk & _).
  exists rs, st1. split; [exact Hrun|].
  unfold RL.getUsage. cbn [default RL.algorithm_name].
  unfold Namespaced.get, Store.get, Store.entry, Store.live.
  rewrite fixed_name_key, Hk. cbn [snd].
  destruct (t <? t1 + windowSeconds * 1000); reflexivity.
Qed.

Lemma getUsage_counts_checks_witness :
  exists rs st1,
    RL.checks nearest_second [0; 10; 20] "u" 2 60 Store.empty = Ok (rs, st1)
    /\ RL.getUsage 30 "u" None st1
       = Ok (Some (JS.of_Z (if 30 <? 0 + 60 * 1000
                            then Z.of_nat (length [10; 20]) + 1 else 0))).
Proof.
  apply (getUsage_counts_checks nearest_second "u" 2 60 0 [10; 20] 30 Store.empty).
  - lia.
  - reflexivity.
  - repeat constructor; lia.
Defined.

(** [getUsage(id, "token-bucket")] does not see the bucket: it reads the
    key [token-bucket:id], while the checks keep the bucket under
    [bucket:id].  A token-bucket check leaves what it reports
    unchanged. *)
Theorem getUsage_misses_bucket :
  forall (now now' : Z) (identifier : string) (capacity refillRate : float)
         (st st' : Store.store) (r : RL.RateLimitResult),
    RL.checkTokenBucket now identifier capacity refillRate st = Ok (r, st') ->
    RL.getUsage now' identifier (Some RL.token_bucket) st'
    = RL.getUsage now' identifier (Some RL.token_bucket) st.
Proof.
  intros now now' identifier capacity refillRate st st' r H.
  assert (Hs : exists b e, st' = Store.put (bucket_key identifier) (b, e) st).
  { unfold RL.checkTokenBucket in H.
    destruct (RL.read_bucket now ("bucket:" +:+ identifier) capacity refillRate st)
      as [refilled|]; [|discriminate].
    cbn [rbind] in H. injection H as _ <-. eexists _, _. reflexivity. }
  destruct Hs as (b & e & ->).
  unfold RL.getUsage. cbn [default]. unfold Namespaced.get, Store.get.
  rewrite entry_put.
  destruct (decide (bucket_key identifier
                    = Namespaced.addPrefix RL.namespace
                        (RL.algorithm_name RL.token_bucket +:+ ":" +:+ identifier)))
    as [E|_]; [|reflexivity].
  symmetry in E. now apply bucket_key_ne in E.
Qed.

Lemma getUsage_misses_bucket_witness :
  let run := RL.checkTokenBucket 0 "u" 5 1 Store.empty in
  exists r, run = Ok (r, store_of run)
    /\ RL.remaining r = 4
    /\ RL.getUsage 0 "u" (Some RL.token_bucket) (store_of run) = Ok (Some 0%float).
Proof.
  intros run.
  assert (H : exists r, run = Ok (r, store_of run) /\ RL.remaining r = 4)
    by (vm_compute; eexists; split; reflexivity).
  destruct H as (r & Hr & Hrem). exists r. split; [exact Hr|]. split; [exact Hrem|].
  now rewrite (getUsage_misses_bucket 0 0 "u" 5 1 Store.empty (store_of run) r Hr).
Defined.

(** ** Rate limiter: the token bucket *)

(** A bucket starts full: the first token-bucket check of an identifier
    without a bucket is allowed exactly when the capacity is at least
    1, takes one token from the full bucket when it is allowed, reports
    the tokens left rounded down, and stores the bucket with the time
    of the check as its last refill and one hour to live. *)
Theorem token_bucket_first_check :
  forall (now : Z) (identifier : string) (capacity refillRate : float)
         (st : Store.store),
    Store.entry now (bucket_key identifier) st = None ->
    let left := if (1 <=? capacity)%float then (capacity - 1)%float else capacity in
    exists r st',
      RL.checkTokenBucket now identifier capacity refillRate st = Ok (r, st')
      /\ RL.allowed r = (1 <=? capacity)%float
      /\ RL.remaining r = JS.Math_floor left
      /\ RL.limit r = capacity
      /\ RL.retryAfter r
         = (if (1 <=? capacity)%float then None
            else Some (JS.Math_ceil ((1 - capacity) / refillRate)%float))
      /\ Store.strs st' !! bucket_key identifier
         = Some (JSON_stringify (JBucket {| tokens := JS.JSON_number left;
                                            lastRefill := now |}),
                 Some (now + 3600 * 1000)).
Proof.
  intros now identifier capacity refillRate st He left.
  unfold RL.checkTokenBucket, RL.read_bucket, Namespaced.get, Store.get.
  fold (bucket_key identifier). rewrite He. cbn [fmap option_fmap option_map rbind default].
  eexists _, _. split; [reflexivity|].
  cbn [RL.allowed RL.remaining RL.limit RL.retryAfter].
  unfold Namespaced.set, Store.set, Store.put. fold (bucket_key identifier).
  cbn [Store.strs]. rewrite lookup_insert_eq. unfold left.
  destruct (1 <=? capacity)%float; repeat split; reflexivity.
Qed.

Lemma token_bucket_first_check_witness :
  exists r st',
    RL.checkTokenBucket 0 "u" 5 1 Store.empty = Ok (r, st')
    /\ RL.allowed r = true
    /\ RL.remaining r = 4%float
    /\ RL.limit r = 5%float
    /\ RL.retryAfter r = None
    /\ Store.strs st' !! bucket_key "u"
       = Some (JSON_stringify (JBucket {| tokens := Some 4%float; lastRefill := 0 |}),
               Some (0 + 3600 * 1000)).
Proof.
  exact (token_bucket_first_check 0 "u" 5 1 Store.empty eq_refl).
Defined.

(** With [windowSeconds = 0] and no [refillRate] option the refill rate
    is [maxRequests / 0], which is Infinity.  The first check is
    allowed.  A second check at the same instant multiplies an elapsed
    time of 0 by Infinity: the tokens are NaN, the check is denied with
    a [remaining] and a [retryAfter] that are NaN, and the bucket is
    stored with [tokens] null. *)
Theorem token_bucket_zero_window :
  let o := RL.mkOptions (Some RL.token_bucket) None None in
  match RL.check nearest_second 0 "" "u" 2 0 o Store.empty with
  | Ok (r1, st1) =>
      RL.allowed r1 = true
      /\ RL.remaining r1 = 1%float
      /\ match RL.check nearest_second 0 "" "u" 2 0 o st1 with
         | Ok (r2, st2) =>
             RL.allowed r2 = false
             /\ is_nan (RL.remaining r2) = true
             /\ (is_nan <$> RL.retryAfter r2) = Some true
             /\ Store.strs st2 !! bucket_key "u"
                = Some (JSON_stringify (JBucket {| tokens := None; lastRefill := 0 |}),
                        Some (0 + 3600 * 1000))
         | Err _ => False
         end
  | Err _ => False
  end.
Proof.
  vm_compute. repeat split; reflexivity.
Qed.

(** ** Rate limiter: the sliding window *)

Lemma command_ZREMRANGEBYSCORE (now : Z) (k : string) (lo hi : Z) (st : Store.store) :
  Store.command now "ZREMRANGEBYSCORE" [Store.AStr k; Store.ANum lo; Store.ANum hi] st
  = (Store.RInt (fst (Store.zremrangebyscore k lo hi st)),
     snd (Store.zremrangebyscore k lo hi st)).
Proof. reflexivity. Qed.

Lemma zget_touch (now : Z) (k : string) (st : Store.store) :
  Store.zget k (Store.touch now k st)
  = if Store.alive now (Store.zexp st !! k) then Store.zget k st else ∅.
Proof.
  unfold Store.zget, Store.touch. cbn [Store.zsets].
  destruct (Store.alive now (Store.zexp st !! k)); cbn [negb];
    [reflexivity|now rewrite lookup_delete_eq].
Qed.

Lemma alive_touch (now : Z) (k : string) (st : Store.store) :
  Store.alive now (Store.zexp (Store.touch now k st) !! k) = true.
Proof.
  unfold Store.touch. cbn [Store.zexp].
  destruct (Store.alive now (Store.zexp st !! k)) eqn:E; cbn [negb];
    [exact E|now rewrite lookup_delete_eq].
Qed.

Lemma zexp_touch (now : Z) (k : string) (st : Store.store) :
  Store.zexp (Store.touch now k st) !! k = None
  \/ Store.zexp (Store.touch now k st) !! k = Store.zexp st !! k.
Proof.
  unfold Store.touch. cbn [Store.zexp].
  destruct (Store.alive now (Store.zexp st !! k)); cbn [negb];
    [now right|left; apply lookup_delete_eq].
Qed.

Lemma zexp_zput (k : string) (z : gmap string Z) (st : Store.store) :
  Store.zexp (Store.zput k z st) !! k = None
  \/ Store.zexp (Store.zput k z st) !! k = Store.zexp st !! k.
Proof.
  unfold Store.zput. cbn [Store.zexp].
  destruct (decide (z = ∅)); [left; apply lookup_delete_eq|].
  destruct (Store.zsets st !! k); [now right|left; apply lookup_delete_eq].
Qed.

Lemma zlive_zput (now : Z) (k : string) (z : gmap string Z) (st : Store.store) :
  z <> ∅ -> Store.alive now (Store.zexp st !! k) = true ->
  Store.zlive now k (Store.zput k z st) = true.
Proof.
  intros Hz Ha. unfold Store.zlive. apply andb_true_iff. split.
  - apply bool_decide_eq_true. unfold Store.zput. cbn [Store.zsets].
    destruct (decide (z = ∅)); [contradiction|]. rewrite lookup_insert_eq. eauto.
  - destruct (zexp_zput k z st) as [-> | ->]; [reflexivity|exact Ha].
Qed.

(** [expire] on a sorted container that is alive. *)
Lemma expire_zset (now : Z) (k : string) (seconds : Z) (st : Store.store) :
  Store.zlive now k st = true ->
  Store.zget k (snd (Store.expire now k seconds st))
  = (if 0 <? seconds then Store.zget k st else ∅)
  /\ Store.zexp (snd (Store.expire now k seconds st)) !! k
     = (if 0 <? seconds then Some (now + seconds * 1000) else None).
Proof.
  intros Hz. unfold Store.expire. rewrite Hz, orb_true_r. cbn [orb].
  destruct (seconds <=? 0) eqn:E.
  - assert (E' : (0 <? seconds) = false) by (apply Z.ltb_ge; now apply Z.leb_le).
    rewrite E'. unfold Store.zget. cbn [snd Store.zsets Store.zexp].
    now rewrite !lookup_delete_eq.
  - assert (E' : (0 <? seconds) = true) by (apply Z.ltb_lt; now apply Z.leb_gt).
    rewrite E'. unfold Store.zget. cbn [snd Store.zsets Store.zexp].
    now rewrite lookup_insert_eq.
Qed.

(** One sliding-window check, seen on the container: of what an access
    at [now] finds, the entries with a score in [0, now - window] are
    dropped and the rest are counted; an allowed request adds its own
    entry and gives the container [windowSeconds] to live, which removes
    it at once when [windowSeconds] is not positive. *)
Lemma sliding_check (now : Z) (rnd identifier : string) (maxRequests windowSeconds : Z)
    (st : Store.store) :
  let keep := filter (fun e : string * Z => ¬ (0 ≤ e.2 ∧ e.2 ≤ now - windowSeconds * 1000))
                     (sliding_view now identifier st) in
  let count := Z.of_nat (size keep) in
  let run := RL.checkSlidingWindow now rnd identifier maxRequests windowSeconds st in
  RL.allowed (fst run) = (count <? maxRequests)
  /\ RL.remaining (fst run)
     = Z.max 0 (maxRequests - count - (if count <? maxRequests then 1 else 0))
  /\ RL.retryAfter (fst run)
     = (if count <? maxRequests then None else Some (JS.of_Z windowSeconds))
  /\ Store.zget (sliding_key identifier) (snd run)
     = (if count <? maxRequests
        then (if 0 <? windowSeconds
              then <[sliding_member (now, rnd) := now]> keep else ∅)
        else keep)
  /\ (if count <? maxRequests
      then Store.zexp (snd run) !! sliding_key identifier
           = (if 0 <? windowSeconds then Some (now + windowSeconds * 1000) else None)
      else Store.zexp (snd run) !! sliding_key identifier = None
           \/ Store.zexp (snd run) !! sliding_key identifier
              = Store.zexp st !! sliding_key identifier).
Proof.
  intros keep count run. unfold run, RL.checkSlidingWindow, Namespaced.command.
  fold (sliding_key identifier).
  set (st0 := Store.touch now (sliding_key identifier) st).
  rewrite command_ZREMRANGEBYSCORE.
  unfold Store.zremrangebyscore. cbn [fst snd].
  change (Store.zget (sliding_key identifier) st0) with (sliding_view now identifier st).
  fold keep.
  set (st1 := Store.zput (sliding_key identifier) keep st0).
  unfold Namespaced.zcard, Store.zcard. fold (sliding_key identifier).
  assert (Hz1 : Store.zget (sliding_key identifier) st1 = keep).
  { unfold st1. rewrite zget_zput.
    destruct (decide (sliding_key identifier = sliding_key identifier)) as [_|?];
      [reflexivity|contradiction]. }
  assert (Ha1 : forall t, Store.alive t (Store.zexp st0 !! sliding_key identifier) = true ->
                Store.alive t (Store.zexp st1 !! sliding_key identifier) = true).
  { intros t Ht. unfold st1.
    destruct (zexp_zput (sliding_key identifier) keep st0) as [-> | ->];
      [reflexivity|exact Ht]. }
  rewrite Hz1. fold count.
  destruct (count <? maxRequests) eqn:E; cbn [fst snd RL.allowed RL.remaining RL.retryAfter].
  - unfold Namespaced.expire, Namespaced.zadd. fold (sliding_key identifier).
    change (NilZero.string_of_int (Z.to_int now) +:+ "-" +:+ rnd)
      with (sliding_member (now, rnd)).
    destruct (Store.zadd (sliding_key identifier) [(now, sliding_member (now, rnd))] st1)
      as [n st2] eqn:Ez.
    assert (Hst2 : st2 = Store.zput (sliding_key identifier)
                           (<[sliding_member (now, rnd) := now]> keep) st1).
    { rewrite <- Hz1. rewrite <- zadd_single. now rewrite Ez. }
    assert (Hl2 : Store.zlive now (sliding_key identifier) st2 = true).
    { rewrite Hst2. apply zlive_zput; [apply insert_non_empty|].
      apply Ha1. apply alive_touch. }
    destruct (expire_zset now (sliding_key identifier) windowSeconds st2 Hl2) as [Hg He].
    split; [reflexivity|]. split; [reflexivity|]. split; [reflexivity|].
    split; [|exact He].
    rewrite Hg. destruct (0 <? windowSeconds); [|reflexivity].
    rewrite Hst2, zget_zput.
    destruct (decide (sliding_key identifier = sliding_key identifier)) as [_|?];
      [reflexivity|contradiction].
  - split; [reflexivity|]. split; [reflexivity|]. split; [reflexivity|].
    split; [exact Hz1|].
    unfold st1. destruct (zexp_zput (sliding_key identifier) keep st0) as [-> | ->];
      [now left|]. apply zexp_touch.
Qed.

Lemma sliding_checks_cons (q : Z * string) (rest : list (Z * string))
    (identifier : string) (maxRequests windowSeconds : Z) (st : Store.store) :
  sliding_checks (q :: rest) identifier maxRequests windowSeconds st
  = (fst (RL.checkSlidingWindow q.1 q.2 identifier maxRequests windowSeconds st)
       :: fst (sliding_checks rest identifier maxRequests windowSeconds
                 (snd (RL.checkSlidingWindow q.1 q.2 identifier maxRequests
                         windowSeconds st))),
     snd (sliding_checks rest identifier maxRequests windowSeconds
            (snd (RL.checkSlidingWindow q.1 q.2 identifier maxRequests
                    windowSeconds st)))).
Proof.
  cbn [sliding_checks].
  destruct (RL.checkSlidingWindow q.1 q.2 identifier maxRequests windowSeconds st)
    as [r st1].
  cbn [fst snd].
  destruct (sliding_checks rest identifier maxRequests windowSeconds st1) as [rs st2].
  reflexivity.
Qed.

Lemma sliding_run (identifier : string) (maxRequests windowSeconds t1 : Z)
    (reqs : list (Z * string)) :
  forall (c : Z) (st : Store.store),
    Z.of_nat (size (Store.zget (sliding_key identifier) st)) = c ->
    c <= maxRequests ->
    (Store.zget (sliding_key identifier) st = ∅
     \/ forall t, t < t1 + windowSeconds * 1000 ->
          Store.alive t (Store.zexp st !! sliding_key identifier) = true) ->
    (forall m s, Store.zget (sliding_key identifier) st !! m = Some s -> t1 <= s) ->
    (forall q, q ∈ reqs ->
       Store.zget (sliding_key identifier) st !! sliding_member q = None) ->
    Forall (fun q : Z * string => t1 <= q.1 < t1 + windowSeconds * 1000) reqs ->
    NoDup (sliding_member <$> reqs) ->
    let run := sliding_checks reqs identifier maxRequests windowSeconds st in
    length (fst run) = length reqs
    /\ (forall (i : nat) r, fst run !! i = Some r ->
          RL.allowed r = (c + Z.of_nat i <? maxRequests)
          /\ RL.remaining r = Z.max 0 (maxRequests - (c + Z.of_nat i) - 1)
          /\ (RL.allowed r = false -> RL.retryAfter r = Some (JS.of_Z windowSeconds)))
    /\ Store.zcard (sliding_key identifier) (snd run)
       = Z.min (c + Z.of_nat (length reqs)) maxRequests.
Proof.
  induction reqs as [|q rest IH]; intros c st Hc HcN Hlive Hsc Hfresh Hall Hnd run.
  - unfold run. cbn [sliding_checks fst snd length]. split; [reflexivity|]. split.
    + intros i r Hi. rewrite lookup_nil in Hi. discriminate.
    + unfold Store.zcard. rewrite Hc. lia.
  - unfold run. rewrite sliding_checks_cons. cbn [fst snd].
    apply Forall_cons in Hall as [Hq Hall].
    rewrite fmap_cons in Hnd. apply NoDup_cons in Hnd as [Hqn Hnd].
    assert (Hw : (0 <? windowSeconds) = true) by (apply Z.ltb_lt; lia).
    assert (Hview : sliding_view q.1 identifier st
                    = Store.zget (sliding_key identifier) st).
    { unfold sliding_view. rewrite zget_touch.
      destruct Hlive as [He|Ha]; [|now rewrite Ha by lia].
      rewrite He. now destruct (Store.alive _ _). }
    destruct (sliding_check q.1 q.2 identifier maxRequests windowSeconds st)
      as (Ha & Hr & Hra & Hz & Hx).
    rewrite Hview in Ha, Hr, Hra, Hz, Hx.
    rewrite map_filter_id in Ha, Hr, Hra, Hz, Hx
      by (intros m s Hm; apply Hsc in Hm; cbn [snd]; lia).
    rewrite Hc in Ha, Hr, Hra, Hz, Hx. rewrite Hw in Hz, Hx.
    replace (q.1, q.2) with q in Hz by now destruct q.
    destruct (RL.checkSlidingWindow q.1 q.2 identifier maxRequests windowSeconds st)
      as [r1 st1].
    cbn [fst snd] in Ha, Hr, Hra, Hz, Hx |- *.
    destruct (c <? maxRequests) eqn:E.
    + apply Z.ltb_lt in E.
      assert (Hq0 : Store.zget (sliding_key identifier) st !! sliding_member q = None)
        by (apply Hfresh; left).
      destruct (IH (c + 1) st1) as (Hlen & Hres & Hfin).
      * rewrite Hz, map_size_insert_None by exact Hq0. lia.
      * lia.
      * right. intros t Ht. rewrite Hx. cbn [Store.alive]. apply Z.ltb_lt. lia.
      * intros m s. rewrite Hz. intros Hm.
        apply lookup_insert_Some in Hm as [[_ <-]|[_ Hm]]; [lia|now apply Hsc in Hm].
      * intros q' Hq'. rewrite Hz, lookup_insert_ne; [apply Hfresh; now right|].
        intros Heq. apply Hqn. rewrite Heq. now apply list_elem_of_fmap_2.
      * exact Hall.
      * exact Hnd.
      * split; [cbn [length]; now rewrite Hlen|]. split.
        -- intros [|i] r Hi; cbn in Hi.
           ++ injection Hi as <-. rewrite Ha, Hr, Hra.
              replace (c + Z.of_nat 0) with c by lia.
              assert (E' : (c <? maxRequests) = true) by now apply Z.ltb_lt.
              rewrite E'. repeat split; try discriminate; try (do 2 f_equal; lia).
           ++ destruct (Hres i r Hi) as (H1 & H2 & H3).
              replace (c + Z.of_nat (S i)) with (c + 1 + Z.of_nat i) by lia. auto.
        -- rewrite Hfin. cbn [length]. lia.
    + assert (Hge : maxRequests <= c) by now apply Z.ltb_ge.
      destruct (IH c st1) as (Hlen & Hres & Hfin).
      * now rewrite Hz.
      * lia.
      * destruct Hlive as [He|Hal]; [left; now rewrite Hz|].
        right. intros t Ht. destruct Hx as [-> | ->]; [reflexivity|now apply Hal].
      * intros m s. rewrite Hz. apply Hsc.
      * intros q' Hq'. rewrite Hz. apply Hfresh. now right.
      * exact Hall.
      * exact Hnd.
      * split; [cbn [length]; now rewrite Hlen|]. split.
        -- intros [|i] r Hi; cbn in Hi.
           ++ injection Hi as <-. rewrite Ha, Hr, Hra.
              replace (c + Z.of_nat 0) with c by lia.
              assert (E' : (c <? maxRequests) = false) by now apply Z.ltb_ge.
              rewrite E'.
              repeat split; try (intros _; reflexivity); try (f_equal; lia).
           ++ destruct (Hres i r Hi) as (H1 & H2 & H3).
              assert (E1 : (c + Z.of_nat i <? maxRequests) = false)
                by (apply Z.ltb_ge; lia).
              assert (E2 : (c + Z.of_nat (S i) <? maxRequests) = false)
                by (apply Z.ltb_ge; lia).
              rewrite E2. rewrite E1 in H1. split; [exact H1|].
              split; [rewrite H2; f_equal; lia|exact H3].
        -- rewrite Hfin. cbn [length]. lia.
Qed.

(** The sliding window lets exactly [maxRequests] requests through: of
    a run of checks on a fresh identifier whose clock readings all lie
    within one window length of the earliest, and whose recorded
    members differ, the first [maxRequests] are allowed and all later
    ones are denied with [retryAfter] the window length.  Denied
    requests are not recorded: the container ends with
    [min(length, maxRequests)] entries. *)
Theorem sliding_window_limit :
  forall (identifier : string) (maxRequests windowSeconds t1 : Z)
         (reqs : list (Z * string)) (st : Store.store),
    Store.zget (sliding_key identifier) st = ∅ ->
    0 <= maxRequests ->
    Forall (fun q : Z * string => t1 <= q.1 < t1 + windowSeconds * 1000) reqs ->
    NoDup (sliding_member <$> reqs) ->
    let run := sliding_checks reqs identifier maxRequests windowSeconds st in
    length (fst run) = length reqs
    /\ (forall (i : nat) r, fst run !! i = Some r ->
          RL.allowed r = (Z.of_nat i <? maxRequests)
          /\ RL.remaining r = Z.max 0 (maxRequests - Z.of_nat i - 1)
          /\ (RL.allowed r = false -> RL.retryAfter r = Some (JS.of_Z windowSeconds)))
    /\ Store.zcard (sliding_key identifier) (snd run)
       = Z.min (Z.of_nat (length reqs)) maxRequests.
Proof.
  intros identifier maxRequests windowSeconds t1 reqs st Hz HN Hall Hnd run.
  destruct (sliding_run identifier maxRequests windowSeconds t1 reqs 0 st)
    as (Hlen & Hres & Hfin).
  - now rewrite Hz.
  - exact HN.
  - now left.
  - intros m s. rewrite Hz, lookup_empty. discriminate.
  - intros q _. now rewrite Hz, lookup_empty.
  - exact Hall.
  - exact Hnd.
  - split; [exact Hlen|]. split; [|exact Hfin].
    intros i r Hi. apply (Hres i r Hi).
Qed.

Lemma sliding_window_limit_witness :
  let run := sliding_checks [(0, "a"); (10, "b"); (20, "c")] "u" 2 60 Store.empty in
  length (fst run) = 3%nat
  /\ (forall (i : nat) r, fst run !! i = Some r ->
        RL.allowed r = (Z.of_nat i <? 2)
        /\ RL.remaining r = Z.max 0 (2 - Z.of_nat i - 1)
        /\ (RL.allowed r = false -> RL.retryAfter r = Some (JS.of_Z 60)))
  /\ Store.zcard (sliding_key "u") (snd run) = Z.min (Z.of_nat 3) 2.
Proof.
  apply (sliding_window_limit "u" 2 60 0 [(0, "a"); (10, "b"); (20, "c")] Store.empty).
  - reflexivity.
  - lia.
  - repeat constructor; cbn; lia.
  - vm_compute. repeat constructor; rewrite ?list_elem_of_In; cbn; intuition discriminate.
Defined.

Lemma getUsage_sliding (t : Z) (identifier : string) (st : Store.store) :
  RL.getUsage t identifier (Some RL.sliding) st
  = Ok (Some (JS.of_Z (Z.of_nat (size (sliding_view t identifier st))))).
Proof. reflexivity. Qed.

(** The window slides: when every request that an access finds in the
    container is a window length old or older (an expired container
    holds none), the check drops them all, allows the request (for a
    positive limit) and leaves this request as the only entry, with
    [windowSeconds] to live: [getUsage(id, "sliding")] then counts 1
    until the container expires and 0 from then on.  With a
    [windowSeconds] that is not positive the container is removed at
    once, and the usage is 0. *)
Theorem sliding_window_slides :
  forall (now : Z) (rnd identifier : string) (maxRequests windowSeconds : Z)
         (st : Store.store),
    0 < maxRequests ->
    (forall m s, sliding_view now identifier st !! m = Some s ->
                 0 <= s <= now - windowSeconds * 1000) ->
    let run := RL.checkSlidingWindow now rnd identifier maxRequests windowSeconds st in
    RL.allowed (fst run) = true
    /\ RL.remaining (fst run) = maxRequests - 1
    /\ Store.zget (sliding_key identifier) (snd run)
       = (if 0 <? windowSeconds then {[ sliding_member (now, rnd) := now ]} else ∅)
    /\ forall t,
         RL.getUsage t identifier (Some RL.sliding) (snd run)
         = Ok (Some (JS.of_Z (if (0 <? windowSeconds) && (t <? now + windowSeconds * 1000)
                              then 1 else 0))).
Proof.
  intros now rnd identifier maxRequests windowSeconds st HN Hold run.
  destruct (sliding_check now rnd identifier maxRequests windowSeconds st)
    as (Ha & Hr & _ & Hz & Hx).
  fold run in Ha, Hr, Hz, Hx.
  rewrite map_empty_filter_2 in Ha, Hr, Hz, Hx
    by (intros m s Hm; apply Hold in Hm; cbn [snd]; intros Hn; apply Hn; lia).
  rewrite map_size_empty in Ha, Hr, Hz, Hx. change (Z.of_nat 0) with 0 in *.
  assert (E : (0 <? maxRequests) = true) by now apply Z.ltb_lt.
  rewrite E in Ha, Hr, Hz, Hx.
  split; [exact Ha|]. split; [rewrite Hr; f_equal; lia|].
  split; [rewrite Hz; destruct (0 <? windowSeconds); [apply insert_empty|reflexivity]|].
  intros t. rewrite getUsage_sliding. do 3 f_equal.
  unfold sliding_view. rewrite zget_touch, Hx, Hz.
  destruct (0 <? windowSeconds); cbn [andb Store.alive].
  - destruct (t <? now + windowSeconds * 1000); [|reflexivity].
    now rewrite insert_empty, map_size_singleton.
  - reflexivity.
Qed.

Lemma sliding_window_slides_witness :
  let st := snd (RL.checkSlidingWindow 0 "a" "u" 2 60 Store.empty) in
  let run := RL.checkSlidingWindow 60000 "c" "u" 2 60 st in
  RL.allowed (fst run) = true
  /\ RL.remaining (fst run) = 2 - 1
  /\ Store.zget (sliding_key "u") (snd run)
     = (if 0 <? 60 then {[ sliding_member (60000, "c") := 60000 ]} else ∅)
  /\ forall t,
       RL.getUsage t "u" (Some RL.sliding) (snd run)
       = Ok (Some (JS.of_Z (if (0 <? 60) && (t <? 60000 + 60 * 1000) then 1 else 0))).
Proof.
  intros st.
  apply (sliding_window_slides 60000 "c" "u" 2 60 st).
  - lia.
  - intros m s Hm. unfold sliding_view in Hm. rewrite zget_touch in Hm.
    assert (Hx : Store.zexp st !! sliding_key "u" = Some (0 + 60 * 1000)).
    { destruct (sliding_check 0 "a" "u" 2 60 Store.empty) as (_ & _ & _ & _ & Hx).
      exact Hx. }
    rewrite Hx in Hm. cbn [Store.alive] in Hm.
    change (60000 <? 0 + 60 * 1000) with false in Hm. cbv iota in Hm.
    rewrite lookup_empty in Hm. discriminate.
Defined.
